(** * Wiki search: index loader, scorer, highlighter and input controllers

    A shallow embedding of [wiki-netlify/dist/static/js/search.js] (the
    readable module and its minified variant) together with the part of
    the JavaScript runtime the module calls: strings, [RegExp], global
    [match] / [replace] / [split], arrays living in a heap.

    Strings are sequences of code units.  The model covers the strings
    whose code units are below 256 (U+0000 to U+00FF): a code unit is an
    [ascii], and case mapping, white space and line terminators follow the
    ECMAScript rules on these units. *)

From Stdlib Require Import ZArith Lia List Ascii String Bool.
From stdpp Require Import base option list sorting gmap.

Open Scope Z_scope.
Open Scope list_scope.

(** ** Strings of the JavaScript runtime *)

Module JS.

Definition jsstring := list ascii.

(** A string literal of the source text. *)
Definition lit (s : string) : jsstring := list_ascii_of_string s.

Definition code (c : ascii) : N := N_of_ascii c.

Definition between (lo hi : N) (c : ascii) : bool :=
  ((lo <=? code c) && (code c <=? hi))%N.

(** The lower case of a code unit: [A]-[Z], and U+00C0-U+00DE without the
    multiplication sign U+00D7, lie 32 below their lower case. *)
Definition lowerChar (c : ascii) : ascii :=
  if between 65 90 c || between 192 214 c || between 216 222 c
  then ascii_of_N (code c + 32) else c.

(** The canonical form of a code unit under the [i] flag (Canonicalize
    without the [u] flag), which is its upper case when that is one code
    unit: [a]-[z], and U+00E0-U+00FE without the division sign U+00F7, lie
    32 above it.  The sharp s U+00DF has an upper case of two units and is
    its own canonical form.  The micro sign U+00B5 and U+00FF have theirs
    at U+039C and U+0178; no other unit below 256 is sent there, so each of
    the two stands here for its own canonical form. *)
Definition upperChar (c : ascii) : ascii :=
  if between 97 122 c || between 224 246 c || between 248 254 c
  then ascii_of_N (code c - 32) else c.

(** [String.prototype.toLowerCase]: below 256 every unit has a lower case
    of one unit, whatever stands around it. *)
Definition toLowerCase (s : jsstring) : jsstring := map lowerChar s.

(** WhiteSpace and LineTerminator code units: TAB, LF, VT, FF, CR, SP and
    the no-break space U+00A0. *)
Definition isWhiteSpace (c : ascii) : bool :=
  between 9 13 c || (code c =? 32)%N || (code c =? 160)%N.

Fixpoint trimStart (s : jsstring) : jsstring :=
  match s with
  | c :: tl => if isWhiteSpace c then trimStart tl else s
  | [] => []
  end.

Definition trimEnd (s : jsstring) : jsstring := rev (trimStart (rev s)).

(** [String.prototype.trim] *)
Definition trim (s : jsstring) : jsstring := trimEnd (trimStart s).

Fixpoint startsWith (t s : jsstring) : bool :=
  match t, s with
  | [], _ => true
  | a :: t', b :: s' => Ascii.eqb a b && startsWith t' s'
  | _ :: _, [] => false
  end.

(** [String.prototype.includes]: [t] occurs in [s] at some position. *)
Fixpoint includes (s t : jsstring) : bool :=
  startsWith t s ||
  match s with
  | [] => false
  | _ :: tl => includes tl t
  end.

(** Strict equality [===] of two strings. *)
Fixpoint strictEq (a b : jsstring) : bool :=
  match a, b with
  | [], [] => true
  | x :: a', y :: b' => Ascii.eqb x y && strictEq a' b'
  | _, _ => false
  end.

(** ** Regular expressions

    The abstract syntax of a pattern, after the ECMAScript grammar
    (Disjunction, Alternative, Term, Atom). *)

Inductive regex : Type :=
| REmpty                                        (* the empty Alternative *)
| RChar (c : ascii)                             (* PatternCharacter, IdentityEscape *)
| RDot                                          (* .  *)
| RSet (negated : bool) (ranges : list (ascii * ascii))   (* CharacterClass, \d \w \s *)
| RBol                                          (* ^  *)
| REol                                          (* $  *)
| RSeq (r1 r2 : regex)                          (* Alternative Term *)
| RAlt (r1 r2 : regex)                          (* Alternative | Disjunction *)
| RGroup (index : option nat) (r : regex)       (* ( ... ) numbered from 1, (?: ... ) *)
| RRepeat (r : regex) (min : nat) (max : option nat) (greedy : bool).

(** What evaluating an expression can do: return, throw a [SyntaxError],
    or leave what is modelled here (a pattern outside the fragment of the
    pattern language below, a heap that is not well formed). *)
Inductive completion (A : Type) : Type :=
| Normal (a : A)
| ThrowSyntaxError
| Unmodelled.
Arguments Normal {A} a.
Arguments ThrowSyntaxError {A}.
Arguments Unmodelled {A}.

#[global] Instance completion_ret : MRet completion := fun A a => Normal a.
#[global] Instance completion_bind : MBind completion := fun A B f m =>
  match m with
  | Normal a => f a
  | ThrowSyntaxError => ThrowSyntaxError
  | Unmodelled => Unmodelled
  end.

Definition digitRanges : list (ascii * ascii) := [("0", "9")]%char.
Definition wordRanges : list (ascii * ascii) :=
  [("a", "z"); ("A", "Z"); ("0", "9"); ("_", "_")]%char.
Definition spaceRanges : list (ascii * ascii) :=
  [(ascii_of_N 9, ascii_of_N 13); (" ", " "); (ascii_of_N 160, ascii_of_N 160)]%char.

Definition isAlnum (c : ascii) : bool :=
  between 48 57 c || between 65 90 c || between 97 122 c.

(** [\ AtomEscape].  Class escapes and control escapes are modelled; an
    escaped character that is not alphanumeric is an IdentityEscape; the
    other alphanumeric escapes (back references, [\b], [\c], [\x], [\u] ...)
    are outside the fragment. *)
Definition parseAtomEscape (c : ascii) : completion regex :=
  match c with
  | "d" => Normal (RSet false digitRanges)
  | "D" => Normal (RSet true digitRanges)
  | "w" => Normal (RSet false wordRanges)
  | "W" => Normal (RSet true wordRanges)
  | "s" => Normal (RSet false spaceRanges)
  | "S" => Normal (RSet true spaceRanges)
  | "t" => Normal (RChar (ascii_of_N 9))
  | "n" => Normal (RChar (ascii_of_N 10))
  | "v" => Normal (RChar (ascii_of_N 11))
  | "f" => Normal (RChar (ascii_of_N 12))
  | "r" => Normal (RChar (ascii_of_N 13))
  | _ => if isAlnum c then Unmodelled else Normal (RChar c)
  end%char.

(** QuantifierPrefix: the bounds of [*], [+] and [?]. *)
Definition quantifierOf (c : ascii) : option (nat * option nat) :=
  match c with
  | "*" => Some (0, None)
  | "+" => Some (1, None)
  | "?" => Some (0, Some 1)
  | _ => None
  end%char%nat.

(** Quantifier: a prefix, lazy when a [?] follows it.  Returns the
    bounds, the greediness and the rest of the pattern. *)
Definition parseQuantifier (s : jsstring)
  : option (nat * option nat * bool * jsstring) :=
  match s with
  | [] => None
  | c :: tl =>
    match quantifierOf c with
    | None => None
    | Some (min, max) =>
      match tl with
      | c' :: tl' =>
        if Ascii.eqb c' "?" then Some (min, max, false, tl') else Some (min, max, true, tl)
      | [] => Some (min, max, true, tl)
      end
    end
  end.

Definition quantify (atom : regex) (s : jsstring) : regex * jsstring :=
  match parseQuantifier s with
  | Some (min, max, greedy, tl) => (RRepeat atom min max greedy, tl)
  | None => (atom, s)
  end.

(** What a character of a pattern stands for where a term may start. *)
Inductive token : Type :=
| TClose                  (* )  *)
| TBar                    (* |  *)
| TQuantifier             (* * + ?  with nothing to repeat *)
| TBraceOrClass           (* { [  *)
| TBol                    (* ^  *)
| TEol                    (* $  *)
| TDot                    (* .  *)
| TBackslash              (* \  *)
| TOpen                   (* (  *)
| TChar.                  (* a pattern character, also ] and } *)

Definition tokenOf (c : ascii) : token :=
  match c with
  | ")" => TClose
  | "|" => TBar
  | "*" | "+" | "?" => TQuantifier
  | "{" | "[" => TBraceOrClass
  | "^" => TBol
  | "$" => TEol
  | "." => TDot
  | "\" => TBackslash
  | "(" => TOpen
  | _ => TChar
  end%char.

(** What follows an opening parenthesis. *)
Inductive opener : Type :=
| Capturing (body : jsstring)            (* ( ...    *)
| NonCapturing (body : jsstring)         (* (?: ...  *)
| UnmodelledGroup                        (* look-around, named groups, modifiers *)
| InvalidGroup.                          (* (? and anything else *)

Definition openerOf (s : jsstring) : opener :=
  match s with
  | [] => Capturing s
  | c1 :: tl =>
    if negb (Ascii.eqb c1 "?") then Capturing s
    else
      match tl with
      | [] => InvalidGroup
      | c2 :: body =>
        if Ascii.eqb c2 ":" then NonCapturing body
        else if existsb (Ascii.eqb c2) ["="; "!"; "<"; "i"; "m"; "s"; "-"]%char
        then UnmodelledGroup
        else InvalidGroup
      end
  end.

(** Disjunction.  [n] counts the capturing groups opened so far, [acc] is
    the Alternative read so far.  The result carries the rest of the
    pattern, which is empty or starts with a closing parenthesis.  Every
    call consumes a character, so a fuel above the length of the pattern
    is never used up ([parseDisjunction_fuel] below). *)
Fixpoint parseDisjunction (fuel : nat) (n : nat) (acc : regex) (s : jsstring)
  : completion (regex * nat * jsstring) :=
  match fuel with
  | O => Unmodelled
  | S fuel =>
    let term (atom : regex) (n : nat) (tl : jsstring) :=
      parseDisjunction fuel n (RSeq acc (quantify atom tl).1) (quantify atom tl).2 in
    let group (index : option nat) (n : nat) (body : jsstring) :=
      '(r, n', rest) ← parseDisjunction fuel n REmpty body;
      match rest with
      | [] => ThrowSyntaxError                        (* unterminated group *)
      | c :: rest' =>
        if Ascii.eqb c ")" then term (RGroup index r) n' rest' else ThrowSyntaxError
      end in
    match s with
    | [] => Normal (acc, n, [])
    | c :: tl =>
      match tokenOf c with
      | TClose => Normal (acc, n, s)
      | TBar =>
        '(r, n', rest) ← parseDisjunction fuel n REmpty tl;
        Normal (RAlt acc r, n', rest)
      | TQuantifier => ThrowSyntaxError               (* nothing to repeat *)
      | TBraceOrClass => Unmodelled
      | TBol => parseDisjunction fuel n (RSeq acc RBol) tl
      | TEol => parseDisjunction fuel n (RSeq acc REol) tl
      | TDot => term RDot n tl
      | TBackslash =>
        match tl with
        | [] => ThrowSyntaxError                      (* \ at end of pattern *)
        | e :: tl' => a ← parseAtomEscape e; term a n tl'
        end
      | TOpen =>
        match openerOf tl with
        | Capturing body => group (Some (S n)) (S n) body
        | NonCapturing body => group None n body
        | UnmodelledGroup => Unmodelled
        | InvalidGroup => ThrowSyntaxError
        end
      | TChar => term (RChar c) n tl
      end
    end
  end.

(** A compiled regular expression.  Every regular expression of the module
    carries the [g] flag; [ignoreCase] is the [i] flag. *)
Record RegExp : Type := mkRegExp {
  pattern : regex;
  ngroups : nat;
  ignoreCase : bool
}.

(** [new RegExp(source, flags)] with [flags] being ['g'] or ['gi']. *)
Definition RegExp_new (source : jsstring) (ignoreCase : bool) : completion RegExp :=
  '(r, n, rest) ← parseDisjunction (S (length source)) 0%nat REmpty source;
  match rest with
  | [] => Normal (mkRegExp r n ignoreCase)
  | _ => ThrowSyntaxError                             (* unmatched ')' *)
  end.

(** ** Matching

    The backtracking matcher of the ECMAScript specification, in
    continuation-passing style.  A state is a position in the input, the
    input that remains from there, and the captures. *)

Record mstate : Type := mkState {
  pos : nat;
  rest : jsstring;
  caps : list (option jsstring)
}.

Definition cont : Type := mstate -> option mstate.

(** Canonicalize: under the [i] flag characters are compared through
    their upper case. *)
Definition canonicalize (ic : bool) (c : ascii) : ascii :=
  if ic then upperChar c else c.

Definition inRanges (ranges : list (ascii * ascii)) (c : ascii) : bool :=
  existsb (fun '(lo, hi) => between (code lo) (code hi) c) ranges.

(** CharacterSetMatcher: some member of the set canonicalizes to the
    canonical form of the input character. *)
Definition inSet (ic : bool) (ranges : list (ascii * ascii)) (c : ascii) : bool :=
  inRanges ranges c ||
  (ic && (inRanges ranges (upperChar c) || inRanges ranges (lowerChar c))).

Definition isLineTerminator (c : ascii) : bool :=
  (code c =? 10)%N || (code c =? 13)%N.

(** Consume one character accepted by [p]. *)
Definition charMatcher (p : ascii -> bool) (x : mstate) (k : cont) : option mstate :=
  match rest x with
  | ch :: tl => if p ch then k (mkState (S (pos x)) tl (caps x)) else None
  | [] => None
  end.

Fixpoint groupsOf (r : regex) : list nat :=
  match r with
  | RSeq r1 r2 | RAlt r1 r2 => groupsOf r1 ++ groupsOf r2
  | RGroup (Some i) r => i :: groupsOf r
  | RGroup None r => groupsOf r
  | RRepeat r _ _ _ => groupsOf r
  | _ => []
  end.

Definition setCapture (i : nat) (v : option jsstring) (c : list (option jsstring))
  : list (option jsstring) := <[Nat.pred i := v]> c.

Definition clearCaptures (parens : list nat) (x : mstate) : mstate :=
  mkState (pos x) (rest x) (foldr (fun i c => setCapture i None c) (caps x) parens).

(** RepeatMatcher.  An iteration that matches the empty string once [min]
    is exhausted fails, so every further iteration either lowers [min] or
    consumes input: [fuel] starts above [min] plus the remaining input and
    is never used up ([repeatMatcher_fuel] below). *)
Fixpoint repeatMatcher (m : mstate -> cont -> option mstate) (parens : list nat)
    (greedy : bool) (fuel : nat) (min : nat) (max : option nat)
    (x : mstate) (k : cont) : option mstate :=
  match fuel with
  | O => None
  | S fuel =>
    match max with
    | Some O => k x
    | _ =>
      let d : cont := fun y =>
        if (min =? 0)%nat && (pos y =? pos x)%nat then None
        else repeatMatcher m parens greedy fuel (Nat.pred min) (Nat.pred <$> max) y k in
      let xr := clearCaptures parens x in
      if (0 <? min)%nat then m xr d
      else if greedy then
        match m xr d with
        | Some z => Some z
        | None => k x
        end
      else
        match k x with
        | Some z => Some z
        | None => m xr d
        end
    end
  end.

Fixpoint matcher (ic : bool) (r : regex) : mstate -> cont -> option mstate :=
  match r with
  | REmpty => fun x k => k x
  | RChar c =>
    charMatcher (fun ch => Ascii.eqb (canonicalize ic ch) (canonicalize ic c))
  | RDot => charMatcher (fun ch => negb (isLineTerminator ch))
  | RSet negated ranges =>
    charMatcher (fun ch => xorb negated (inSet ic ranges ch))
  | RBol => fun x k => if (pos x =? 0)%nat then k x else None
  | REol => fun x k => match rest x with [] => k x | _ :: _ => None end
  | RSeq r1 r2 => fun x k => matcher ic r1 x (fun y => matcher ic r2 y k)
  | RAlt r1 r2 => fun x k =>
    match matcher ic r1 x k with
    | Some z => Some z
    | None => matcher ic r2 x k
    end
  | RGroup (Some i) r => fun x k =>
    matcher ic r x (fun y =>
      k (mkState (pos y) (rest y)
           (setCapture i (Some (take (pos y - pos x) (rest x))) (caps y))))
  | RGroup None r => matcher ic r
  | RRepeat r min max greedy => fun x k =>
    repeatMatcher (matcher ic r) (groupsOf r) greedy
      (S (min + length (rest x))) min max x k
  end.

(** One attempt of the pattern at position [i], where [s] is the input
    from [i] on. *)
Definition matchAt (rx : RegExp) (i : nat) (s : jsstring) : option mstate :=
  matcher (ignoreCase rx) (pattern rx)
    (mkState i s (replicate (ngroups rx) None)) (fun y => Some y).

(** The pieces a global scan cuts its input into: a character no match
    covers, or a match with its position, its text and its captures. *)
Inductive piece : Type :=
| Copy (c : ascii)
| Hit (index : nat) (matched : jsstring) (captures : list (option jsstring)).

(** The loop of a global [match] or [replace]: [lastIndex] starts at 0;
    [exec] tries the positions from [lastIndex] upwards and the first
    that matches is a hit, after which [lastIndex] is the end of the
    match, or one more when the match is empty.  [skip] is the number of
    positions still covered by the previous hit. *)
Fixpoint scan (rx : RegExp) (i : nat) (s : jsstring) (skip : nat) : list piece :=
  match skip with
  | S skip =>
    match s with
    | [] => []
    | _ :: tl => scan rx (S i) tl skip
    end
  | O =>
    match matchAt rx i s with
    | Some y =>
      Hit i (take (pos y - i) s) (caps y) ::
      match s with
      | [] => []
      | c :: tl =>
        if (pos y =? i)%nat then Copy c :: scan rx (S i) tl 0
        else scan rx (S i) tl (pos y - i - 1)
      end
    | None =>
      match s with
      | [] => []
      | c :: tl => Copy c :: scan rx (S i) tl 0
      end
    end
  end.

(** [s.match(rx)] for a global [rx], followed by [|| []]: the array of the
    matched substrings, empty when there is none. *)
Definition matchGlobal (s : jsstring) (rx : RegExp) : list jsstring :=
  omap (fun p => match p with Hit _ m _ => Some m | Copy _ => None end)
       (scan rx 0 s 0).

Definition digitValue (c : ascii) : option nat :=
  if between 48 57 c then Some (N.to_nat (code c - 48)) else None.

Definition capture (captures : list (option jsstring)) (n : nat) : jsstring :=
  default [] (mjoin (captures !! Nat.pred n)).

(** GetSubstitution: expands [$$], [$&], [$`], [$'], [$n] and [$nn] in a
    replacement template; there are no named groups. *)
Fixpoint getSubstitution (matched str : jsstring) (position : nat)
    (captures : list (option jsstring)) (template : jsstring) : jsstring :=
  let valid (n : nat) := ((1 <=? n) && (n <=? length captures))%nat in
  match template with
  | [] => []
  | c :: tl =>
    if negb (Ascii.eqb c "$") then c :: getSubstitution matched str position captures tl
    else
      match tl with
      | [] => [c]
      | d1 :: tl' =>
        if Ascii.eqb d1 "$" then
          d1 :: getSubstitution matched str position captures tl'
        else if Ascii.eqb d1 "&" then
          matched ++ getSubstitution matched str position captures tl'
        else if Ascii.eqb d1 "`" then
          take position str ++ getSubstitution matched str position captures tl'
        else if Ascii.eqb d1 "'" then
          drop (position + length matched) str ++
          getSubstitution matched str position captures tl'
        else
          match digitValue d1 with
          | None => c :: getSubstitution matched str position captures tl
          | Some n1 =>
            let one :=
              if valid n1 then
                capture captures n1 ++ getSubstitution matched str position captures tl'
              else c :: getSubstitution matched str position captures tl in
            match tl' with
            | [] => one
            | d2 :: tl'' =>
              match digitValue d2 with
              | None => one
              | Some n2 =>
                if valid (10 * n1 + n2)%nat then
                  capture captures (10 * n1 + n2)%nat ++
                  getSubstitution matched str position captures tl''
                else one
              end
            end
          end
      end
  end.

(** [s.replace(rx, template)] for a global [rx]: the characters outside the
    matches are copied, each match becomes its substitution. *)
Definition replaceAll (s : jsstring) (rx : RegExp) (template : jsstring) : jsstring :=
  concat (map (fun p =>
    match p with
    | Copy c => [c]
    | Hit i m cs => getSubstitution m s i cs template
    end) (scan rx 0 s 0)).

(** [s.split(rx)] for an [rx] without capturing groups: the current field
    starts at [p] and is read so far as [field] (reversed).  A match at
    [i] that ends at [p] is no separator; any other match closes the field
    and the next one starts at its end.  No match is tried at the end of
    the input. *)
Fixpoint splitLoop (rx : RegExp) (i : nat) (s : jsstring) (skip : nat)
    (field : jsstring) : list jsstring :=
  match s with
  | [] => [rev field]
  | c :: tl =>
    match skip with
    | S skip => splitLoop rx (S i) tl skip field
    | O =>
      match matchAt rx i s with
      | Some y =>
        if (pos y =? i)%nat then
          match field with
          | [] => splitLoop rx (S i) tl 0 [c]
          | _ :: _ => rev field :: splitLoop rx (S i) tl 0 [c]
          end
        else rev field :: splitLoop rx (S i) tl (pos y - i - 1) []
      | None => splitLoop rx (S i) tl 0 (c :: field)
      end
    end
  end.

Definition split (s : jsstring) (rx : RegExp) : list jsstring :=
  match s with
  | [] => match matchAt rx 0 [] with Some _ => [] | None => [[]] end
  | _ => splitLoop rx 0 s 0 []
  end.

End JS.

(** ** The module: data *)

Import JS.

(** One page record of [search-index.json]. *)
Record IndexEntry : Type := mkEntry {
  title : jsstring;
  content : jsstring;
  url : jsstring;
  category : jsstring
}.

(** [{ ...item, score }] *)
Record ScoredResult : Type := mkResult {
  r_title : jsstring;
  r_content : jsstring;
  r_url : jsstring;
  r_category : jsstring;
  score : Z
}.

Definition spread (item : IndexEntry) (score : Z) : ScoredResult :=
  mkResult (title item) (content item) (url item) (category item) score.

(** The regular expression literal [/\s+/]. *)
Definition whitespaceRun : RegExp :=
  mkRegExp (RSeq REmpty (RRepeat (RSet false spaceRanges) 1 None true)) 0 false.

(** The regular expression literal of [escapeRegex], a class of the
    fourteen characters [. * + ? ^ $ { } ( ) | [ ] \]. *)
Definition syntaxCharacters : list ascii :=
  [".";"*";"+";"?";"^";"$";"{";"}";"(";")";"|";"[";"]";"\"]%char.

Definition syntaxCharacter : RegExp :=
  mkRegExp (RSeq REmpty (RSet false (map (fun c => (c, c)) syntaxCharacters))) 0 false.

Definition quote : ascii := ascii_of_N 34.

(** ['<mark class="search-highlight">$1</mark>'] *)
Definition markOpen : jsstring :=
  lit "<mark class=" ++ [quote] ++ lit "search-highlight" ++ [quote] ++ lit ">".
Definition markClose : jsstring := lit "</mark>".
Definition markTemplate : jsstring := markOpen ++ lit "$1" ++ markClose.

(** [array.slice(0, end)]: a negative [end] counts from the end. *)
Definition slice0 {A} (l : list A) (limit : Z) : list A :=
  let len := Z.of_nat (length l) in
  let final := if limit <? 0 then Z.max (len + limit) 0 else Z.min limit len in
  take (Z.to_nat final) l.

(** [array.sort(compare)]: a stable sort; [x] goes before the first [y]
    of the sorted rest that it does not have to follow. *)
Fixpoint insertBy {A} (compare : A -> A -> Z) (x : A) (l : list A) : list A :=
  match l with
  | [] => [x]
  | y :: l' => if compare x y <=? 0 then x :: l else y :: insertBy compare x l'
  end.

Definition sortBy {A} (compare : A -> A -> Z) (l : list A) : list A :=
  foldr (insertBy compare) [] l.

(** [array.forEach] over a callback that updates a local variable and may
    throw. *)
Fixpoint forEach {A S} (f : S -> A -> completion S) (l : list A) (s : S)
  : completion S :=
  match l with
  | [] => Normal s
  | a :: l' => s' ← f s a; forEach f l' s'
  end.

(** [array.map] over a callback that may throw. *)
Fixpoint mapArray {A B} (f : A -> completion B) (l : list A) : completion (list B) :=
  match l with
  | [] => Normal []
  | a :: l' => b ← f a; bs ← mapArray f l'; Normal (b :: bs)
  end.

(** [query.toLowerCase().split(/\s+/).filter(term => term.length > 0)] *)
Definition termsOf (query : jsstring) : list jsstring :=
  List.filter (fun term => (0 <? length term)%nat) (split (toLowerCase query) whitespaceRun).

(** ** The index loader and the browser around the module

    [loadSearchIndex] is asynchronous: a call runs up to its first [await]
    and is resumed when the fetch and the parse have settled. *)

Inductive FetchOutcome : Type :=
| FetchRejected                         (* [fetch] rejects *)
| JsonRejected                          (* [response.json()] rejects *)
| Parsed (index : list IndexEntry).     (* the JSON array of entries *)

Record LoaderState : Type := mkLoader {
  searchIndex : option (list IndexEntry);   (* [let searchIndex = null] *)
  requests : nat;                           (* fetches issued so far *)
  errorsLogged : nat                        (* calls of [console.error] *)
}.

Definition initialLoader : LoaderState := mkLoader None 0 0.

Inductive LoadProgress : Type :=
| Returned (index : list IndexEntry)
| AwaitingFetch.

(** The DOM events the module listens to, their targets and the closures
    it registers. *)
Inductive Field : Type := Quick | Full.

Inductive Target : Type := InputOf (f : Field) | Document.

Inductive EventType : Type := FocusEvent | InputEvent | ClickEvent | KeydownEvent.

Inductive Handler : Type :=
| OnFocus (f : Field)       (* [() => { loadSearchIndex(); }] *)
| OnInput (f : Field)       (* the debounced query *)
| OnClickOutside            (* closes the quick results *)
| OnKeydown.                (* Enter opens the first quick result *)

Record Listener : Type := mkListener {
  target : Target;
  type : EventType;
  handler : Handler;
  once : bool
}.

(** Who called [loadSearchIndex]. *)
Inductive Cause : Type :=
| ByPreload                 (* the DOMContentLoaded handler *)
| ByFocus (f : Field)       (* a focus listener *)
| ByQuery (f : Field).      (* a debounced query *)

(** Which of the input fields the module looks up exist on the page. *)
Record Page : Type := mkPage {
  hasQuickInput : bool;         (* #quick-search *)
  hasFullInput : bool           (* #search-input *)
}.

(** The listeners, the timers and the calls of the loader; the markup and
    the classes of the result containers are not tracked. *)
Record Browser : Type := mkBrowser {
  listeners : list Listener;
  searchTimeout : option nat;                      (* [let searchTimeout = null] *)
  timers : list (nat * (Field * jsstring));        (* pending timeouts and their queries *)
  nextTimer : nat;
  loaderCalls : list Cause                         (* calls of [loadSearchIndex], oldest first *)
}.

Definition initialBrowser : Browser := mkBrowser [] None [] 1 [].

Inductive Event : Type :=
| Focus (f : Field)
| Input (f : Field) (value : jsstring)
| Click
| Keydown (f : Field)
| Timeout (id : nat).

Definition Target_eqb (a b : Target) : bool :=
  match a, b with
  | InputOf Quick, InputOf Quick | InputOf Full, InputOf Full | Document, Document => true
  | _, _ => false
  end.

Definition EventType_eqb (a b : EventType) : bool :=
  match a, b with
  | FocusEvent, FocusEvent | InputEvent, InputEvent
  | ClickEvent, ClickEvent | KeydownEvent, KeydownEvent => true
  | _, _ => false
  end.

Definition addEventListener (t : Target) (ty : EventType) (h : Handler) (once : bool)
    (b : Browser) : Browser :=
  mkBrowser (listeners b ++ [mkListener t ty h once]) (searchTimeout b) (timers b)
    (nextTimer b) (loaderCalls b).

Definition callLoader (c : Cause) (b : Browser) : Browser :=
  mkBrowser (listeners b) (searchTimeout b) (timers b) (nextTimer b) (loaderCalls b ++ [c]).

(** [clearTimeout(searchTimeout)] *)
Definition clearSearchTimeout (b : Browser) : Browser :=
  match searchTimeout b with
  | None => b
  | Some id =>
    mkBrowser (listeners b) (searchTimeout b)
      (List.filter (fun t => negb (fst t =? id)%nat) (timers b))
      (nextTimer b) (loaderCalls b)
  end.

(** [searchTimeout = setTimeout(task, 300)] *)
Definition setSearchTimeout (f : Field) (query : jsstring) (b : Browser) : Browser :=
  mkBrowser (listeners b) (Some (nextTimer b)) (timers b ++ [(nextTimer b, (f, query))])
    (S (nextTimer b)) (loaderCalls b).

(** The input listener of either field: a query of fewer than two
    characters only clears the results, a longer one is scheduled. *)
Definition onInput (f : Field) (value : jsstring) (b : Browser) : Browser :=
  let query := trim value in
  let b := clearSearchTimeout b in
  if (length query <? 2)%nat then b
  else setSearchTimeout f query b.

(** The task of the timeout: [await loadSearchIndex()], then [search] and
    the renderer of the field. *)
Definition runSearchTask (f : Field) (b : Browser) : Browser :=
  callLoader (ByQuery f) b.

(** The click and keydown listeners change the results shown and the
    location only. *)
Definition runHandler (h : Handler) (e : Event) (b : Browser) : Browser :=
  match h, e with
  | OnFocus f, _ => callLoader (ByFocus f) b
  | OnInput f, Input _ value => onInput f value b
  | _, _ => b
  end.

(** The element whose listeners see the event; a click bubbles up to the
    document, where its listener is. *)
Definition eventTarget (e : Event) : Target :=
  match e with
  | Focus f | Input f _ | Keydown f => InputOf f
  | Click | Timeout _ => Document
  end.

Definition eventType (e : Event) : option EventType :=
  match e with
  | Focus _ => Some FocusEvent
  | Input _ _ => Some InputEvent
  | Click => Some ClickEvent
  | Keydown _ => Some KeydownEvent
  | Timeout _ => None
  end.

Definition listensTo (e : Event) (l : Listener) : bool :=
  match eventType e with
  | Some ty =>
    EventType_eqb (type l) ty && Target_eqb (target l) (eventTarget e)
  | None => false
  end.

(** Dispatch: the listeners of the event run in the order they were
    added; a [once] listener is removed when it is invoked. *)
Definition dispatch (e : Event) (b : Browser) : Browser :=
  let invoked := List.filter (listensTo e) (listeners b) in
  let kept := List.filter (fun l => negb (listensTo e l && once l)) (listeners b) in
  let b := mkBrowser kept (searchTimeout b) (timers b) (nextTimer b) (loaderCalls b) in
  foldl (fun b l => runHandler (handler l) e b) b invoked.

(** One step of the event loop. *)
Definition step (b : Browser) (e : Event) : Browser :=
  match e with
  | Timeout id =>
    match List.find (fun t => (fst t =? id)%nat) (timers b) with
    | Some (_, (f, _)) =>
      runSearchTask f
        (mkBrowser (listeners b) (searchTimeout b)
           (List.filter (fun t => negb (fst t =? id)%nat) (timers b))
           (nextTimer b) (loaderCalls b))
    | None => b
    end
  | _ => dispatch e b
  end.

(** ** The readable module (lines 1 to 209) *)

Module Readable.

(** [escapeRegex(str)] *)
Definition escapeRegex (str : jsstring) : jsstring :=
  replaceAll str syntaxCharacter (lit "\$&").

(** [highlightText(text, query)]; [!query] holds of the empty string. *)
Definition highlightText (text query : jsstring) : completion jsstring :=
  match query with
  | [] => Normal text
  | _ =>
    let terms := termsOf query in
    forEach (fun highlighted term =>
        regex ← RegExp_new (lit "(" ++ escapeRegex term ++ lit ")") true;
        Normal (replaceAll highlighted regex markTemplate))
      terms text
  end.

(** The body of [terms.forEach] in [search]. *)
Definition scoreTerm (titleLower contentLower : jsstring) (score : Z) (term : jsstring)
  : completion Z :=
  let score :=
    if includes titleLower term then
      let score := score + 10 in
      if strictEq titleLower term then score + 20 else score
    else score in
  regex ← RegExp_new term false;
  let contentMatches := Z.of_nat (length (matchGlobal contentLower regex)) in
  Normal (score + contentMatches).

(** The callback of [searchIndex.map] in [search]. *)
Definition scoreItem (terms : list jsstring) (item : IndexEntry) : completion ScoredResult :=
  let titleLower := toLowerCase (title item) in
  let contentLower := toLowerCase (content item) in
  score ← forEach (scoreTerm titleLower contentLower) terms 0;
  Normal (spread item score).

(** [search(query, limit = 10)], over the module variable [searchIndex]
    ([None] is [null]; an array, even empty, is truthy). *)
Definition search (searchIndex : option (list IndexEntry)) (query : jsstring)
    (limit : option Z) : completion (list ScoredResult) :=
  let limit := default 10 limit in
  match searchIndex with
  | None => Normal []
  | Some index =>
    match query with
    | [] => Normal []
    | _ =>
      if (length (trim query) <? 2)%nat then Normal []
      else
        let queryLower := toLowerCase query in
        let terms :=
          List.filter (fun term => (0 <? length term)%nat) (split queryLower whitespaceRun) in
        scored ← mapArray (scoreItem terms) index;
        let results :=
          slice0
            (sortBy (fun a b => score b - score a)
               (List.filter (fun item => 0 <? score item) scored))
            limit in
        Normal results
    end
  end.

(** [loadSearchIndex()] up to its first [await]. *)
Definition loadSearchIndex_call (st : LoaderState) : LoadProgress * LoaderState :=
  match searchIndex st with
  | Some index => (Returned index, st)
  | None => (AwaitingFetch, mkLoader None (S (requests st)) (errorsLogged st))
  end.

(** The rest of [loadSearchIndex()], once the fetch has settled. *)
Definition loadSearchIndex_resume (net : FetchOutcome) (st : LoaderState)
  : list IndexEntry * LoaderState :=
  match net with
  | Parsed index => (index, mkLoader (Some index) (requests st) (errorsLogged st))
  | FetchRejected | JsonRejected =>
    ([], mkLoader (searchIndex st) (requests st) (S (errorsLogged st)))
  end.

(** A call that runs to completion before the next one starts; [net] is
    what the network answers if the call fetches. *)
Definition loadSearchIndex (net : FetchOutcome) (st : LoaderState)
  : list IndexEntry * LoaderState :=
  match loadSearchIndex_call st with
  | (Returned index, st') => (index, st')
  | (AwaitingFetch, st') => loadSearchIndex_resume net st'
  end.

(** [setupQuickSearch()] *)
Definition setupQuickSearch (p : Page) (b : Browser) : Browser :=
  if negb (hasQuickInput p) then b
  else
    let b := addEventListener (InputOf Quick) InputEvent (OnInput Quick) false b in
    let b := addEventListener Document ClickEvent OnClickOutside false b in
    addEventListener (InputOf Quick) KeydownEvent OnKeydown false b.

(** [setupFullSearch()] *)
Definition setupFullSearch (p : Page) (b : Browser) : Browser :=
  if negb (hasFullInput p) then b
  else addEventListener (InputOf Full) InputEvent (OnInput Full) false b.

(** The DOMContentLoaded listener, which ends by preloading the index. *)
Definition onDOMContentLoaded (p : Page) (b : Browser) : Browser :=
  let b := setupQuickSearch p b in
  let b := setupFullSearch p b in
  callLoader ByPreload b.

(** The page after DOMContentLoaded and the events [evs]. *)
Definition run (p : Page) (evs : list Event) : Browser :=
  foldl step (onDOMContentLoaded p initialBrowser) evs.

End Readable.

(** ** The minified variant (lines 211 to 237) *)

Module Minified.

Definition escapeRegex (str : jsstring) : jsstring :=
  replaceAll str syntaxCharacter (lit "\$&").

Definition highlightText (text query : jsstring) : completion jsstring :=
  match query with
  | [] => Normal text
  | _ =>
    let terms := termsOf query in
    forEach (fun highlighted term =>
        regex ← RegExp_new (lit "(" ++ escapeRegex term ++ lit ")") true;
        Normal (replaceAll highlighted regex markTemplate))
      terms text
  end.

Definition scoreTerm (titleLower contentLower : jsstring) (score : Z) (term : jsstring)
  : completion Z :=
  let score :=
    if includes titleLower term then
      let score := score + 10 in
      if strictEq titleLower term then score + 20 else score
    else score in
  regex ← RegExp_new term false;
  let contentMatches := Z.of_nat (length (matchGlobal contentLower regex)) in
  Normal (score + contentMatches).

Definition scoreItem (terms : list jsstring) (item : IndexEntry) : completion ScoredResult :=
  let titleLower := toLowerCase (title item) in
  let contentLower := toLowerCase (content item) in
  score ← forEach (scoreTerm titleLower contentLower) terms 0;
  Normal (spread item score).

Definition search (searchIndex : option (list IndexEntry)) (query : jsstring)
    (limit : option Z) : completion (list ScoredResult) :=
  let limit := default 10 limit in
  match searchIndex with
  | None => Normal []
  | Some index =>
    match query with
    | [] => Normal []
    | _ =>
      if (length (trim query) <? 2)%nat then Normal []
      else
        let queryLower := toLowerCase query in
        let terms :=
          List.filter (fun term => (0 <? length term)%nat) (split queryLower whitespaceRun) in
        scored ← mapArray (scoreItem terms) index;
        let results :=
          slice0
            (sortBy (fun a b => score b - score a)
               (List.filter (fun item => 0 <? score item) scored))
            limit in
        Normal results
    end
  end.

(** [setupQuickSearch()], which here first adds a one-shot focus listener. *)
Definition setupQuickSearch (p : Page) (b : Browser) : Browser :=
  if negb (hasQuickInput p) then b
  else
    let b := addEventListener (InputOf Quick) FocusEvent (OnFocus Quick) true b in
    let b := addEventListener (InputOf Quick) InputEvent (OnInput Quick) false b in
    let b := addEventListener Document ClickEvent OnClickOutside false b in
    addEventListener (InputOf Quick) KeydownEvent OnKeydown false b.

Definition setupFullSearch (p : Page) (b : Browser) : Browser :=
  if negb (hasFullInput p) then b
  else
    let b := addEventListener (InputOf Full) FocusEvent (OnFocus Full) true b in
    addEventListener (InputOf Full) InputEvent (OnInput Full) false b.

(** The DOMContentLoaded listener; it does not preload. *)
Definition onDOMContentLoaded (p : Page) (b : Browser) : Browser :=
  let b := setupQuickSearch p b in
  setupFullSearch p b.

Definition run (p : Page) (evs : list Event) : Browser :=
  foldl step (onDOMContentLoaded p initialBrowser) evs.

End Minified.

(** ** [search] over a heap of objects

    Arrays and objects are mutable and shared by reference.  Here [search]
    is run on a heap in which the index is an array of references to entry
    objects; [map], [filter] and [slice] allocate, the spread allocates,
    and [sort] writes the array it is called on. *)

Module Heap.

Definition loc : Type := positive.

Inductive object : Type :=
| Entry (e : IndexEntry)
| Result (r : ScoredResult)
| Array (elements : list loc).

Definition St (A : Type) : Type := gmap loc object -> completion A * gmap loc object.

#[global] Instance St_ret : MRet St := fun A a h => (Normal a, h).
#[global] Instance St_bind : MBind St := fun A B f m h =>
  match m h with
  | (Normal a, h') => f a h'
  | (ThrowSyntaxError, h') => (ThrowSyntaxError, h')
  | (Unmodelled, h') => (Unmodelled, h')
  end.

Definition lift {A} (c : completion A) : St A := fun h => (c, h).

Definition alloc (o : object) : St loc := fun h =>
  let l := fresh (dom h) in (Normal l, <[l := o]> h).

Definition readArray (l : loc) : St (list loc) := fun h =>
  match h !! l with
  | Some (Array elements) => (Normal elements, h)
  | _ => (Unmodelled, h)
  end.

Definition readEntry (l : loc) : St IndexEntry := fun h =>
  match h !! l with
  | Some (Entry e) => (Normal e, h)
  | _ => (Unmodelled, h)
  end.

Definition readResult (l : loc) : St ScoredResult := fun h =>
  match h !! l with
  | Some (Result r) => (Normal r, h)
  | _ => (Unmodelled, h)
  end.

Definition writeArray (l : loc) (elements : list loc) : St unit := fun h =>
  (Normal tt, <[l := Array elements]> h).

Fixpoint mapSt {A B} (f : A -> St B) (l : list A) : St (list B) :=
  match l with
  | [] => mret []
  | a :: l' => b ← f a; bs ← mapSt f l'; mret (b :: bs)
  end.

(** [array.map(callback)]: a new array of the values of the callback. *)
Definition arrayMap (f : loc -> St loc) (array : loc) : St loc :=
  elements ← readArray array;
  mapped ← mapSt f elements;
  alloc (Array mapped).

(** [array.filter(callback)]: a new array of the elements the callback
    accepts. *)
Definition arrayFilter (f : loc -> St bool) (array : loc) : St loc :=
  elements ← readArray array;
  flags ← mapSt f elements;
  alloc (Array (map fst (List.filter snd (zip elements flags)))).

(** [array.sort((a, b) => b.score - a.score)]: sorts the array in place
    and returns it. *)
Definition arraySortByScore (array : loc) : St loc :=
  elements ← readArray array;
  results ← mapSt readResult elements;
  _ ← writeArray array
        (map fst (sortBy (fun a b => score (snd b) - score (snd a)) (zip elements results)));
  mret array.

(** [array.slice(0, limit)]: a new array. *)
Definition arraySlice0 (limit : Z) (array : loc) : St loc :=
  elements ← readArray array;
  alloc (Array (slice0 elements limit)).

(** [search(query, limit = 10)]; [searchIndex] is [null] or a reference to
    the index array. *)
Definition search (searchIndex : option loc) (query : jsstring) (limit : option Z)
  : St loc :=
  let limit := default 10 limit in
  match searchIndex with
  | None => alloc (Array [])
  | Some index =>
    match query with
    | [] => alloc (Array [])
    | _ =>
      if (length (trim query) <? 2)%nat then alloc (Array [])
      else
        let queryLower := toLowerCase query in
        let terms :=
          List.filter (fun term => (0 <? length term)%nat) (split queryLower whitespaceRun) in
        scored ← arrayMap (fun item =>
            e ← readEntry item;
            r ← lift (Readable.scoreItem terms e);
            alloc (Result r)) index;
        kept ← arrayFilter (fun item =>
            r ← readResult item; mret (0 <? score r)) scored;
        sorted ← arraySortByScore kept;
        arraySlice0 limit sorted
    end
  end.

(** A series of calls of [search] on the same index. *)
Fixpoint searches (searchIndex : option loc) (calls : list (jsstring * option Z))
    (h : gmap loc object) : gmap loc object :=
  match calls with
  | [] => h
  | (query, limit) :: calls' => searches searchIndex calls' (search searchIndex query limit h).2
  end.

(** The entries an index array refers to, and the results a result array
    refers to. *)
Definition entriesAt (h : gmap loc object) (array : loc) : option (list IndexEntry) :=
  match h !! array with
  | Some (Array elements) =>
    mapM (M := option) (fun l => match h !! l with Some (Entry e) => Some e | _ => None end) elements
  | _ => None
  end.

Definition resultsAt (h : gmap loc object) (array : loc) : option (list ScoredResult) :=
  match h !! array with
  | Some (Array elements) =>
    mapM (M := option) (fun l => match h !! l with Some (Result r) => Some r | _ => None end) elements
  | _ => None
  end.

End Heap.

(** ** Notions of the specification *)

(** The index of the scenario. *)
Definition magikEntry : IndexEntry :=
  mkEntry (lit "Magik") (lit "A story about a magik user. Magik is powerful.")
    (lit "/a") (lit "Backstory").

Definition settlementEntry : IndexEntry :=
  mkEntry (lit "Settlement") (lit "The world state.") (lit "/b") (lit "Setting").

Definition scenarioIndex : list IndexEntry := [magikEntry; settlementEntry].

(** An entry whose content is [abc]. *)
Definition abcEntry : IndexEntry := mkEntry (lit "x") (lit "abc") (lit "/c") (lit "Setting").

(** The non-overlapping occurrences of [term] as a literal substring of
    [s], counted from the left; [skip] positions are covered by the
    occurrence before. *)
Fixpoint occurrencesFrom (term s : jsstring) (skip : nat) : nat :=
  match s with
  | [] => 0
  | _ :: tl =>
    match skip with
    | S skip => occurrencesFrom term tl skip
    | O =>
      if startsWith term s then S (occurrencesFrom term tl (length term - 1))
      else occurrencesFrom term tl 0
    end
  end.

Definition occurrences (term s : jsstring) : nat := occurrencesFrom term s 0.

(** Stripping the highlight markup: every opening and closing tag is
    removed in one pass from the left. *)
Fixpoint stripFrom (s : jsstring) (skip : nat) : jsstring :=
  match s with
  | [] => []
  | c :: tl =>
    match skip with
    | S skip => stripFrom tl skip
    | O =>
      if startsWith markOpen s then stripFrom tl (length markOpen - 1)
      else if startsWith markClose s then stripFrom tl (length markClose - 1)
      else c :: stripFrom tl 0
    end
  end.

Definition stripMarks (s : jsstring) : jsstring := stripFrom s 0.

(** [s] holds neither tag. *)
Definition tagFree (s : jsstring) : bool :=
  negb (includes s markOpen) && negb (includes s markClose).

(** Calls of the loader one after the other, each settled before the
    next; [nets] is what the network would answer to each. *)
Fixpoint loadAll (nets : list FetchOutcome) (st : LoaderState)
  : list (list IndexEntry) * LoaderState :=
  match nets with
  | [] => ([], st)
  | net :: nets' =>
    let '(r, st') := Readable.loadSearchIndex net st in
    let '(rs, st'') := loadAll nets' st' in
    (r :: rs, st'')
  end.

Definition failed (net : FetchOutcome) : bool :=
  match net with Parsed _ => false | _ => true end.

Definition isQuickFocus (e : Event) : bool :=
  match e with Focus Quick => true | _ => false end.

Definition byQuickFocus (c : Cause) : bool :=
  match c with ByFocus Quick => true | _ => false end.

(** How often a focus of the quick field has called the loader. *)
Definition focusLoads (b : Browser) : nat :=
  length (List.filter byQuickFocus (loaderCalls b)).

(** The score order of the results of [search]. *)
Definition byScore (a b : ScoredResult) : Prop := score b <= score a.

(** Every result scores at least as much as each result after it. *)
Definition descending (l : list ScoredResult) : Prop := StronglySorted byScore l.

(** ** Notions of the matcher *)

Section MatcherNotions.

Local Open Scope nat_scope.

(** [y] is reached from [x] by consuming input. *)
Definition after (x y : mstate) : Prop :=
  pos x <= pos y /\ pos y + length (rest y) = pos x + length (rest x).

(** A matcher calls its continuation only on states after its own. *)
Definition forward (m : mstate -> cont -> option mstate) : Prop :=
  forall x k k', (forall y, after x y -> k y = k' y) -> m x k = m x k'.

End MatcherNotions.

(** ** Notions of the highlighter *)

Section HighlighterNotions.

Local Open Scope nat_scope.

Definition isSyntax (c : ascii) : bool := existsb (Ascii.eqb c) syntaxCharacters.

(** What [escapeRegex] makes of one character. *)
Definition escapeChar (c : ascii) : jsstring :=
  if isSyntax c then ["\"%char; c] else [c].

Definition escaped (s : jsstring) : jsstring := concat (map escapeChar s).

(** [t] is at the start of [s], case ignored. *)
Fixpoint startsWithCI (t s : jsstring) : bool :=
  match t, s with
  | [], _ => true
  | a :: t', b :: s' => Ascii.eqb (upperChar b) (upperChar a) && startsWithCI t' s'
  | _ :: _, [] => false
  end.

(** One term highlighted in [s]: the occurrences of [t], case ignored and
    from the left, each wrapped in the tags. *)
Fixpoint wrapFrom (t s : jsstring) (skip : nat) : jsstring :=
  match s with
  | [] => []
  | c :: tl =>
    match skip with
    | S skip => wrapFrom t tl skip
    | O =>
      if startsWithCI t s
      then markOpen ++ take (length t) s ++ markClose ++ wrapFrom t tl (length t - 1)
      else c :: wrapFrom t tl 0
    end
  end.

(** The pattern of a term after [escapeRegex]. *)
Definition literalSeq (acc : regex) (t : jsstring) : regex :=
  foldl (fun r c => RSeq r (RChar c)) acc t.

Definition termRegExp (t : jsstring) : RegExp :=
  mkRegExp (RSeq REmpty (RGroup (Some 1) (literalSeq REmpty t))) 1 true.

(** The matcher of a sequence of pattern characters. *)
Fixpoint matchLiteral (ic : bool) (t : jsstring) (x : mstate) (k : cont) : option mstate :=
  match t with
  | [] => k x
  | c :: t' =>
    charMatcher (fun ch => Ascii.eqb (canonicalize ic ch) (canonicalize ic c)) x
      (fun y => matchLiteral ic t' y k)
  end.

(** [highlightText] wraps the occurrences of one term after the other. *)
Definition highlighted (text : jsstring) (terms : list jsstring) : jsstring :=
  foldl (fun h t => wrapFrom t h 0) text terms.

(** [marked p o]: [o] is [p] with opening and closing tags put in. *)
Inductive marked : jsstring -> jsstring -> Prop :=
| marked_nil : marked [] []
| marked_char c p o : marked p o -> marked (c :: p) (c :: o)
| marked_open p o : marked p o -> marked p (markOpen ++ o)
| marked_close p o : marked p o -> marked p (markClose ++ o).

Definition hasChar (c : ascii) (t : jsstring) : bool := existsb (Ascii.eqb c) t.

(** [t] occurs in [s], case ignored. *)
Fixpoint includesCI (s t : jsstring) : bool :=
  startsWithCI t s ||
  match s with
  | [] => false
  | _ :: tl => includesCI tl t
  end.

(** A term that cannot match across or within a tag: it holds neither
    angle bracket and occurs in neither tag, case ignored. *)
Definition safeTerm (t : jsstring) : bool :=
  negb (hasChar "<" t) && negb (hasChar ">" t)
  && negb (includesCI markOpen t) && negb (includesCI markClose t).

End HighlighterNotions.

(** ** Notions of the controllers and of the heap *)

(** The listeners of a page of the minified variant: the one-shot focus
    listeners are there until they have run. *)
Definition minifiedListeners (p : Page) (quickArmed fullArmed : bool) : list Listener :=
  (if hasQuickInput p then
     (if quickArmed then [mkListener (InputOf Quick) FocusEvent (OnFocus Quick) true] else [])
     ++ [mkListener (InputOf Quick) InputEvent (OnInput Quick) false;
         mkListener Document ClickEvent OnClickOutside false;
         mkListener (InputOf Quick) KeydownEvent OnKeydown false]
   else [])
  ++ (if hasFullInput p then
     (if fullArmed then [mkListener (InputOf Full) FocusEvent (OnFocus Full) true] else [])
     ++ [mkListener (InputOf Full) InputEvent (OnInput Full) false]
   else []).

Definition focusInvariant (p : Page) (quickArmed : bool) (b : Browser) : Prop :=
  (exists fullArmed, listeners b = minifiedListeners p quickArmed fullArmed)
  /\ focusLoads b = if quickArmed then 0%nat else 1%nat.

(** A page with both search fields. *)
Definition fullPage : Page := mkPage true true.

(** Run from any heap that extends [h0], [m] leaves every object of [h0]
    as it is, and what it returns satisfies [Q]. *)
Definition keeps {A} (h0 : gmap Heap.loc Heap.object) (m : Heap.St A) (Q : A -> Prop)
  : Prop :=
  forall h, h0 ⊆ h -> h0 ⊆ (m h).2 /\ forall a, (m h).1 = Normal a -> Q a.

(** What a reference refers to in a heap. *)
Definition holdsEntry (h : gmap Heap.loc Heap.object) (l : Heap.loc) (e : IndexEntry)
  : Prop := h !! l = Some (Heap.Entry e).

Definition holdsResult (h : gmap Heap.loc Heap.object) (l : Heap.loc) (r : ScoredResult)
  : Prop := h !! l = Some (Heap.Result r).

(** The index of the scenario in a heap: the two entries and the array. *)
Definition scenarioHeap : gmap Heap.loc Heap.object :=
  <[3%positive := Heap.Array [1%positive; 2%positive]]>
    (<[2%positive := Heap.Entry settlementEntry]>
       (<[1%positive := Heap.Entry magikEntry]> ∅)).

(** ** Notions of the tokenizer *)

(** The words of [s]: its maximal runs of characters that are not white
    space, from the left; [word] is the run being read, reversed. *)
Fixpoint wordsFrom (s word : jsstring) : list jsstring :=
  match s with
  | [] => match word with [] => [] | _ :: _ => [rev word] end
  | c :: tl =>
    if isWhiteSpace c then
      match word with
      | [] => wordsFrom tl []
      | _ :: _ => rev word :: wordsFrom tl []
      end
    else wordsFrom tl (c :: word)
  end.

Definition words (s : jsstring) : list jsstring := wordsFrom s [].

(** ** Notions of the scorer *)

(** The entry a result was made from. *)
Definition entryOf (r : ScoredResult) : IndexEntry :=
  mkEntry (r_title r) (r_content r) (r_url r) (r_category r).

(** No character of [s] is a syntax character of the pattern language. *)
Definition isPlain (s : jsstring) : bool := forallb (fun c => negb (isSyntax c)) s.

(** What one term read literally adds to the score of an entry: 10 when
    the title holds it, 20 more when the title is the term, and one for
    every occurrence in the content. *)
Definition literalTermScore (titleLower contentLower term : jsstring) : Z :=
  (if includes titleLower term then if strictEq titleLower term then 30 else 10 else 0)
  + Z.of_nat (occurrences term contentLower).

Definition literalScore (terms : list jsstring) (item : IndexEntry) : Z :=
  foldr (fun term total =>
      literalTermScore (toLowerCase (title item)) (toLowerCase (content item)) term + total)
    0 terms.

(** The ranking [search] cuts its results from. *)
Definition ranking (scored : list ScoredResult) : list ScoredResult :=
  sortBy (fun a b => score b - score a) (List.filter (fun item => 0 <? score item) scored).

(** ** Calls of the loader that overlap

    A call that finds [searchIndex] empty awaits its fetch, and other
    calls can start before that fetch settles.  [inFlight] counts the
    calls that await; a fetch settles only while one does. *)

Inductive LoaderEvent : Type :=
| CallStarts                             (* [loadSearchIndex()] is called *)
| FetchSettles (net : FetchOutcome).     (* an awaited fetch settles and its call resumes *)

Record AsyncLoader : Type := mkAsync {
  loader : LoaderState;
  inFlight : nat
}.

Definition asyncStep (a : AsyncLoader) (e : LoaderEvent) : AsyncLoader :=
  match e with
  | CallStarts =>
    match Readable.loadSearchIndex_call (loader a) with
    | (Returned _, st) => mkAsync st (inFlight a)
    | (AwaitingFetch, st) => mkAsync st (S (inFlight a))
    end
  | FetchSettles net =>
    match inFlight a with
    | O => a
    | S n => mkAsync (Readable.loadSearchIndex_resume net (loader a)).2 n
    end
  end.

Definition asyncRun (evs : list LoaderEvent) : AsyncLoader :=
  foldl asyncStep (mkAsync initialLoader 0) evs.

(** Every error logged and every call that awaits has its own request,
    and a cache that is filled has one more. *)
Definition loaderInvariant (a : AsyncLoader) : Prop :=
  (errorsLogged (loader a) + inFlight a <= requests (loader a))%nat
  /\ (is_Some (searchIndex (loader a)) ->
      (errorsLogged (loader a) + inFlight a < requests (loader a))%nat).

(** ** Notions of the debounce *)

(** The page has the input field [f]. *)
Definition hasInput (p : Page) (f : Field) : bool :=
  match f with Quick => hasQuickInput p | Full => hasFullInput p end.

(** No timeout is pending, or one is and [searchTimeout] is its handle. *)
Definition atMostOnePending (b : Browser) : bool :=
  match timers b with
  | [] => true
  | [(id, _)] =>
    match searchTimeout b with
    | Some handle => (handle =? id)%nat
    | None => false
    end
  | _ :: _ :: _ => false
  end.

Definition isFullFocus (e : Event) : bool :=
  match e with Focus Full => true | _ => false end.

Definition byFullFocus (c : Cause) : bool :=
  match c with ByFocus Full => true | _ => false end.

Definition byQuery (c : Cause) : bool :=
  match c with ByQuery _ => true | _ => false end.

Definition byPreload (c : Cause) : bool :=
  match c with ByPreload => true | _ => false end.

(** An input event that schedules a search: its field is on the page and
    its trimmed value has two characters or more. *)
Definition schedules (p : Page) (e : Event) : bool :=
  match e with
  | Input f value => hasInput p f && negb (length (trim value) <? 2)%nat
  | _ => false
  end.

(** How often a debounced query has called the loader. *)
Definition queryLoads (b : Browser) : nat := length (List.filter byQuery (loaderCalls b)).

(** ** The result renderers

    The two variants have the same renderers.  The texts shown to the
    user have code units above 255; they are only copied into the markup,
    never read, and are kept here as the UTF-8 bytes of the source file. *)

(** A results container of the page: the markup last assigned to its
    [innerHTML], and whether its [classList] holds [active]. *)
Record Container : Type := mkContainer {
  innerHTML : jsstring;
  active : bool
}.

Definition newline : ascii := ascii_of_N 10.

Definition indent (n : nat) : jsstring := replicate n " "%char.

(** [name="value"] *)
Definition attribute (name value : jsstring) : jsstring :=
  name ++ lit "=" ++ [quote] ++ value ++ [quote].

Definition class (name : string) : jsstring := attribute (lit "class") (lit name).

(** The markup of [renderQuickSearchResults] for no result. *)
Definition quickPlaceholder : jsstring :=
  lit "<div " ++ class "search-result-item" ++ lit "><div " ++ class "search-result-preview"
  ++ lit ">Ничего не найдено</div></div>".

(** The markup of [renderFullSearchResults] for no result. *)
Definition fullPlaceholder : jsstring :=
  lit "<p " ++ class "search-hint" ++ lit ">Ничего не найдено. Попробуйте другой запрос.</p>".

(** The template literal of [renderQuickSearchResults]. *)
Definition quickTemplate (result : ScoredResult) (highlightedTitle highlightedPreview : jsstring)
  : jsstring :=
  [newline] ++ indent 12 ++ lit "<a " ++ attribute (lit "href") (r_url result) ++ lit " "
    ++ class "search-result-item" ++ lit ">"
  ++ [newline] ++ indent 16 ++ lit "<div " ++ class "search-result-title" ++ lit ">"
    ++ highlightedTitle ++ lit "</div>"
  ++ [newline] ++ indent 16 ++ lit "<div " ++ class "search-result-preview" ++ lit ">"
    ++ highlightedPreview ++ lit "...</div>"
  ++ [newline] ++ indent 16 ++ lit "<div " ++ class "search-result-category" ++ lit ">"
    ++ r_category result ++ lit "</div>"
  ++ [newline] ++ indent 12 ++ lit "</a>"
  ++ [newline] ++ indent 8.

(** The callback of [results.map] in [renderQuickSearchResults]. *)
Definition quickItem (query : jsstring) (result : ScoredResult) : completion jsstring :=
  highlightedTitle ← Readable.highlightText (r_title result) query;
  highlightedPreview ← Readable.highlightText (take 150 (r_content result)) query;
  Normal (quickTemplate result highlightedTitle highlightedPreview).

(** [renderQuickSearchResults(results, query)] on the container
    [#search-results], [None] when the page has none. *)
Definition renderQuickSearchResults (container : option Container)
    (results : list ScoredResult) (query : jsstring) : completion (option Container) :=
  match container with
  | None => Normal None
  | Some _ =>
    match results with
    | [] => Normal (Some (mkContainer quickPlaceholder true))
    | _ :: _ =>
      items ← mapArray (quickItem query) results;
      Normal (Some (mkContainer (concat items) true))
    end
  end.

(** The template literal of [renderFullSearchResults]. *)
Definition fullTemplate (result : ScoredResult) (highlightedTitle highlightedPreview : jsstring)
  : jsstring :=
  [newline] ++ indent 12 ++ lit "<div " ++ class "search-result-card" ++ lit ">"
  ++ [newline] ++ indent 16 ++ lit "<h3><a " ++ attribute (lit "href") (r_url result)
    ++ lit ">" ++ highlightedTitle ++ lit "</a></h3>"
  ++ [newline] ++ indent 16 ++ lit "<div " ++ class "search-result-meta"
    ++ lit ">Категория: " ++ r_category result ++ lit "</div>"
  ++ [newline] ++ indent 16 ++ lit "<div " ++ class "search-result-preview" ++ lit ">"
    ++ highlightedPreview ++ lit "...</div>"
  ++ [newline] ++ indent 12 ++ lit "</div>"
  ++ [newline] ++ indent 8.

(** The callback of [results.map] in [renderFullSearchResults]. *)
Definition fullItem (query : jsstring) (result : ScoredResult) : completion jsstring :=
  highlightedTitle ← Readable.highlightText (r_title result) query;
  highlightedPreview ← Readable.highlightText (take 300 (r_content result)) query;
  Normal (fullTemplate result highlightedTitle highlightedPreview).

(** [renderFullSearchResults(results, query)] on the container
    [#search-results-container]. *)
Definition renderFullSearchResults (container : option Container)
    (results : list ScoredResult) (query : jsstring) : completion (option Container) :=
  match container with
  | None => Normal None
  | Some c =>
    match results with
    | [] => Normal (Some (mkContainer fullPlaceholder (active c)))
    | _ :: _ =>
      items ← mapArray (fullItem query) results;
      Normal (Some (mkContainer (concat items) (active c)))
    end
  end.

(** The task of the timeout of the quick field, from where
    [await loadSearchIndex()] has resumed: [search(query, 5)] over the
    module variable, then the renderer. *)
Definition quickSearchTask (searchIndex : option (list IndexEntry)) (query : jsstring)
    (container : option Container) : completion (option Container) :=
  results ← Readable.search searchIndex query (Some 5);
  renderQuickSearchResults container results query.

(** The same for the full field: [search(query, 20)]. *)
Definition fullSearchTask (searchIndex : option (list IndexEntry)) (query : jsstring)
    (container : option Container) : completion (option Container) :=
  results ← Readable.search searchIndex query (Some 20);
  renderFullSearchResults container results query.

(** ** The page as a whole

    The event loop with the loader and the result containers.  A call of
    the loader that awaits its fetch is kept with what runs when it
    resumes, and a fetch settles in a task of its own.  The keydown
    listener reads the rendered elements and sets the location; neither
    is tracked, and a run goes on where a new location would end the
    page. *)

Record Containers : Type := mkContainers {
  quickResults : option Container;      (* #search-results *)
  fullResults : option Container        (* #search-results-container *)
}.

(** What runs when an awaited call of the loader resumes. *)
Inductive Continuation : Type :=
| JustLoad                                     (* the preload, a focus listener *)
| ThenSearch (f : Field) (query : jsstring).   (* the task of a timeout *)

Record Ui : Type := mkUi {
  browser : Browser;
  loaderState : LoaderState;
  awaiting : list Continuation;
  containers : Containers
}.

Inductive UiEvent : Type :=
| UFocus (f : Field)
| UInput (f : Field) (value : jsstring)
| UClick (outside : bool)     (* the target is neither in #search-results nor the quick input *)
| UKeydown (f : Field)
| UTimeout (id : nat)
| USettle (k : nat) (net : FetchOutcome).   (* the fetch of the [k]-th awaiting call settles *)

Definition eventOf (e : UiEvent) : option Event :=
  match e with
  | UFocus f => Some (Focus f)
  | UInput f value => Some (Input f value)
  | UClick _ => Some Click
  | UKeydown f => Some (Keydown f)
  | UTimeout id => Some (Timeout id)
  | USettle _ _ => None
  end.

(** [container.classList.remove('active')] *)
Definition removeActive (container : option Container) : option Container :=
  (fun c => mkContainer (innerHTML c) false) <$> container.

(** The markup the full field shows for a short query. *)
Definition startTyping : jsstring :=
  lit "<p " ++ class "search-hint"
  ++ lit ">Начните вводить запрос для поиска по статьям</p>".

Definition showStartTyping (container : option Container) : option Container :=
  (fun c => mkContainer startTyping (active c)) <$> container.

(** What [search] does with a query that has a term outside the fragment
    of the pattern language modelled here: it returns some results, or it
    throws ([None]).  Which of the two, and which results, is not settled
    here; a run of the page is read for every way of settling it. *)
Definition Beyond : Type :=
  option (list IndexEntry) -> jsstring -> Z -> option (list ScoredResult).

(** One way of settling it: outside the fragment [search] throws. *)
Definition throwsBeyond : Beyond := fun _ _ _ => None.

Section Runs.

Variable beyond : Beyond.

(** [search(query, limit)] as a task of the page sees it: the results, or
    [None] when it throws. *)
Definition searchOutcome (searchIndex : option (list IndexEntry)) (query : jsstring)
    (limit : Z) : option (list ScoredResult) :=
  match Readable.search searchIndex query (Some limit) with
  | Normal results => Some results
  | ThrowSyntaxError => None
  | Unmodelled => beyond searchIndex query limit
  end.

(** The task of a timeout from where [await loadSearchIndex()] has
    resumed.  When [search] throws, the promise of the task is rejected
    and nothing has been assigned.  The renderers return on all results,
    so that only [search] can make the task fail. *)
Definition searchTask (f : Field) (query : jsstring) (u : Ui) : Ui :=
  match f with
  | Quick =>
    match searchOutcome (searchIndex (loaderState u)) query 5 with
    | Some results =>
      match renderQuickSearchResults (quickResults (containers u)) results query with
      | Normal c =>
        mkUi (browser u) (loaderState u) (awaiting u)
          (mkContainers c (fullResults (containers u)))
      | _ => u
      end
    | None => u
    end
  | Full =>
    match searchOutcome (searchIndex (loaderState u)) query 20 with
    | Some results =>
      match renderFullSearchResults (fullResults (containers u)) results query with
      | Normal c =>
        mkUi (browser u) (loaderState u) (awaiting u)
          (mkContainers (quickResults (containers u)) c)
      | _ => u
      end
    | None => u
    end
  end.

Definition resume (c : Continuation) (u : Ui) : Ui :=
  match c with
  | JustLoad => u
  | ThenSearch f query => searchTask f query u
  end.

(** A call of [loadSearchIndex]: with the index cached its caller goes on
    before any other event, else the call awaits. *)
Definition startLoad (c : Continuation) (u : Ui) : Ui :=
  match Readable.loadSearchIndex_call (loaderState u) with
  | (Returned _, st) => resume c (mkUi (browser u) st (awaiting u) (containers u))
  | (AwaitingFetch, st) => mkUi (browser u) st (awaiting u ++ [c]) (containers u)
  end.

(** What a listener does besides what [runHandler] does to the timers. *)
Definition uiHandler (h : Handler) (e : UiEvent) (u : Ui) : Ui :=
  match h, e with
  | OnFocus _, _ => startLoad JustLoad u
  | OnInput f, UInput _ value =>
    if (length (trim value) <? 2)%nat then
      match f with
      | Quick =>
        mkUi (browser u) (loaderState u) (awaiting u)
          (mkContainers (removeActive (quickResults (containers u))) (fullResults (containers u)))
      | Full =>
        mkUi (browser u) (loaderState u) (awaiting u)
          (mkContainers (quickResults (containers u))
             (showStartTyping (fullResults (containers u))))
      end
    else u
  | OnClickOutside, UClick outside =>
    if outside then
      mkUi (browser u) (loaderState u) (awaiting u)
        (mkContainers (removeActive (quickResults (containers u))) (fullResults (containers u)))
    else u
  | _, _ => u
  end.

(** One step of the event loop: the listeners and the timers change as
    in [step]. *)
Definition uiStep (u : Ui) (e : UiEvent) : Ui :=
  match e with
  | USettle k net =>
    match awaiting u !! k with
    | None => u
    | Some c =>
      resume c
        (mkUi (browser u) (Readable.loadSearchIndex_resume net (loaderState u)).2
           (delete k (awaiting u)) (containers u))
    end
  | UTimeout id =>
    let u' := mkUi (step (browser u) (Timeout id)) (loaderState u) (awaiting u) (containers u) in
    match List.find (fun t => (fst t =? id)%nat) (timers (browser u)) with
    | Some (_, (f, query)) => startLoad (ThenSearch f query) u'
    | None => u'
    end
  | UFocus _ | UInput _ _ | UClick _ | UKeydown _ =>
    match eventOf e with
    | Some ev =>
      foldl (fun u l => uiHandler (handler l) e u)
        (mkUi (step (browser u) ev) (loaderState u) (awaiting u) (containers u))
        (List.filter (listensTo ev) (listeners (browser u)))
    | None => u
    end
  end.

End Runs.

(** The page after DOMContentLoaded: the readable module has called the
    loader, which finds no index and awaits its fetch; the minified one
    has not. *)
Definition readablePage (p : Page) (d : Containers) : Ui :=
  mkUi (Readable.onDOMContentLoaded p initialBrowser)
    (Readable.loadSearchIndex_call initialLoader).2 [JustLoad] d.

Definition minifiedPage (p : Page) (d : Containers) : Ui :=
  mkUi (Minified.onDOMContentLoaded p initialBrowser) initialLoader [] d.

(** The container is on the page and is active. *)
Definition shown (container : option Container) : bool :=
  match container with
  | Some c => active c
  | None => false
  end.

(** The quick results are shown. *)
Definition quickShown (u : Ui) : bool := shown (quickResults (containers u)).

(** [d'] has the containers [d] has, and its full one is as active. *)
Definition sameContainers (d d' : Containers) : Prop :=
  (is_Some (quickResults d') <-> is_Some (quickResults d))
  /\ (is_Some (fullResults d') <-> is_Some (fullResults d))
  /\ active <$> fullResults d' = active <$> fullResults d.

(** The quick results are shown only after a debounced query of the quick
    field has called the loader; so it is for the queries that await. *)
Definition shownBySearch (u : Ui) : Prop :=
  (quickShown u = true -> In (ByQuery Quick) (loaderCalls (browser u)))
  /\ (forall query, In (ThenSearch Quick query) (awaiting u) ->
      In (ByQuery Quick) (loaderCalls (browser u))).

(** What the cache holds once a fetch has settled on an empty cache. *)
Definition cacheOf (net : FetchOutcome) : option (list IndexEntry) :=
  match net with Parsed index => Some index | _ => None end.

(** * Properties *)

(** ** The runtime model *)

Section RuntimeModel.

Local Open Scope nat_scope.

Lemma parseQuantifier_length s min max greedy tl :
  parseQuantifier s = Some (min, max, greedy, tl) -> length tl < length s.
Proof.
  destruct s as [|c s]; [discriminate|]. cbn [parseQuantifier].
  destruct (quantifierOf c) as [[mn mx]|]; [|discriminate].
  destruct s as [|c' s].
  - intros [= _ _ _ <-]. cbn. lia.
  - destruct (Ascii.eqb c' "?"); intros [= _ _ _ <-]; cbn; lia.
Qed.

Lemma quantify_length atom s : length (quantify atom s).2 <= length s.
Proof.
  unfold quantify. destruct (parseQuantifier s) as [[[[min max] greedy] tl]|] eqn:H; [|reflexivity].
  apply parseQuantifier_length in H. cbn. lia.
Qed.

Lemma openerOf_length s :
  match openerOf s with
  | Capturing body | NonCapturing body => length body <= length s
  | _ => True
  end.
Proof.
  destruct s as [|c1 tl]; [exact (le_n _)|]. cbn [openerOf].
  destruct (negb (Ascii.eqb c1 "?")); [exact (le_n _)|].
  destruct tl as [|c2 body]; [exact I|].
  destruct (Ascii.eqb c2 ":"); [cbn; lia|].
  destruct (existsb _ _); exact I.
Qed.

(** The fuel of [parseDisjunction] is never used up: above the length of
    the pattern the result does not depend on it; and the rest it returns
    is no longer than the pattern. *)
Lemma parseDisjunction_fuel : forall fuel1 fuel2 n acc s,
  length s < fuel1 -> length s < fuel2 ->
  parseDisjunction fuel1 n acc s = parseDisjunction fuel2 n acc s
  /\ forall r n' rest,
       parseDisjunction fuel1 n acc s = Normal (r, n', rest) -> length rest <= length s.
Proof.
  induction fuel1 as [|fuel1 IH]; intros fuel2 n acc s H1 H2; [lia|].
  destruct fuel2 as [|fuel2]; [lia|].
  destruct s as [|c tl]; [split; [reflexivity|intros r n' rest [= _ _ <-]; reflexivity]|].
  cbn [length] in H1, H2.
  assert (Hterm : forall atom n tl', length tl' <= length tl ->
    parseDisjunction fuel1 n (RSeq acc (quantify atom tl').1) (quantify atom tl').2
    = parseDisjunction fuel2 n (RSeq acc (quantify atom tl').1) (quantify atom tl').2
    /\ forall r n' rest,
         parseDisjunction fuel1 n (RSeq acc (quantify atom tl').1) (quantify atom tl').2
           = Normal (r, n', rest) -> length rest <= length (c :: tl)).
  { intros atom n0 tl' Hle. pose proof (quantify_length atom tl') as Hq.
    destruct (IH fuel2 n0 (RSeq acc (quantify atom tl').1) (quantify atom tl').2) as [He Hr];
      [lia|lia|].
    split; [exact He|]. intros r n' rest Hp. apply Hr in Hp. cbn [length]. lia. }
  assert (Hgroup : forall index n body, length body <= length tl ->
    ('(r, n', rest) ← parseDisjunction fuel1 n REmpty body;
     match rest with
     | [] => ThrowSyntaxError
     | c :: rest' =>
       if Ascii.eqb c ")"
       then parseDisjunction fuel1 n' (RSeq acc (quantify (RGroup index r) rest').1)
              (quantify (RGroup index r) rest').2
       else ThrowSyntaxError
     end)
    = ('(r, n', rest) ← parseDisjunction fuel2 n REmpty body;
     match rest with
     | [] => ThrowSyntaxError
     | c :: rest' =>
       if Ascii.eqb c ")"
       then parseDisjunction fuel2 n' (RSeq acc (quantify (RGroup index r) rest').1)
              (quantify (RGroup index r) rest').2
       else ThrowSyntaxError
     end)
    /\ forall r0 n0 rest0,
       ('(r, n', rest) ← parseDisjunction fuel1 n REmpty body;
        match rest with
        | [] => ThrowSyntaxError
        | c :: rest' =>
          if Ascii.eqb c ")"
          then parseDisjunction fuel1 n' (RSeq acc (quantify (RGroup index r) rest').1)
                 (quantify (RGroup index r) rest').2
          else ThrowSyntaxError
        end) = Normal (r0, n0, rest0) -> length rest0 <= length (c :: tl)).
  { intros index n0 body Hle.
    destruct (IH fuel2 n0 REmpty body) as [He Hr]; [lia|lia|].
    rewrite <- He.
    destruct (parseDisjunction fuel1 n0 REmpty body) as [[[r n'] rest]| |];
      cbn [mbind completion_bind]; [|split; [reflexivity|discriminate]..].
    specialize (Hr r n' rest eq_refl).
    destruct rest as [|c' rest']; [split; [reflexivity|discriminate]|].
    destruct (Ascii.eqb c' ")"); [|split; [reflexivity|discriminate]].
    cbn [length] in Hr. apply Hterm. lia. }
  cbn [parseDisjunction].
  destruct (tokenOf c).
  - split; [reflexivity|]. intros r n' rest [= _ _ <-]. reflexivity.
  - destruct (IH fuel2 n REmpty tl) as [He Hr]; [lia|lia|]. rewrite <- He.
    destruct (parseDisjunction fuel1 n REmpty tl) as [[[r n'] rest]| |];
      cbn [mbind completion_bind]; [|split; [reflexivity|discriminate]..].
    split; [reflexivity|]. intros r0 n0 rest0 [= _ _ <-].
    specialize (Hr r n' rest eq_refl). cbn [length]. lia.
  - split; [reflexivity|discriminate].
  - split; [reflexivity|discriminate].
  - destruct (IH fuel2 n (RSeq acc RBol) tl) as [He Hr]; [lia|lia|].
    split; [exact He|]. intros r n' rest Hp. apply Hr in Hp. cbn [length]. lia.
  - destruct (IH fuel2 n (RSeq acc REol) tl) as [He Hr]; [lia|lia|].
    split; [exact He|]. intros r n' rest Hp. apply Hr in Hp. cbn [length]. lia.
  - apply Hterm. lia.
  - destruct tl as [|e tl']; [split; [reflexivity|discriminate]|].
    destruct (parseAtomEscape e) as [a| |]; cbn [mbind completion_bind];
      [|split; [reflexivity|discriminate]..].
    apply Hterm. cbn [length]. lia.
  - pose proof (openerOf_length tl) as Hopen.
    destruct (openerOf tl) as [body|body| |].
    + apply Hgroup, Hopen.
    + apply Hgroup, Hopen.
    + split; [reflexivity|discriminate].
    + split; [reflexivity|discriminate].
  - apply Hterm. lia.
Qed.

Lemma RegExp_new_fuel source ic fuel :
  length source < fuel ->
  RegExp_new source ic =
  '(r, n, rest) ← parseDisjunction fuel 0 REmpty source;
  match rest with
  | [] => Normal (mkRegExp r n ic)
  | _ => ThrowSyntaxError
  end.
Proof.
  intros H. unfold RegExp_new.
  destruct (parseDisjunction_fuel (S (length source)) fuel 0 REmpty source) as [-> _];
    [lia|exact H|reflexivity].
Qed.

Lemma after_refl x : after x x.
Proof. split; lia. Qed.

Lemma after_trans x y z : after x y -> after y z -> after x z.
Proof. unfold after. intros [] []. split; lia. Qed.

Lemma forward_charMatcher p : forward (charMatcher p).
Proof.
  intros x k k' Hk. unfold charMatcher. destruct (rest x) as [|ch tl] eqn:Hrest; [reflexivity|].
  destruct (p ch); [|reflexivity]. apply Hk. unfold after. cbn. rewrite Hrest. cbn. lia.
Qed.

Lemma forward_repeatMatcher m parens greedy :
  forward m -> forall fuel min max, forward (repeatMatcher m parens greedy fuel min max).
Proof.
  intros Hm. induction fuel as [|fuel IH]; intros min max x k k' Hk; [reflexivity|].
  cbn [repeatMatcher].
  assert (Hd : m (clearCaptures parens x)
                 (fun y => if (min =? 0) && (pos y =? pos x) then None
                           else repeatMatcher m parens greedy fuel (Nat.pred min) (Nat.pred <$> max) y k)
             = m (clearCaptures parens x)
                 (fun y => if (min =? 0) && (pos y =? pos x) then None
                           else repeatMatcher m parens greedy fuel (Nat.pred min) (Nat.pred <$> max) y k')).
  { apply Hm. intros y Hy. destruct ((min =? 0) && (pos y =? pos x)); [reflexivity|].
    apply IH. intros z Hz. apply Hk. apply (after_trans x y z); [exact Hy|exact Hz]. }
  rewrite Hd, (Hk x (after_refl x)). reflexivity.
Qed.

Lemma forward_matcher ic r : forward (matcher ic r).
Proof.
  induction r as [|c| |neg ranges| | |r1 IH1 r2 IH2|r1 IH1 r2 IH2|index r IH|r IH min max greedy];
    cbn [matcher]; try apply forward_charMatcher.
  - intros x k k' Hk. apply Hk, after_refl.
  - intros x k k' Hk. destruct (pos x =? 0); [apply Hk, after_refl|reflexivity].
  - intros x k k' Hk. destruct (rest x); [apply Hk, after_refl|reflexivity].
  - intros x k k' Hk. apply IH1. intros y Hy. apply IH2. intros z Hz.
    apply Hk, (after_trans x y z); assumption.
  - intros x k k' Hk. rewrite (IH1 x k k' Hk), (IH2 x k k' Hk). reflexivity.
  - destruct index as [i|]; [|exact IH]. intros x k k' Hk. apply IH. intros y Hy.
    apply Hk. exact Hy.
  - intros x k k' Hk. apply forward_repeatMatcher; assumption.
Qed.

(** The fuel of [repeatMatcher] is never used up: above [min] plus the
    length of the remaining input, the result does not depend on it. *)
Lemma repeatMatcher_fuel m parens greedy :
  forward m -> forall fuel1 fuel2 min max x k,
  min + length (rest x) < fuel1 -> min + length (rest x) < fuel2 ->
  repeatMatcher m parens greedy fuel1 min max x k
    = repeatMatcher m parens greedy fuel2 min max x k.
Proof.
  intros Hm. induction fuel1 as [|fuel1 IH]; intros fuel2 min max x k H1 H2; [lia|].
  destruct fuel2 as [|fuel2]; [lia|]. cbn [repeatMatcher].
  assert (Hd : m (clearCaptures parens x)
                 (fun y => if (min =? 0) && (pos y =? pos x) then None
                           else repeatMatcher m parens greedy fuel1 (Nat.pred min) (Nat.pred <$> max) y k)
             = m (clearCaptures parens x)
                 (fun y => if (min =? 0) && (pos y =? pos x) then None
                           else repeatMatcher m parens greedy fuel2 (Nat.pred min) (Nat.pred <$> max) y k)).
  { apply Hm. intros y [Hle Hlen]. cbn [clearCaptures pos rest] in *.
    destruct ((min =? 0) && (pos y =? pos x)) eqn:E; [reflexivity|].
    apply andb_false_iff in E. apply IH.
    - destruct E as [E|E]; [apply Nat.eqb_neq in E|apply Nat.eqb_neq in E]; lia.
    - destruct E as [E|E]; [apply Nat.eqb_neq in E|apply Nat.eqb_neq in E]; lia. }
  rewrite Hd. reflexivity.
Qed.

(** The regular expression literal [/\s+/] is what its source compiles
    to. *)
Example whitespaceRun_source : RegExp_new (lit "\s+") false = Normal whitespaceRun.
Proof. reflexivity. Qed.

Example termsOf_blanks : termsOf (lit "  Magik   USER ") = [lit "magik"; lit "user"].
Proof. reflexivity. Qed.

(** The no-break space U+00A0 parts terms as a blank does, and is trimmed. *)
Example termsOf_no_break_space :
  termsOf ([ascii_of_N 160] ++ lit "A" ++ [ascii_of_N 160] ++ lit "b") = [lit "a"; lit "b"]
  /\ trim (lit "a" ++ [ascii_of_N 160]) = lit "a".
Proof. split; reflexivity. Qed.

(** The letters above U+007F: U+00C9 and U+00DE have the lower case U+00E9
    and U+00FE; the signs U+00D7 and U+00F7 and the sharp s U+00DF have
    no other case. *)
Example toLowerCase_above_127 :
  toLowerCase (map ascii_of_N [201; 215; 222; 223; 247; 255]%N)
  = map ascii_of_N [233; 215; 254; 223; 247; 255]%N
  /\ map upperChar (map ascii_of_N [233; 247; 254; 223; 181; 255]%N)
     = map ascii_of_N [201; 247; 222; 223; 181; 255]%N.
Proof. split; reflexivity. Qed.

(** Under the [i] flag U+00E9 matches U+00C9. *)
Example highlightText_above_127 :
  Readable.highlightText [ascii_of_N 201] [ascii_of_N 233]
  = Normal (markOpen ++ [ascii_of_N 201] ++ markClose).
Proof. vm_compute. reflexivity. Qed.

Example split_blanks :
  split (lit " a  b ") whitespaceRun = [[]; lit "a"; lit "b"; []]
  /\ split [] whitespaceRun = [[]].
Proof. split; reflexivity. Qed.

(** A global match steps over an empty match. *)
Example matchGlobal_empty_matches :
  (rx ← RegExp_new (lit "a*") false; Normal (matchGlobal (lit "baac") rx))
    = Normal [[]; lit "aa"; []; []].
Proof. reflexivity. Qed.

(** Captures of a repeated group are those of its last iteration. *)
Example replaceAll_captures :
  (rx ← RegExp_new (lit "(z)((a+)?(b+)?(c))*") false;
   Normal (replaceAll (lit "zaacbbbcac") rx (lit "[$1|$2|$3|$4|$5|$&]")))
    = Normal (lit "[z|ac|a||c|zaacbbbcac]").
Proof. vm_compute. reflexivity. Qed.

Example escapeRegex_metacharacters :
  Readable.escapeRegex (lit "a.c (x) c++") = lit "a\.c \(x\) c\+\+".
Proof. vm_compute. reflexivity. Qed.

End RuntimeModel.

(** ** The scenario *)

(** C1: on the two-entry index of the scenario, [search("magik", 10)]
    returns exactly one result, the first entry, with score 32: 10 for
    the title containing the term, 20 for the title being the term, and 1
    for each of the two matches in the lowercased content. *)
Theorem search_magik_scenario :
  Readable.search (Some scenarioIndex) (lit "magik") (Some 10)
    = Normal [spread magikEntry 32]
  /\ includes (toLowerCase (title magikEntry)) (lit "magik") = true
  /\ strictEq (toLowerCase (title magikEntry)) (lit "magik") = true
  /\ (rx ← RegExp_new (lit "magik") false;
      Normal (length (matchGlobal (toLowerCase (content magikEntry)) rx))) = Normal 2%nat
  /\ Readable.scoreItem [lit "magik"] settlementEntry = Normal (spread settlementEntry 0).
Proof. repeat split; vm_compute; reflexivity. Qed.

(** ** Terms are used as patterns by [search] *)

(** C2: the term [a.c] does not occur in the content [abc], yet its
    content contribution there is 1 and [search] returns the entry with
    score 1: the term is compiled as a pattern.  The term [c++] is no
    pattern at all and scoring throws. *)
Theorem scoreTerm_reads_term_as_pattern :
  occurrences (lit "a.c") (toLowerCase (content abcEntry)) = 0%nat
  /\ Readable.scoreTerm (lit "x") (lit "abc") 0 (lit "a.c") = Normal 1
  /\ Readable.search (Some [abcEntry]) (lit "a.c") (Some 10) = Normal [spread abcEntry 1]
  /\ occurrences (lit "c++") (lit "c++") = 1%nat
  /\ Readable.scoreTerm (lit "x") (lit "c++") 0 (lit "c++") = ThrowSyntaxError.
Proof. repeat split; vm_compute; reflexivity. Qed.

(** C3: [search] throws a SyntaxError on the query [((] over a loaded,
    non-empty index, while [highlightText] returns on the same query. *)
Theorem search_throws_on_open_groups :
  Readable.search (Some scenarioIndex) (lit "((") (Some 10) = ThrowSyntaxError
  /\ Readable.highlightText (lit "a ((b") (lit "((")
     = Normal (lit "a " ++ markOpen ++ lit "((" ++ markClose ++ lit "b").
Proof. split; vm_compute; reflexivity. Qed.

(** ** The guard of [search] *)

Lemma trimStart_blank query : forallb isWhiteSpace query = true -> trimStart query = [].
Proof.
  induction query as [|c query IH]; [reflexivity|].
  cbn [forallb trimStart]. intros H. apply andb_prop in H as [Hc H].
  rewrite Hc. apply IH, H.
Qed.

Lemma trim_blank query : forallb isWhiteSpace query = true -> trim query = [].
Proof. intros H. unfold trim. rewrite (trimStart_blank _ H). reflexivity. Qed.

(** C6: [search] returns the empty array whenever the index is not
    loaded, or the query is empty or blank, or the trimmed query has
    fewer than two characters, whatever the index and the limit.  Blank
    and trimmed are as [String.prototype.trim] has them, the no-break
    space included. *)
Theorem search_guard (index : option (list IndexEntry)) (query : jsstring)
    (limit : option Z) :
  index = None \/ forallb isWhiteSpace query = true \/ (length (trim query) < 2)%nat ->
  Readable.search index query limit = Normal [].
Proof.
  intros Hguard. unfold Readable.search.
  destruct index as [entries|]; [|reflexivity].
  destruct query as [|c query]; [reflexivity|].
  assert (Hshort : (length (trim (c :: query)) < 2)%nat).
  { destruct Hguard as [Hnone|[Hblank|Hshort]]; [discriminate| |exact Hshort].
    rewrite (trim_blank _ Hblank). cbn. lia. }
  apply Nat.ltb_lt in Hshort. rewrite Hshort. reflexivity.
Qed.

Lemma search_guard_witness :
  Readable.search (Some scenarioIndex) (lit "  m ") (Some 10) = Normal []
  /\ Readable.search (Some scenarioIndex) (lit "   ") (Some 10) = Normal []
  /\ Readable.search None (lit "magik") None = Normal []
  /\ Readable.search (Some scenarioIndex) [ascii_of_N 160; ascii_of_N 160] (Some 10)
     = Normal []
  /\ Readable.search (Some scenarioIndex) [ascii_of_N 160; "m"%char; ascii_of_N 160] None
     = Normal [].
Proof.
  split; [|split; [|split; [|split]]].
  - apply search_guard. right. right. vm_compute. lia.
  - apply search_guard. right. left. reflexivity.
  - apply search_guard. left. reflexivity.
  - apply search_guard. right. left. reflexivity.
  - apply search_guard. right. right. vm_compute. lia.
Defined.

(** ** The two variants *)

(** C10: the readable and the minified variant have the same [search] and
    the same [highlightText]. *)
Theorem variants_agree :
  (forall index query limit,
     Minified.search index query limit = Readable.search index query limit)
  /\ (forall text query,
     Minified.highlightText text query = Readable.highlightText text query).
Proof.
  split.
  - intros index query limit. unfold Minified.search, Readable.search.
    destruct index as [entries|]; [|reflexivity].
    destruct query as [|c query]; [reflexivity|].
    destruct (length (trim (c :: query)) <? 2)%nat; [reflexivity|].
    f_equal.
  - intros text query. destruct query; reflexivity.
Qed.

(** ** The index loader *)

Lemma loadSearchIndex_cached net index n e :
  Readable.loadSearchIndex net (mkLoader (Some index) n e)
    = (index, mkLoader (Some index) n e).
Proof. reflexivity. Qed.

Lemma loadSearchIndex_failure net n e :
  failed net = true ->
  Readable.loadSearchIndex net (mkLoader None n e) = ([], mkLoader None (S n) (S e)).
Proof. destruct net; intros H; try discriminate; reflexivity. Qed.

Lemma loadSearchIndex_success index n e :
  Readable.loadSearchIndex (Parsed index) (mkLoader None n e)
    = (index, mkLoader (Some index) (S n) e).
Proof. reflexivity. Qed.

Lemma loadAll_cached nets index n e :
  loadAll nets (mkLoader (Some index) n e)
    = (replicate (length nets) index, mkLoader (Some index) n e).
Proof.
  induction nets as [|net nets IH]; [reflexivity|].
  cbn [loadAll]. rewrite loadSearchIndex_cached, IH. reflexivity.
Qed.

Lemma loadAll_failures fails n e :
  forallb failed fails = true ->
  loadAll fails (mkLoader None n e)
    = (replicate (length fails) [], mkLoader None (length fails + n) (length fails + e)).
Proof.
  revert n e. induction fails as [|net fails IH]; intros n e H; [reflexivity|].
  cbn [forallb] in H. apply andb_prop in H as [Hnet Hfails].
  cbn [loadAll]. rewrite (loadSearchIndex_failure _ _ _ Hnet), (IH _ _ Hfails).
  cbn [length replicate]. do 2 f_equal; lia.
Qed.

Lemma loadAll_app nets1 nets2 st :
  loadAll (nets1 ++ nets2) st
    = let '(rs1, st1) := loadAll nets1 st in
      let '(rs2, st2) := loadAll nets2 st1 in (rs1 ++ rs2, st2).
Proof.
  revert st. induction nets1 as [|net nets1 IH]; intros st.
  - cbn. destruct (loadAll nets2 st). reflexivity.
  - cbn [loadAll app]. destruct (Readable.loadSearchIndex net st) as [r st'].
    rewrite IH. destruct (loadAll nets1 st') as [rs1 st1].
    destruct (loadAll nets2 st1) as [rs2 st2]. reflexivity.
Qed.

(** C4, as the code has it: calls made one after the other fetch until
    the first load that succeeds.  Each failing call issues a request,
    logs the error, returns the empty array and leaves the cache empty, so
    the next call fetches again; from the first success on, every call
    returns the cached index and issues no request. *)
Theorem loader_fetches_until_first_success
    (fails later : list FetchOutcome) (index : list IndexEntry) :
  forallb failed fails = true ->
  loadAll fails initialLoader
    = (replicate (length fails) [], mkLoader None (length fails) (length fails))
  /\ loadAll (fails ++ Parsed index :: later) initialLoader
    = (replicate (length fails) [] ++ replicate (S (length later)) index,
       mkLoader (Some index) (S (length fails)) (length fails)).
Proof.
  intros Hfails. unfold initialLoader.
  pose proof (loadAll_failures fails 0 0 Hfails) as Hprefix.
  rewrite !Nat.add_0_r in Hprefix. split; [exact Hprefix|].
  rewrite loadAll_app, Hprefix. cbn [loadAll].
  rewrite loadSearchIndex_success, loadAll_cached. reflexivity.
Qed.

Lemma loader_fetches_until_first_success_witness :
  loadAll [FetchRejected; JsonRejected] initialLoader
    = ([[]; []], mkLoader None 2 2)
  /\ loadAll ([FetchRejected; JsonRejected] ++ Parsed scenarioIndex :: [FetchRejected])
       initialLoader
    = ([[]; []] ++ [scenarioIndex; scenarioIndex], mkLoader (Some scenarioIndex) 3 2).
Proof.
  apply (loader_fetches_until_first_success [FetchRejected; JsonRejected]
           [FetchRejected] scenarioIndex).
  reflexivity.
Defined.

(** C4, as stated, fails: after a first load that failed, the second call
    does not return a cached value but issues a second request. *)
Lemma loader_refetches_after_failure :
  let '(r1, st1) := Readable.loadSearchIndex FetchRejected initialLoader in
  let '(r2, st2) := Readable.loadSearchIndex (Parsed scenarioIndex) st1 in
  r1 = [] /\ searchIndex st1 = None /\ requests st1 = 1%nat
  /\ r2 = scenarioIndex /\ requests st2 = 2%nat.
Proof. cbn. repeat split; reflexivity. Qed.

(** ** The focus listener *)

Lemma focusLoads_callLoader c b :
  focusLoads (callLoader c b) = (focusLoads b + if byQuickFocus c then 1 else 0)%nat.
Proof.
  unfold focusLoads, callLoader. cbn [loaderCalls].
  rewrite List.filter_app, length_app. cbn.
  destruct (byQuickFocus c); reflexivity.
Qed.

Lemma listeners_onInput f v b : listeners (onInput f v b) = listeners b.
Proof.
  unfold onInput, clearSearchTimeout, setSearchTimeout.
  repeat (match goal with |- context [match ?x with _ => _ end] => destruct x end;
          cbn [listeners]); reflexivity.
Qed.

Lemma loaderCalls_onInput f v b : loaderCalls (onInput f v b) = loaderCalls b.
Proof.
  unfold onInput, clearSearchTimeout, setSearchTimeout.
  repeat (match goal with |- context [match ?x with _ => _ end] => destruct x end;
          cbn [loaderCalls]); reflexivity.
Qed.

Lemma focusLoads_onInput f v b : focusLoads (onInput f v b) = focusLoads b.
Proof. unfold focusLoads. rewrite loaderCalls_onInput. reflexivity. Qed.

Lemma focusInvariant_init p :
  hasQuickInput p = true ->
  focusInvariant p true (Minified.onDOMContentLoaded p initialBrowser).
Proof.
  intros Hq. split; [exists true|].
  - unfold Minified.onDOMContentLoaded, Minified.setupFullSearch, Minified.setupQuickSearch,
      minifiedListeners.
    rewrite Hq. destruct (hasFullInput p); reflexivity.
  - unfold Minified.onDOMContentLoaded, Minified.setupFullSearch, Minified.setupQuickSearch.
    rewrite Hq. destruct (hasFullInput p); reflexivity.
Qed.

(** One event: a focus of the quick field disarms its listener and, if it
    was armed, calls the loader; no other event does either. *)
Lemma focusInvariant_step p armed b e :
  hasQuickInput p = true ->
  focusInvariant p armed b ->
  focusInvariant p (armed && negb (isQuickFocus e)) (step b e)
  /\ loaderCalls (step b e) =
     loaderCalls b ++
     match e with
     | Focus Quick => if armed then [ByFocus Quick] else []
     | Focus Full =>
       if existsb (fun l => match handler l with OnFocus Full => true | _ => false end)
            (listeners b) then [ByFocus Full] else []
     | Timeout id =>
       match List.find (fun t => (fst t =? id)%nat) (timers b) with
       | Some (_, (f, _)) => [ByQuery f]
       | None => []
       end
     | _ => []
     end.
Proof.
  intros Hq [[fullArmed Hl] Hn].
  destruct e as [f|f v| |f|id].
  - (* focus *)
    unfold step, dispatch, focusInvariant. rewrite Hl. unfold minifiedListeners. rewrite Hq.
    destruct f, armed, fullArmed, (hasFullInput p); cbn;
      rewrite ?focusLoads_callLoader, ?app_nil_r; cbn; unfold focusLoads in *; cbn;
      rewrite ?Hn;
      (split; [split; [first [exists true; reflexivity | exists false; reflexivity] | ] | ]);
      cbn; rewrite ?List.filter_app, ?length_app, ?Hn; reflexivity.
  - (* input *)
    unfold step, dispatch, focusInvariant. rewrite Hl. unfold minifiedListeners. rewrite Hq.
    destruct f, armed, fullArmed, (hasFullInput p); cbn;
      rewrite ?listeners_onInput, ?loaderCalls_onInput, ?focusLoads_onInput, ?app_nil_r;
      cbn; unfold focusLoads in *; cbn; rewrite ?Hn;
      (split; [split; [first [exists true; reflexivity | exists false; reflexivity] | ] | ]);
      reflexivity.
  - (* click *)
    unfold step, dispatch, focusInvariant. rewrite Hl. unfold minifiedListeners. rewrite Hq.
    destruct armed, fullArmed, (hasFullInput p); cbn;
      rewrite ?app_nil_r; unfold focusLoads in *; cbn; rewrite ?Hn;
      (split; [split; [first [exists true; reflexivity | exists false; reflexivity] | ] | ]);
      reflexivity.
  - (* keydown *)
    unfold step, dispatch, focusInvariant. rewrite Hl. unfold minifiedListeners. rewrite Hq.
    destruct f, armed, fullArmed, (hasFullInput p); cbn;
      rewrite ?app_nil_r; unfold focusLoads in *; cbn; rewrite ?Hn;
      (split; [split; [first [exists true; reflexivity | exists false; reflexivity] | ] | ]);
      reflexivity.
  - (* timeout *)
    unfold step, focusInvariant. rewrite andb_true_r.
    destruct (List.find _ (timers b)) as [[k [f q]]|]; cbn [isQuickFocus].
    + unfold runSearchTask, callLoader, focusLoads in *. cbn [listeners loaderCalls].
      rewrite List.filter_app, length_app, Hn.
      split; [split; [exists fullArmed; exact Hl | destruct f, armed; reflexivity]|reflexivity].
    + rewrite app_nil_r. split; [split; [exists fullArmed; exact Hl|exact Hn]|reflexivity].
Qed.

Lemma run_snoc p evs e : Minified.run p (evs ++ [e]) = step (Minified.run p evs) e.
Proof. unfold Minified.run. rewrite foldl_app. reflexivity. Qed.

Lemma focusInvariant_run p evs :
  hasQuickInput p = true ->
  focusInvariant p (negb (existsb isQuickFocus evs)) (Minified.run p evs).
Proof.
  intros Hq. induction evs as [|e evs IH] using rev_ind.
  - apply focusInvariant_init, Hq.
  - rewrite run_snoc, existsb_app. cbn [existsb]. rewrite orb_false_r, negb_orb.
    apply (focusInvariant_step p _ _ e Hq IH).
Qed.

(** C9, for the minified variant: on a page with the quick-search field,
    after DOMContentLoaded and any events, the focus listener of the field
    has called the loader once if the field was focused and never
    otherwise; the call is made by the first focus. *)
Theorem quick_focus_loads_once (p : Page) (evs : list Event) :
  hasQuickInput p = true ->
  focusLoads (Minified.run p evs) = (if existsb isQuickFocus evs then 1 else 0)%nat
  /\ forall pre post, evs = pre ++ Focus Quick :: post ->
       existsb isQuickFocus pre = false ->
       loaderCalls (Minified.run p (pre ++ [Focus Quick]))
         = loaderCalls (Minified.run p pre) ++ [ByFocus Quick].
Proof.
  intros Hq. split.
  - destruct (focusInvariant_run p evs Hq) as [_ Hn]. rewrite Hn.
    destruct (existsb isQuickFocus evs); reflexivity.
  - intros pre post _ Hpre. rewrite run_snoc.
    pose proof (focusInvariant_run p pre Hq) as Hinv. rewrite Hpre in Hinv.
    destruct (focusInvariant_step p _ _ (Focus Quick) Hq Hinv) as [_ Hcalls].
    exact Hcalls.
Qed.

Lemma quick_focus_loads_once_witness :
  focusLoads (Minified.run fullPage
      [Input Quick (lit "ma"); Focus Quick; Timeout 1; Focus Quick]) = 1%nat
  /\ loaderCalls (Minified.run fullPage ([Input Quick (lit "ma")] ++ [Focus Quick]))
     = loaderCalls (Minified.run fullPage [Input Quick (lit "ma")]) ++ [ByFocus Quick].
Proof.
  destruct (quick_focus_loads_once fullPage
              [Input Quick (lit "ma"); Focus Quick; Timeout 1; Focus Quick] eq_refl)
    as [Hcount Hfirst].
  split; [exact Hcount|].
  apply (Hfirst [Input Quick (lit "ma")] [Timeout 1; Focus Quick]); reflexivity.
Defined.

(** C9, as stated, fails for the readable variant: it has no focus
    listener; the loader is called once, by the DOMContentLoaded handler,
    and a focus of the quick field calls nothing. *)
Lemma readable_focus_loads_nothing :
  loaderCalls (Readable.run fullPage []) = [ByPreload]
  /\ loaderCalls (Readable.run fullPage [Focus Quick]) = [ByPreload]
  /\ focusLoads (Readable.run fullPage [Focus Quick; Focus Quick]) = 0%nat.
Proof. repeat split; reflexivity. Qed.

(** ** The results of [search] *)

Section Sorting.

Context {A : Type} (key : A -> Z).

Lemma insertBy_Permutation x l :
  insertBy (fun a b => key b - key a) x l ≡ₚ x :: l.
Proof.
  induction l as [|y l IH]; [reflexivity|].
  cbn [insertBy]. destruct (key y - key x <=? 0); [reflexivity|].
  rewrite IH. apply Permutation_swap.
Qed.

Lemma sortBy_Permutation l : sortBy (fun a b => key b - key a) l ≡ₚ l.
Proof.
  induction l as [|x l IH]; [reflexivity|].
  cbn [sortBy foldr]. fold (sortBy (fun a b => key b - key a) l).
  rewrite insertBy_Permutation, IH. reflexivity.
Qed.

Lemma insertBy_sorted x l :
  StronglySorted (fun a b => key b <= key a) l ->
  StronglySorted (fun a b => key b <= key a) (insertBy (fun a b => key b - key a) x l).
Proof.
  induction l as [|y l IH]; intros Hs.
  - repeat constructor.
  - cbn [insertBy]. apply StronglySorted_inv in Hs as [Hl Hy].
    destruct (key y - key x <=? 0) eqn:Hc.
    + apply Z.leb_le in Hc. constructor; [constructor; assumption|].
      constructor; [lia|].
      eapply Forall_impl; [exact Hy|]. intros z Hz. cbn in *. lia.
    + apply Z.leb_gt in Hc. constructor; [apply IH, Hl|].
      rewrite insertBy_Permutation. constructor; [lia|exact Hy].
Qed.

Lemma sortBy_sorted l :
  StronglySorted (fun a b => key b <= key a) (sortBy (fun a b => key b - key a) l).
Proof.
  induction l as [|x l IH]; [constructor|].
  cbn [sortBy foldr]. apply insertBy_sorted, IH.
Qed.

End Sorting.

Lemma slice0_take {A} (l : list A) limit : exists n, slice0 l limit = take n l.
Proof. unfold slice0. eexists. reflexivity. Qed.

Lemma slice0_length {A} (l : list A) limit :
  0 <= limit -> Z.of_nat (length (slice0 l limit)) <= limit.
Proof.
  intros H. unfold slice0. rewrite length_take.
  destruct (limit <? 0) eqn:E; [apply Z.ltb_lt in E; lia|]. lia.
Qed.

Lemma StronglySorted_take {A} (R : relation A) n l :
  StronglySorted R l -> StronglySorted R (take n l).
Proof.
  intros H. rewrite <- (take_drop n l) in H.
  apply StronglySorted_app in H. tauto.
Qed.

Lemma forEach_Normal {A S} (f : S -> A -> completion S) (l : list A) (s : S) :
  (forall s a, In a l -> exists s', f s a = Normal s') ->
  exists s', forEach f l s = Normal s'.
Proof.
  revert s. induction l as [|a l IH]; intros s Hf; [eexists; reflexivity|].
  cbn [forEach]. destruct (Hf s a (or_introl eq_refl)) as [s' ->].
  apply IH. intros s0 a0 Hin. apply Hf. right. exact Hin.
Qed.

Lemma mapArray_Normal {A B} (f : A -> completion B) (l : list A) :
  (forall a, exists b, f a = Normal b) -> exists bs, mapArray f l = Normal bs.
Proof.
  intros Hf. induction l as [|a l [bs IH]]; [eexists; reflexivity|].
  cbn [mapArray]. destruct (Hf a) as [b ->]. cbn. rewrite IH. eexists. reflexivity.
Qed.

(** C7: for a loaded index and a limit that is not negative, what
    [search] returns has only results of positive score, in descending
    score order, and at most [limit] of them; and [search] does return
    whenever every term of the query compiles as a pattern. *)
Theorem search_postcondition (index : list IndexEntry) (query : jsstring)
    (limit : option Z) :
  0 <= default 10 limit ->
  (forall results,
     Readable.search (Some index) query limit = Normal results ->
     Forall (fun r => 0 < score r) results
     /\ descending results
     /\ Z.of_nat (length results) <= default 10 limit)
  /\ ((forall term, In term (termsOf query) ->
         exists rx, RegExp_new term false = Normal rx) ->
      exists results, Readable.search (Some index) query limit = Normal results).
Proof.
  intros Hlimit. unfold Readable.search. fold (termsOf query). split.
  - intros results Hsearch.
    assert (Hpost : forall l : list ScoredResult,
      let rs := slice0 (sortBy (fun a b => score b - score a)
                  (List.filter (fun item => 0 <? score item) l)) (default 10 limit) in
      Forall (fun r => 0 < score r) rs /\ descending rs
      /\ Z.of_nat (length rs) <= default 10 limit).
    { intros l rs. subst rs. split; [|split].
      - destruct (slice0_take (sortBy (fun a b => score b - score a)
            (List.filter (fun item => 0 <? score item) l)) (default 10 limit)) as [n ->].
        apply Forall_take. rewrite (sortBy_Permutation score).
        apply List.Forall_forall. intros r Hr. apply List.filter_In in Hr as [_ Hr].
        apply Z.ltb_lt, Hr.
      - destruct (slice0_take (sortBy (fun a b => score b - score a)
            (List.filter (fun item => 0 <? score item) l)) (default 10 limit)) as [n ->].
        apply StronglySorted_take, (sortBy_sorted score).
      - apply slice0_length, Hlimit. }
    destruct query as [|c query].
    + injection Hsearch as <-. repeat constructor. exact Hlimit.
    + destruct (length (trim (c :: query)) <? 2)%nat.
      * injection Hsearch as <-. repeat constructor. exact Hlimit.
      * destruct (mapArray _ index) as [scored| |]; try discriminate.
        injection Hsearch as <-. apply Hpost.
  - intros Hterms. destruct query as [|c query]; [eexists; reflexivity|].
    destruct (length (trim (c :: query)) <? 2)%nat; [eexists; reflexivity|].
    destruct (mapArray_Normal (Readable.scoreItem (termsOf (c :: query))) index) as [bs Hbs].
    { intros item. unfold Readable.scoreItem.
      destruct (forEach_Normal
                  (Readable.scoreTerm (toLowerCase (title item)) (toLowerCase (content item)))
                  (termsOf (c :: query)) 0) as [sc Hsc].
      - intros sc term Hin. unfold Readable.scoreTerm.
        destruct (Hterms term Hin) as [rx ->]. eexists. reflexivity.
      - rewrite Hsc. eexists. reflexivity. }
    rewrite Hbs. eexists. reflexivity.
Qed.

Lemma search_postcondition_witness :
  (forall results,
     Readable.search (Some scenarioIndex) (lit "t e") (Some 1) = Normal results ->
     Forall (fun r => 0 < score r) results
     /\ descending results
     /\ Z.of_nat (length results) <= 1)
  /\ ((forall term, In term (termsOf (lit "t e")) ->
         exists rx, RegExp_new term false = Normal rx) ->
      exists results,
        Readable.search (Some scenarioIndex) (lit "t e") (Some 1) = Normal results).
Proof. apply (search_postcondition scenarioIndex (lit "t e") (Some 1)). cbn. lia. Defined.

(** ** [search] and the heap *)

Section HeapFrame.

Import Heap.

Lemma keeps_weaken {A} h0 (m : St A) (Q Q' : A -> Prop) :
  keeps h0 m Q -> (forall a, Q a -> Q' a) -> keeps h0 m Q'.
Proof. intros Hm HQ h Hh. destruct (Hm h Hh) as [Hsub Hret]. split; auto. Qed.

Lemma keeps_ret {A} h0 (a : A) (Q : A -> Prop) : Q a -> keeps h0 (mret a) Q.
Proof. intros HQ h Hh. split; [exact Hh|]. intros a' [= <-]. exact HQ. Qed.

Lemma keeps_bind {A B} h0 (m : St A) (f : A -> St B) (Q : A -> Prop) (R : B -> Prop) :
  keeps h0 m Q -> (forall a, Q a -> keeps h0 (f a) R) -> keeps h0 (m ≫= f) R.
Proof.
  intros Hm Hf h Hh. destruct (Hm h Hh) as [Hsub Hret].
  unfold mbind, St_bind. destruct (m h) as [[a| |] h']; cbn in *.
  - apply (Hf a (Hret a eq_refl) h' Hsub).
  - split; [exact Hsub|discriminate].
  - split; [exact Hsub|discriminate].
Qed.

Lemma keeps_lift {A} h0 (c : completion A) : keeps h0 (lift c) (fun _ => True).
Proof. intros h Hh. split; [exact Hh|trivial]. Qed.

Lemma keeps_alloc h0 o : keeps h0 (alloc o) (fun l => h0 !! l = None).
Proof.
  intros h Hh. unfold alloc. cbn.
  assert (Hfresh : h !! fresh (dom h) = None) by apply not_elem_of_dom, is_fresh.
  assert (H0 : h0 !! fresh (dom h) = None).
  { destruct (h0 !! fresh (dom h)) eqn:E; [|reflexivity].
    eapply lookup_weaken in E; [|exact Hh]. congruence. }
  split; [apply insert_subseteq_r; assumption|]. intros a [= <-]. exact H0.
Qed.

Lemma keeps_readArray h0 l : keeps h0 (readArray l) (fun _ => True).
Proof.
  intros h Hh. unfold readArray. destruct (h !! l) as [[]|]; cbn; split; trivial.
Qed.

Lemma keeps_readEntry h0 l : keeps h0 (readEntry l) (fun _ => True).
Proof.
  intros h Hh. unfold readEntry. destruct (h !! l) as [[]|]; cbn; split; trivial.
Qed.

Lemma keeps_readResult h0 l : keeps h0 (readResult l) (fun _ => True).
Proof.
  intros h Hh. unfold readResult. destruct (h !! l) as [[]|]; cbn; split; trivial.
Qed.

(** A write keeps [h0] when it goes to an object that is not in [h0]. *)
Lemma keeps_writeArray h0 l elements :
  h0 !! l = None -> keeps h0 (writeArray l elements) (fun _ => True).
Proof.
  intros Hl h Hh. unfold writeArray. cbn. split; [|trivial].
  apply insert_subseteq_r; assumption.
Qed.

Lemma keeps_mapSt {A B} h0 (f : A -> St B) (l : list A) :
  (forall a, keeps h0 (f a) (fun _ => True)) -> keeps h0 (mapSt f l) (fun _ => True).
Proof.
  intros Hf. induction l as [|a l IH]; cbn [mapSt].
  - apply keeps_ret. trivial.
  - eapply keeps_bind; [apply Hf|]. intros b _.
    eapply keeps_bind; [apply IH|]. intros bs _. apply keeps_ret. trivial.
Qed.

Lemma keeps_arrayMap h0 f array :
  (forall l, keeps h0 (f l) (fun _ => True)) ->
  keeps h0 (arrayMap f array) (fun l => h0 !! l = None).
Proof.
  intros Hf. unfold arrayMap.
  eapply keeps_bind; [apply keeps_readArray|]. intros elements _.
  eapply keeps_bind; [apply keeps_mapSt, Hf|]. intros mapped _. apply keeps_alloc.
Qed.

Lemma keeps_arrayFilter h0 f array :
  (forall l, keeps h0 (f l) (fun _ => True)) ->
  keeps h0 (arrayFilter f array) (fun l => h0 !! l = None).
Proof.
  intros Hf. unfold arrayFilter.
  eapply keeps_bind; [apply keeps_readArray|]. intros elements _.
  eapply keeps_bind; [apply keeps_mapSt, Hf|]. intros flags _. apply keeps_alloc.
Qed.

(** The sort writes its array: it keeps [h0] when the array is not of
    [h0]. *)
Lemma keeps_arraySortByScore h0 array :
  h0 !! array = None ->
  keeps h0 (arraySortByScore array) (fun l => h0 !! l = None).
Proof.
  intros Hfresh. unfold arraySortByScore.
  eapply keeps_bind; [apply keeps_readArray|]. intros elements _.
  eapply keeps_bind; [apply keeps_mapSt, keeps_readResult|]. intros results _.
  eapply keeps_bind; [apply keeps_writeArray, Hfresh|]. intros _ _.
  apply keeps_ret, Hfresh.
Qed.

Lemma keeps_arraySlice0 h0 limit array :
  keeps h0 (arraySlice0 limit array) (fun l => h0 !! l = None).
Proof.
  unfold arraySlice0.
  eapply keeps_bind; [apply keeps_readArray|]. intros elements _. apply keeps_alloc.
Qed.

Lemma keeps_search h0 searchIndex query limit :
  keeps h0 (search searchIndex query limit) (fun l => h0 !! l = None).
Proof.
  unfold search. destruct searchIndex as [index|]; [|apply keeps_alloc].
  destruct query as [|c query]; [apply keeps_alloc|].
  destruct (length (trim (c :: query)) <? 2)%nat; [apply keeps_alloc|].
  eapply keeps_bind.
  { apply keeps_arrayMap. intros item.
    eapply keeps_bind; [apply keeps_readEntry|]. intros e _.
    eapply keeps_bind; [apply keeps_lift|]. intros r _.
    eapply keeps_weaken; [apply keeps_alloc|trivial]. }
  intros scored _. eapply keeps_bind.
  { apply keeps_arrayFilter. intros item.
    eapply keeps_bind; [apply keeps_readResult|]. intros r _. apply keeps_ret. trivial. }
  intros kept Hkept. eapply keeps_bind; [apply keeps_arraySortByScore, Hkept|].
  intros sorted _. apply keeps_arraySlice0.
Qed.

Lemma searches_extends h0 searchIndex calls h :
  h0 ⊆ h -> h0 ⊆ searches searchIndex calls h.
Proof.
  revert h. induction calls as [|[query limit] calls IH]; intros h Hh; [exact Hh|].
  cbn [searches]. apply IH. apply (keeps_search h0 searchIndex query limit h Hh).
Qed.

Lemma entriesAt_weaken h h' array entries :
  h ⊆ h' -> entriesAt h array = Some entries -> entriesAt h' array = Some entries.
Proof.
  intros Hsub. unfold entriesAt.
  destruct (h !! array) as [[e|r|elements]|] eqn:Harr; try discriminate.
  rewrite (lookup_weaken _ _ _ _ Harr Hsub). clear Harr.
  revert entries. induction elements as [|l elements IH]; intros entries; [trivial|].
  cbn. destruct (h !! l) as [[e|r|els]|] eqn:Hl; try discriminate.
  rewrite (lookup_weaken _ _ _ _ Hl Hsub). cbn.
  destruct (mapM _ elements) as [es|] eqn:Hes; [|discriminate].
  rewrite (IH es eq_refl). trivial.
Qed.

End HeapFrame.

(** *** The heap run computes what [search] computes *)

Section HeapRefines.

Import Heap.

Lemma St_bind_Normal {A B} (m : St A) (f : A -> St B) h a h' :
  m h = (Normal a, h') -> (m ≫= f) h = f a h'.
Proof. intros H. unfold mbind, St_bind. rewrite H. reflexivity. Qed.

Lemma St_bind_ThrowSyntaxError {A B} (m : St A) (f : A -> St B) h h' :
  m h = (ThrowSyntaxError, h') -> (m ≫= f) h = (ThrowSyntaxError, h').
Proof. intros H. unfold mbind, St_bind. rewrite H. reflexivity. Qed.

Lemma St_bind_Unmodelled {A B} (m : St A) (f : A -> St B) h h' :
  m h = (Unmodelled, h') -> (m ≫= f) h = (Unmodelled, h').
Proof. intros H. unfold mbind, St_bind. rewrite H. reflexivity. Qed.

Lemma holdsEntry_weaken h h' l e : h ⊆ h' -> holdsEntry h l e -> holdsEntry h' l e.
Proof. intros Hsub H. exact (lookup_weaken _ _ _ _ H Hsub). Qed.

Lemma holdsResult_weaken h h' l r : h ⊆ h' -> holdsResult h l r -> holdsResult h' l r.
Proof. intros Hsub H. exact (lookup_weaken _ _ _ _ H Hsub). Qed.

Lemma alloc_eq o h :
  exists l, alloc o h = (Normal l, <[l := o]> h) /\ h !! l = None.
Proof.
  exists (fresh (dom h)). split; [reflexivity|]. apply not_elem_of_dom, is_fresh.
Qed.

Lemma entriesAt_Forall2 h array entries :
  entriesAt h array = Some entries ->
  exists elements, h !! array = Some (Array elements)
                   /\ Forall2 (holdsEntry h) elements entries.
Proof.
  unfold entriesAt. destruct (h !! array) as [[e|r|elements]|]; try discriminate.
  intros H. exists elements. split; [reflexivity|].
  apply mapM_Some_1 in H. eapply Forall2_impl; [exact H|].
  intros l e. unfold holdsEntry. cbn. destruct (h !! l) as [[]|]; congruence.
Qed.

Lemma resultsAt_Forall2 h array elements results :
  h !! array = Some (Array elements) -> Forall2 (holdsResult h) elements results ->
  resultsAt h array = Some results.
Proof.
  intros Ha Hall. unfold resultsAt. rewrite Ha. apply mapM_Some_2.
  eapply Forall2_impl; [exact Hall|]. intros l r Hl. cbn. rewrite Hl. reflexivity.
Qed.

(** The callback of [map], run over the entries of the index. *)
Lemma mapSt_scoreItem terms elements : forall entries h,
  Forall2 (holdsEntry h) elements entries ->
  match mapArray (Readable.scoreItem terms) entries with
  | Normal results =>
    exists locs h',
      mapSt (fun item =>
          e ← readEntry item; r ← lift (Readable.scoreItem terms e); alloc (Result r))
        elements h = (Normal locs, h')
      /\ h ⊆ h' /\ Forall2 (holdsResult h') locs results
  | ThrowSyntaxError =>
    exists h',
      mapSt (fun item =>
          e ← readEntry item; r ← lift (Readable.scoreItem terms e); alloc (Result r))
        elements h = (ThrowSyntaxError, h')
  | Unmodelled =>
    exists h',
      mapSt (fun item =>
          e ← readEntry item; r ← lift (Readable.scoreItem terms e); alloc (Result r))
        elements h = (Unmodelled, h')
  end.
Proof.
  induction elements as [|l elements IH]; intros entries h Hall.
  - apply Forall2_nil_inv_l in Hall as ->. cbn. exists [], h. split; [reflexivity|]. split; [reflexivity|constructor].
  - apply Forall2_cons_inv_l in Hall as (e & entries' & He & Hall & ->).
    cbn [mapArray mapSt].
    assert (Hread : readEntry l h = (Normal e, h))
      by (unfold readEntry; rewrite He; reflexivity).
    destruct (Readable.scoreItem terms e) as [r| |] eqn:Hscore; cbn [mbind completion_bind].
    + destruct (alloc_eq (Result r) h) as (a & Halloc & Hfresh).
      assert (Hsub : h ⊆ <[a := Result r]> h) by (apply insert_subseteq, Hfresh).
      assert (Hitem : (e ← readEntry l; r ← lift (Readable.scoreItem terms e); alloc (Result r)) h
                      = (Normal a, <[a := Result r]> h)).
      { rewrite (St_bind_Normal _ _ _ _ _ Hread).
        rewrite (St_bind_Normal _ _ h r h) by (unfold lift; rewrite Hscore; reflexivity).
        exact Halloc. }
      rewrite (St_bind_Normal _ _ _ _ _ Hitem).
      specialize (IH entries' (<[a := Result r]> h)
                    (Forall2_impl _ _ _ _ Hall (fun l e => holdsEntry_weaken _ _ l e Hsub))).
      destruct (mapArray (Readable.scoreItem terms) entries') as [results| |].
      * destruct IH as (locs & h' & Hrest & Hsub' & Hres).
        exists (a :: locs), h'. rewrite (St_bind_Normal _ _ _ _ _ Hrest).
        split; [reflexivity|]. split; [etrans; eassumption|].
        constructor; [|exact Hres].
        apply (holdsResult_weaken _ _ _ _ Hsub'). apply lookup_insert_eq.
      * destruct IH as (h' & Hrest). exists h'.
        rewrite (St_bind_ThrowSyntaxError _ _ _ _ Hrest). reflexivity.
      * destruct IH as (h' & Hrest). exists h'.
        rewrite (St_bind_Unmodelled _ _ _ _ Hrest). reflexivity.
    + exists h. apply St_bind_ThrowSyntaxError.
      rewrite (St_bind_Normal _ _ _ _ _ Hread). apply St_bind_ThrowSyntaxError.
      unfold lift. rewrite Hscore. reflexivity.
    + exists h. apply St_bind_Unmodelled.
      rewrite (St_bind_Normal _ _ _ _ _ Hread). apply St_bind_Unmodelled.
      unfold lift. rewrite Hscore. reflexivity.
Qed.

Lemma mapSt_read {B} (f : ScoredResult -> B) locs : forall results h,
  Forall2 (holdsResult h) locs results ->
  mapSt (fun item => r ← readResult item; mret (f r)) locs h = (Normal (map f results), h).
Proof.
  induction locs as [|l locs IH]; intros results h Hall.
  - apply Forall2_nil_inv_l in Hall as ->. reflexivity.
  - apply Forall2_cons_inv_l in Hall as (r & results' & Hr & Hall & ->).
    cbn [mapSt map].
    rewrite (St_bind_Normal _ _ h (f r) h).
    + rewrite (St_bind_Normal _ _ _ _ _ (IH _ _ Hall)). reflexivity.
    + rewrite (St_bind_Normal _ _ h r h); [reflexivity|].
      unfold readResult. rewrite Hr. reflexivity.
Qed.

Lemma mapSt_readResult locs results h :
  Forall2 (holdsResult h) locs results ->
  mapSt readResult locs h = (Normal results, h).
Proof.
  revert results h. induction locs as [|l locs IH]; intros results h Hall.
  - apply Forall2_nil_inv_l in Hall as ->. reflexivity.
  - apply Forall2_cons_inv_l in Hall as (r & results' & Hr & Hall & ->).
    cbn [mapSt].
    rewrite (St_bind_Normal _ _ h r h) by (unfold readResult; rewrite Hr; reflexivity).
    rewrite (St_bind_Normal _ _ _ _ _ (IH _ _ Hall)). reflexivity.
Qed.

Lemma filter_zip {A B} (P : A -> B -> Prop) (f : B -> bool) locs results :
  Forall2 P locs results ->
  Forall2 P (map fst (List.filter snd (zip locs (map f results)))) (List.filter f results).
Proof.
  induction 1 as [|l r locs results Hlr Hall IH]; [constructor|].
  cbn. destruct (f r); cbn; [constructor|]; assumption.
Qed.

Lemma insertBy_zip {A} (l : A) (r : ScoredResult) (pairs : list (A * ScoredResult)) :
  map snd (insertBy (fun a b => score b.2 - score a.2) (l, r) pairs)
    = insertBy (fun a b => score b - score a) r (map snd pairs).
Proof.
  induction pairs as [|[l' r'] pairs IH]; [reflexivity|].
  cbn [insertBy map snd]. destruct (score r' - score r <=? 0); [reflexivity|].
  cbn [map snd]. rewrite IH. reflexivity.
Qed.

Lemma sortBy_zip {A} (pairs : list (A * ScoredResult)) :
  map snd (sortBy (fun a b => score b.2 - score a.2) pairs)
    = sortBy (fun a b => score b - score a) (map snd pairs).
Proof.
  induction pairs as [|[l r] pairs IH]; [reflexivity|].
  cbn [sortBy foldr map snd]. fold (sortBy (fun a b : A * ScoredResult => score b.2 - score a.2) pairs).
  rewrite insertBy_zip, IH. reflexivity.
Qed.

Lemma sort_zip {A} (P : A -> ScoredResult -> Prop) locs results :
  Forall2 P locs results ->
  Forall2 P (map fst (sortBy (fun a b => score b.2 - score a.2) (zip locs results)))
    (sortBy (fun a b => score b - score a) results).
Proof.
  intros Hall.
  assert (Hpairs : Forall (fun lr => P lr.1 lr.2) (zip locs results)).
  { induction Hall; constructor; assumption. }
  rewrite <- (snd_zip locs results) at 2 by (rewrite (Forall2_length _ _ _ Hall); reflexivity).
  rewrite <- sortBy_zip.
  rewrite <- (sortBy_Permutation (fun lr : A * ScoredResult => score lr.2)) in Hpairs.
  induction Hpairs; constructor; assumption.
Qed.

Lemma holdsResult_insert_array h a elements l r :
  (exists elements', h !! a = Some (Array elements')) \/ h !! a = None ->
  holdsResult h l r -> holdsResult (<[a := Array elements]> h) l r.
Proof.
  intros Ha Hl. unfold holdsResult in *. rewrite lookup_insert_ne; [exact Hl|].
  intros ->. destruct Ha as [[els Ha]|Ha]; congruence.
Qed.

(** [search] on the heap returns an array of the results that [search]
    computes from the entries of the index, throws when it throws, and
    leaves the model when it does. *)
Lemma heap_search_refines h index entries query limit :
  entriesAt h index = Some entries ->
  match Readable.search (Some entries) query limit with
  | Normal results =>
    exists l h', search (Some index) query limit h = (Normal l, h')
                 /\ resultsAt h' l = Some results
  | ThrowSyntaxError => exists h', search (Some index) query limit h = (ThrowSyntaxError, h')
  | Unmodelled => exists h', search (Some index) query limit h = (Unmodelled, h')
  end.
Proof.
  intros Hindex. unfold Readable.search, search.
  assert (Hempty : exists l h', alloc (Array []) h = (Normal l, h') /\ resultsAt h' l = Some []).
  { destruct (alloc_eq (Array []) h) as (l & Halloc & _). exists l, (<[l := Array []]> h).
    split; [exact Halloc|]. unfold resultsAt. rewrite lookup_insert_eq. reflexivity. }
  destruct query as [|c query]; [exact Hempty|].
  destruct (length (trim (c :: query)) <? 2)%nat; [exact Hempty|]. clear Hempty.
  destruct (entriesAt_Forall2 _ _ _ Hindex) as (elements & Harr & Hentries).
  set (terms := List.filter _ _).
  pose proof (mapSt_scoreItem terms elements entries h Hentries) as Hmap.
  assert (Hread : readArray index h = (Normal elements, h))
    by (unfold readArray; rewrite Harr; reflexivity).
  destruct (mapArray (Readable.scoreItem terms) entries) as [results| |];
    cbn [mbind completion_bind].
  - destruct Hmap as (locs & h1 & Hrun & Hsub & Hres).
    (* map *)
    destruct (alloc_eq (Array locs) h1) as (scored & Hscored & Hfresh1).
    set (h2 := <[scored := Array locs]> h1) in *.
    assert (Hstage1 : arrayMap (fun item =>
                e ← readEntry item; r ← lift (Readable.scoreItem terms e); alloc (Result r))
              index h = (Normal scored, h2)).
    { unfold arrayMap. rewrite (St_bind_Normal _ _ _ _ _ Hread).
      rewrite (St_bind_Normal _ _ _ _ _ Hrun). exact Hscored. }
    assert (Hres2 : Forall2 (holdsResult h2) locs results).
    { eapply Forall2_impl; [exact Hres|]. intros l r.
      apply holdsResult_insert_array. right. exact Hfresh1. }
    (* filter *)
    set (keptLocs := map fst (List.filter snd (zip locs (map (fun r => 0 <? score r) results)))).
    destruct (alloc_eq (Array keptLocs) h2) as (kept & Hkept & Hfresh2).
    set (h3 := <[kept := Array keptLocs]> h2) in *.
    assert (Hstage2 : arrayFilter (fun item => r ← readResult item; mret (0 <? score r))
              scored h2 = (Normal kept, h3)).
    { unfold arrayFilter.
      rewrite (St_bind_Normal _ _ h2 locs h2)
        by (unfold readArray, h2; rewrite lookup_insert_eq; reflexivity).
      rewrite (St_bind_Normal _ _ _ _ _
                 (mapSt_read (fun r => 0 <? score r) locs results h2 Hres2)).
      exact Hkept. }
    assert (Hres3 : Forall2 (holdsResult h3) keptLocs
                      (List.filter (fun r => 0 <? score r) results)).
    { apply filter_zip. eapply Forall2_impl; [exact Hres2|]. intros l r.
      apply holdsResult_insert_array. right. exact Hfresh2. }
    (* sort *)
    set (sortedLocs := map fst (sortBy (fun a b => score b.2 - score a.2)
                         (zip keptLocs (List.filter (fun r => 0 <? score r) results)))).
    set (h4 := <[kept := Array sortedLocs]> h3).
    assert (Hstage3 : arraySortByScore kept h3 = (Normal kept, h4)).
    { unfold arraySortByScore.
      rewrite (St_bind_Normal _ _ h3 keptLocs h3)
        by (unfold readArray, h3; rewrite lookup_insert_eq; reflexivity).
      rewrite (St_bind_Normal _ _ _ _ _ (mapSt_readResult _ _ _ Hres3)). reflexivity. }
    assert (Hres4 : Forall2 (holdsResult h4) sortedLocs
              (sortBy (fun a b => score b - score a)
                 (List.filter (fun r => 0 <? score r) results))).
    { apply sort_zip. eapply Forall2_impl; [exact Hres3|]. intros l r.
      apply holdsResult_insert_array. left. exists keptLocs. apply lookup_insert_eq. }
    (* slice *)
    destruct (alloc_eq (Array (slice0 sortedLocs (default 10 limit))) h4)
      as (sliced & Hsliced & Hfresh4).
    exists sliced, (<[sliced := Array (slice0 sortedLocs (default 10 limit))]> h4).
    split.
    + rewrite (St_bind_Normal _ _ _ _ _ Hstage1), (St_bind_Normal _ _ _ _ _ Hstage2),
        (St_bind_Normal _ _ _ _ _ Hstage3).
      unfold arraySlice0.
      rewrite (St_bind_Normal _ _ h4 sortedLocs h4)
        by (unfold readArray, h4; rewrite lookup_insert_eq; reflexivity).
      exact Hsliced.
    + eapply resultsAt_Forall2; [apply lookup_insert_eq|].
      unfold slice0. rewrite (Forall2_length _ _ _ Hres4).
      apply Forall2_take. eapply Forall2_impl; [exact Hres4|]. intros l r.
      apply holdsResult_insert_array. right. exact Hfresh4.
  - destruct Hmap as (h1 & Hrun). exists h1.
    apply St_bind_ThrowSyntaxError. unfold arrayMap.
    rewrite (St_bind_Normal _ _ _ _ _ Hread). apply St_bind_ThrowSyntaxError. exact Hrun.
  - destruct Hmap as (h1 & Hrun). exists h1.
    apply St_bind_Unmodelled. unfold arrayMap.
    rewrite (St_bind_Normal _ _ _ _ _ Hread). apply St_bind_Unmodelled. exact Hrun.
Qed.

End HeapRefines.

(** C8: any number of calls of [search] leaves every object of the heap
    it starts from as it was, the index array and every entry among them:
    the calls allocate (the results are fresh objects, the arrays of
    [map], [filter] and [slice] are fresh) and the only write, by [sort],
    goes to the array [filter] has just allocated.  So an index read
    before the calls reads the same after them, and the array a call
    returns is a new one. *)
Theorem search_leaves_index_unchanged (h : gmap Heap.loc Heap.object)
    (searchIndex : option Heap.loc) (calls : list (jsstring * option Z)) :
  h ⊆ Heap.searches searchIndex calls h
  /\ (forall index entries,
       Heap.entriesAt h index = Some entries ->
       Heap.entriesAt (Heap.searches searchIndex calls h) index = Some entries)
  /\ (forall query limit l,
       (Heap.search searchIndex query limit h).1 = Normal l -> h !! l = None).
Proof.
  assert (Hsub : h ⊆ Heap.searches searchIndex calls h)
    by (apply searches_extends; reflexivity).
  split; [exact Hsub|]. split.
  - intros index entries. apply entriesAt_weaken, Hsub.
  - intros query limit l. apply (keeps_search h searchIndex query limit h). reflexivity.
Qed.

Lemma search_leaves_index_unchanged_witness :
  Heap.entriesAt
    (Heap.searches (Some 3%positive) [(lit "t e", None); (lit "((", Some 5)] scenarioHeap)
    3%positive = Some scenarioIndex.
Proof.
  apply (search_leaves_index_unchanged scenarioHeap (Some 3%positive)
           [(lit "t e", None); (lit "((", Some 5)]).
  vm_compute. reflexivity.
Defined.

(** ** The highlighter *)

Section Highlighter.

Local Open Scope nat_scope.


Lemma inSet_syntax c :
  inSet false (map (fun c => (c, c)) syntaxCharacters) c = isSyntax c.
Proof. destruct c as [[] [] [] [] [] [] [] []]; reflexivity. Qed.

Lemma matchAt_syntaxCharacter i s :
  matchAt syntaxCharacter i s =
  match s with
  | c :: tl => if isSyntax c then Some (mkState (S i) tl []) else None
  | [] => None
  end.
Proof.
  unfold matchAt, syntaxCharacter. cbn [matcher pattern ignoreCase ngroups].
  unfold charMatcher. cbn [rest pos caps]. destruct s as [|c tl]; [reflexivity|].
  cbn [xorb]. rewrite inSet_syntax. reflexivity.
Qed.

Lemma escapeRegex_pieces str s i :
  concat (map (fun p =>
      match p with
      | Copy c => [c]
      | Hit i m cs => getSubstitution m str i cs (lit "\$&")
      end) (scan syntaxCharacter i s 0)) = escaped s.
Proof.
  revert i. induction s as [|c tl IH]; intros i.
  - cbn [scan]. rewrite matchAt_syntaxCharacter. reflexivity.
  - cbn [scan]. rewrite matchAt_syntaxCharacter. unfold escaped. cbn [map concat].
    fold (escaped tl). unfold escapeChar. destruct (isSyntax c).
    + cbn [pos]. replace (S i =? i) with false by (symmetry; apply Nat.eqb_neq; lia).
      replace (S i - i - 1) with 0 by lia.
      cbn [map concat]. rewrite IH. replace (S i - i) with 1 by lia. reflexivity.
    + cbn [map concat]. rewrite IH. reflexivity.
Qed.

Lemma escapeRegex_escaped s : Readable.escapeRegex s = escaped s.
Proof. unfold Readable.escapeRegex, replaceAll. apply escapeRegex_pieces. Qed.

(** *** The escaped term as a pattern *)

Lemma tokenOf_plain c : isSyntax c = false -> tokenOf c = TChar.
Proof. destruct c as [[] [] [] [] [] [] [] []]; intros H; try discriminate H; reflexivity. Qed.

Lemma parseAtomEscape_syntax c : isSyntax c = true -> parseAtomEscape c = Normal (RChar c).
Proof. destruct c as [[] [] [] [] [] [] [] []]; intros H; try discriminate H; reflexivity. Qed.

Lemma parseQuantifier_plain c tl : isSyntax c = false -> parseQuantifier (c :: tl) = None.
Proof.
  intros H. cbn [parseQuantifier].
  replace (quantifierOf c) with (@None (nat * option nat)); [reflexivity|].
  destruct c as [[] [] [] [] [] [] [] []]; try discriminate H; reflexivity.
Qed.

Lemma openerOf_plain c tl : isSyntax c = false -> openerOf (c :: tl) = Capturing (c :: tl).
Proof.
  intros H. cbn [openerOf]. replace (Ascii.eqb c "?") with false; [reflexivity|].
  destruct c as [[] [] [] [] [] [] [] []]; try discriminate H; reflexivity.
Qed.

Lemma parse_plain f n acc c tl :
  isSyntax c = false ->
  parseDisjunction (S f) n acc (c :: tl) =
  parseDisjunction f n (RSeq acc (quantify (RChar c) tl).1) (quantify (RChar c) tl).2.
Proof. intros H. cbn [parseDisjunction]. rewrite (tokenOf_plain c H). reflexivity. Qed.

Lemma parse_escape f n acc c tl :
  isSyntax c = true ->
  parseDisjunction (S f) n acc ("\"%char :: c :: tl) =
  parseDisjunction f n (RSeq acc (quantify (RChar c) tl).1) (quantify (RChar c) tl).2.
Proof.
  intros H. cbn [parseDisjunction]. change (tokenOf "\") with TBackslash. cbn match.
  rewrite (parseAtomEscape_syntax c H). reflexivity.
Qed.

(** What [escapeRegex] returns starts with a backslash or with a
    character that is not a syntax character. *)
Lemma escaped_cases t tail :
  (t = [] /\ escaped t ++ tail = tail)
  \/ (exists tl, escaped t ++ tail = "\"%char :: tl)
  \/ (exists c tl, isSyntax c = false /\ escaped t ++ tail = c :: tl).
Proof.
  destruct t as [|c t]; [left; split; reflexivity|]. right.
  unfold escaped. cbn [map concat]. unfold escapeChar.
  destruct (isSyntax c) eqn:H; [left|right]; cbn [app]; eauto.
Qed.

(** No quantifier follows an escaped character. *)
Lemma quantify_escaped atom t tail :
  quantify atom (escaped t ++ ")"%char :: tail) = (atom, escaped t ++ ")"%char :: tail).
Proof.
  unfold quantify.
  destruct (escaped_cases t (")"%char :: tail)) as [[_ ->]|[[tl ->]|(c & tl & Hc & ->)]];
    [reflexivity|reflexivity|].
  rewrite (parseQuantifier_plain c tl Hc). reflexivity.
Qed.

Lemma openerOf_escaped t tail :
  openerOf (escaped t ++ ")"%char :: tail) = Capturing (escaped t ++ ")"%char :: tail).
Proof.
  destruct (escaped_cases t (")"%char :: tail)) as [[_ ->]|[[tl ->]|(c & tl & Hc & ->)]];
    [reflexivity|reflexivity|].
  apply openerOf_plain, Hc.
Qed.

Lemma parse_escaped t : forall f n acc tail,
  length t < f ->
  parseDisjunction f n acc (escaped t ++ ")"%char :: tail)
    = Normal (literalSeq acc t, n, ")"%char :: tail).
Proof.
  induction t as [|c t IH]; intros f n acc tail Hf.
  - destruct f as [|f]; [cbn in Hf; lia|]. reflexivity.
  - destruct f as [|f]; [cbn in Hf; lia|]. cbn [length] in Hf.
    unfold escaped. cbn [map concat]. fold (escaped t). unfold escapeChar.
    destruct (isSyntax c) eqn:Hc.
    + cbn [app]. rewrite (parse_escape _ _ _ _ _ Hc), quantify_escaped. cbn [fst snd].
      rewrite IH by lia. reflexivity.
    + cbn [app]. rewrite (parse_plain _ _ _ _ _ Hc), quantify_escaped. cbn [fst snd].
      rewrite IH by lia. reflexivity.
Qed.

Lemma length_escaped t : length t <= length (escaped t).
Proof.
  induction t as [|c t IH]; [reflexivity|].
  unfold escaped. cbn [map concat]. fold (escaped t). rewrite length_app.
  unfold escapeChar. destruct (isSyntax c); cbn [length]; lia.
Qed.

Lemma parse_group_escaped t f :
  length t < f ->
  parseDisjunction (S f) 0 REmpty ("("%char :: (escaped t ++ [")"%char]))
    = Normal (RSeq REmpty (RGroup (Some 1) (literalSeq REmpty t)), 1, []).
Proof.
  intros Hf. cbn [parseDisjunction]. change (tokenOf "(") with TOpen. cbn match.
  rewrite openerOf_escaped, (parse_escaped t f 1 REmpty [] Hf).
  destruct f as [|f]; [lia|]. reflexivity.
Qed.

Lemma RegExp_new_escaped t :
  RegExp_new (lit "(" ++ Readable.escapeRegex t ++ lit ")") true = Normal (termRegExp t).
Proof.
  rewrite escapeRegex_escaped. unfold RegExp_new.
  change (lit "(" ++ escaped t ++ lit ")") with ("("%char :: (escaped t ++ [")"%char])).
  rewrite parse_group_escaped; [reflexivity|].
  cbn [length]. rewrite length_app. pose proof (length_escaped t). lia.
Qed.

(** *** Matching the escaped term *)

Lemma matcher_literalSeq ic t : forall acc x k,
  matcher ic (literalSeq acc t) x k
    = matcher ic acc x (fun y => matchLiteral ic t y k).
Proof.
  induction t as [|c t IH]; intros acc x k; [reflexivity|].
  cbn [literalSeq foldl]. fold (literalSeq (RSeq acc (RChar c)) t).
  rewrite IH. reflexivity.
Qed.

Lemma matchLiteral_startsWithCI t : forall i s cs k,
  matchLiteral true t (mkState i s cs) k =
  if startsWithCI t s then k (mkState (i + length t) (drop (length t) s) cs) else None.
Proof.
  induction t as [|c t IH]; intros i s cs k.
  - cbn. rewrite Nat.add_0_r. reflexivity.
  - cbn [matchLiteral startsWithCI]. unfold charMatcher. cbn [rest pos caps].
    destruct s as [|ch tl]; [reflexivity|]. unfold canonicalize.
    destruct (Ascii.eqb (upperChar ch) (upperChar c)); [|reflexivity].
    rewrite IH. cbn [andb length drop]. replace (S i + length t) with (i + S (length t)) by lia.
    reflexivity.
Qed.

Lemma matchAt_termRegExp t i s :
  matchAt (termRegExp t) i s =
  if startsWithCI t s
  then Some (mkState (i + length t) (drop (length t) s) [Some (take (length t) s)])
  else None.
Proof.
  unfold matchAt, termRegExp. cbn [pattern ignoreCase ngroups matcher].
  rewrite matcher_literalSeq. cbn [matcher]. rewrite matchLiteral_startsWithCI.
  destruct (startsWithCI t s); [|reflexivity].
  cbn [pos rest caps]. replace (i + length t - i) with (length t) by lia. reflexivity.
Qed.

Lemma getSubstitution_markTemplate m str i :
  getSubstitution m str i [Some m] markTemplate = markOpen ++ m ++ markClose.
Proof. vm_compute. reflexivity. Qed.

Lemma replace_termRegExp t str : t <> [] -> forall s i skip,
  concat (map (fun p =>
      match p with
      | Copy c => [c]
      | Hit i m cs => getSubstitution m str i cs markTemplate
      end) (scan (termRegExp t) i s skip)) = wrapFrom t s skip.
Proof.
  intros Ht. induction s as [|c tl IH]; intros i skip.
  - destruct skip; cbn [scan wrapFrom]; [|reflexivity].
    rewrite matchAt_termRegExp. destruct t; [contradiction|reflexivity].
  - destruct skip as [|skip]; cbn [scan wrapFrom]; [|apply IH].
    rewrite matchAt_termRegExp. destruct (startsWithCI t (c :: tl)).
    + cbn [pos caps]. replace (i + length t =? i) with false
        by (symmetry; apply Nat.eqb_neq; destruct t; [contradiction|cbn [length]; lia]).
      cbn [map concat]. replace (i + length t - i) with (length t) by lia.
      rewrite getSubstitution_markTemplate, IH.
      rewrite <- !app_assoc. do 3 f_equal; lia.
    + cbn [map concat]. rewrite IH. reflexivity.
Qed.

Lemma replaceAll_termRegExp t s :
  t <> [] -> replaceAll s (termRegExp t) markTemplate = wrapFrom t s 0.
Proof. intros Ht. unfold replaceAll. apply replace_termRegExp, Ht. Qed.

Lemma forEach_highlight terms : forall text,
  Forall (fun t => t <> []) terms ->
  forEach (fun h term =>
      regex ← RegExp_new (lit "(" ++ Readable.escapeRegex term ++ lit ")") true;
      Normal (replaceAll h regex markTemplate)) terms text
    = Normal (highlighted text terms).
Proof.
  induction terms as [|t terms IH]; intros text Hne; [reflexivity|].
  apply Forall_cons in Hne as [Ht Hne].
  cbn [forEach]. rewrite RegExp_new_escaped. cbn [mbind completion_bind].
  rewrite (replaceAll_termRegExp _ _ Ht). apply IH, Hne.
Qed.

Lemma termsOf_nonempty query : Forall (fun t => t <> []) (termsOf query).
Proof.
  apply List.Forall_forall. intros t Hin. unfold termsOf in Hin.
  apply List.filter_In in Hin as [_ Hlen]. destruct t; [discriminate|congruence].
Qed.

(** [highlightText] returns, on every text and query. *)
Lemma highlightText_highlighted text query :
  Readable.highlightText text query =
  Normal (match query with [] => text | _ => highlighted text (termsOf query) end).
Proof.
  unfold Readable.highlightText. destruct query as [|c query]; [reflexivity|].
  apply forEach_highlight, termsOf_nonempty.
Qed.

(** *** Terms without syntax characters in [search] *)

Lemma parse_plain_term t : forall f n acc,
  forallb (fun c => negb (isSyntax c)) t = true -> length t < f ->
  parseDisjunction f n acc t = Normal (literalSeq acc t, n, []).
Proof.
  induction t as [|c t IH]; intros f n acc Hplain Hf.
  - destruct f as [|f]; [cbn in Hf; lia|]. reflexivity.
  - destruct f as [|f]; [cbn in Hf; lia|]. cbn [length forallb] in *.
    apply andb_prop in Hplain as [Hc Hplain]. apply negb_true_iff in Hc.
    rewrite (parse_plain _ _ _ _ _ Hc).
    assert (Hq : quantify (RChar c) t = (RChar c, t)).
    { unfold quantify. destruct t as [|c' t']; [reflexivity|].
      cbn [forallb] in Hplain. apply andb_prop in Hplain as [Hc' _].
      apply negb_true_iff in Hc'. rewrite (parseQuantifier_plain c' t' Hc'). reflexivity. }
    rewrite Hq. cbn [fst snd]. apply IH; [exact Hplain|lia].
Qed.

Lemma RegExp_new_plain t :
  forallb (fun c => negb (isSyntax c)) t = true ->
  RegExp_new t false = Normal (mkRegExp (literalSeq REmpty t) 0 false).
Proof.
  intros Hplain. unfold RegExp_new. rewrite (parse_plain_term t _ 0 REmpty Hplain); [reflexivity|lia].
Qed.

Lemma matchLiteral_startsWith t : forall i s cs k,
  matchLiteral false t (mkState i s cs) k =
  if startsWith t s then k (mkState (i + length t) (drop (length t) s) cs) else None.
Proof.
  induction t as [|c t IH]; intros i s cs k.
  - cbn. rewrite Nat.add_0_r. reflexivity.
  - cbn [matchLiteral startsWith]. unfold charMatcher. cbn [rest pos caps].
    destruct s as [|ch tl]; [reflexivity|]. unfold canonicalize.
    rewrite (Ascii.eqb_sym ch c).
    destruct (Ascii.eqb c ch); [|reflexivity].
    rewrite IH. cbn [andb length drop]. replace (S i + length t) with (i + S (length t)) by lia.
    reflexivity.
Qed.

Lemma omap_cons_case {A B} (f : A -> option B) x l :
  omap f (x :: l) = match f x with Some y => y :: omap f l | None => omap f l end.
Proof. reflexivity. Qed.

Lemma matchGlobal_plain t : t <> [] -> forall s i skip,
  length (omap (fun p => match p with Hit _ m _ => Some m | Copy _ => None end)
            (scan (mkRegExp (literalSeq REmpty t) 0 false) i s skip))
    = occurrencesFrom t s skip.
Proof.
  intros Ht.
  assert (Hat : forall i s, matchAt (mkRegExp (literalSeq REmpty t) 0 false) i s =
            if startsWith t s then Some (mkState (i + length t) (drop (length t) s) []) else None).
  { intros i s. unfold matchAt. cbn [pattern ignoreCase ngroups].
    rewrite matcher_literalSeq. cbn [matcher]. apply matchLiteral_startsWith. }
  induction s as [|c tl IH]; intros i skip.
  - destruct skip; cbn [scan occurrencesFrom]; [|reflexivity].
    rewrite Hat. destruct t; [contradiction|reflexivity].
  - destruct skip as [|skip]; cbn [scan occurrencesFrom]; [|apply IH].
    rewrite Hat. destruct (startsWith t (c :: tl)).
    + cbn [pos]. replace (i + length t =? i) with false
        by (symmetry; apply Nat.eqb_neq; destruct t; [contradiction|cbn [length]; lia]).
      rewrite omap_cons_case. cbn [length]. rewrite IH. do 2 f_equal. lia.
    + rewrite omap_cons_case. apply IH.
Qed.

(** For a term without syntax characters the content contribution is the
    number of its occurrences in the content. *)
Lemma scoreTerm_plain titleLower contentLower sc term :
  term <> [] -> forallb (fun c => negb (isSyntax c)) term = true ->
  Readable.scoreTerm titleLower contentLower sc term =
  Normal ((if includes titleLower term
           then if strictEq titleLower term then sc + 10 + 20 else sc + 10
           else sc)
          + Z.of_nat (occurrences term contentLower))%Z.
Proof.
  intros Hne Hplain. unfold Readable.scoreTerm. rewrite (RegExp_new_plain term Hplain).
  cbn [mbind completion_bind]. unfold matchGlobal, occurrences.
  rewrite (matchGlobal_plain term Hne). reflexivity.
Qed.

(** *** Text with tags put in *)

Lemma marked_refl s : marked s s.
Proof. induction s; constructor; assumption. Qed.

Lemma marked_app a p o : marked p o -> marked (a ++ p) (a ++ o).
Proof. intros H. induction a; [exact H|]. cbn. constructor. assumption. Qed.

Lemma startsWith_app a b : startsWith a (a ++ b) = true.
Proof.
  induction a as [|c a IH]; [reflexivity|]. cbn. rewrite Ascii.eqb_refl. exact IH.
Qed.

Lemma stripFrom_skip a b : stripFrom (a ++ b) (length a) = stripFrom b 0.
Proof. induction a as [|c a IH]; [reflexivity|]. exact IH. Qed.

Lemma wrapFrom_skip t a b : wrapFrom t (a ++ b) (length a) = wrapFrom t b 0.
Proof. induction a as [|c a IH]; [reflexivity|]. exact IH. Qed.

Lemma stripFrom_markOpen o : stripFrom (markOpen ++ o) 0 = stripFrom o 0.
Proof.
  pose proof (startsWith_app markOpen o) as Hs.
  change (markOpen ++ o) with ("<"%char :: (List.tl markOpen ++ o)) in *.
  cbn [stripFrom]. rewrite Hs.
  change (length markOpen - 1) with (length (List.tl markOpen)).
  apply stripFrom_skip.
Qed.

Lemma stripFrom_markClose o : stripFrom (markClose ++ o) 0 = stripFrom o 0.
Proof.
  pose proof (startsWith_app markClose o) as Hs.
  change (markClose ++ o) with ("<"%char :: (List.tl markClose ++ o)) in *.
  cbn [stripFrom]. rewrite Hs.
  change (startsWith markOpen ("<"%char :: List.tl markClose ++ o)) with false.
  change (length markClose - 1) with (length (List.tl markClose)).
  apply stripFrom_skip.
Qed.

(** A string without [<] that starts the marked text starts the plain
    text. *)
Lemma startsWith_marked p o :
  marked p o -> forall T, hasChar "<" T = false ->
  startsWith T o = true -> startsWith T p = true.
Proof.
  induction 1 as [|c p o Hm IH|p o Hm IH|p o Hm IH]; intros T HT Hs.
  - exact Hs.
  - destruct T as [|a T]; [reflexivity|]. cbn in *.
    apply andb_prop in Hs as [Ha Hs]. apply orb_false_elim in HT as [_ HT].
    rewrite Ha, (IH T HT Hs). reflexivity.
  - destruct T as [|a T]; [destruct p; reflexivity|]. exfalso.
    change (markOpen ++ o) with ("<"%char :: (List.tl markOpen ++ o)) in Hs.
    cbn [startsWith hasChar existsb] in *. apply andb_prop in Hs as [Ha _].
    apply Ascii.eqb_eq in Ha. subst a. discriminate HT.
  - destruct T as [|a T]; [destruct p; reflexivity|]. exfalso.
    change (markClose ++ o) with ("<"%char :: (List.tl markClose ++ o)) in Hs.
    cbn [startsWith hasChar existsb] in *. apply andb_prop in Hs as [Ha _].
    apply Ascii.eqb_eq in Ha. subst a. discriminate HT.
Qed.

Lemma tagFree_tail c p : tagFree (c :: p) = true -> tagFree p = true.
Proof.
  unfold tagFree. cbn [includes]. intros H. apply andb_prop in H as [H1 H2].
  apply negb_true_iff, orb_false_elim in H1 as [_ H1].
  apply negb_true_iff, orb_false_elim in H2 as [_ H2].
  rewrite H1, H2. reflexivity.
Qed.

Lemma tagFree_head c p :
  tagFree (c :: p) = true ->
  startsWith markOpen (c :: p) = false /\ startsWith markClose (c :: p) = false.
Proof.
  unfold tagFree. cbn [includes]. intros H. apply andb_prop in H as [H1 H2].
  apply negb_true_iff, orb_false_elim in H1 as [H1 _].
  apply negb_true_iff, orb_false_elim in H2 as [H2 _]. split; assumption.
Qed.

Lemma startsWith_tag_marked T c p o :
  marked p o -> hasChar "<" (List.tl T) = false -> T <> [] ->
  startsWith T (c :: p) = false -> startsWith T (c :: o) = false.
Proof.
  intros Hm HT Hne Hp. destruct T as [|a T]; [contradiction|].
  cbn [startsWith List.tl] in *. destruct (Ascii.eqb a c); [|reflexivity]. cbn [andb] in *.
  destruct (startsWith T o) eqn:Ho; [|reflexivity].
  rewrite (startsWith_marked p o Hm T HT Ho) in Hp. discriminate.
Qed.

(** Stripping the tags of a marked text gives the text back, as long as
    the text itself holds no tag. *)
Lemma stripFrom_marked p o : marked p o -> tagFree p = true -> stripFrom o 0 = p.
Proof.
  induction 1 as [|c p o Hm IH|p o Hm IH|p o Hm IH]; intros Hfree.
  - reflexivity.
  - destruct (tagFree_head _ _ Hfree) as [Hopen Hclose].
    cbn [stripFrom].
    rewrite (startsWith_tag_marked markOpen c p o Hm eq_refl ltac:(discriminate) Hopen).
    rewrite (startsWith_tag_marked markClose c p o Hm eq_refl ltac:(discriminate) Hclose).
    rewrite (IH (tagFree_tail _ _ Hfree)). reflexivity.
  - rewrite stripFrom_markOpen. apply IH, Hfree.
  - rewrite stripFrom_markClose. apply IH, Hfree.
Qed.

(** *** Wrapping a term in a marked text *)

Lemma upperChar_lt a : Ascii.eqb (upperChar "<") (upperChar a) = true -> a = "<"%char.
Proof. destruct a as [[] [] [] [] [] [] [] []]; intros H; try discriminate H; reflexivity. Qed.

Lemma upperChar_gt a : Ascii.eqb (upperChar ">") (upperChar a) = true -> a = ">"%char.
Proof. destruct a as [[] [] [] [] [] [] [] []]; intros H; try discriminate H; reflexivity. Qed.

Lemma startsWithCI_length t : forall s, startsWithCI t s = true -> length t <= length s.
Proof.
  induction t as [|a t IH]; intros s H; [cbn; lia|].
  destruct s as [|b s]; [discriminate|]. cbn in H. apply andb_prop in H as [_ H].
  apply IH in H. cbn [length]. lia.
Qed.

(** The first occurrence wrapped: what follows it is wrapped from its
    end on. *)
Lemma wrapFrom_hit t a o :
  t <> [] -> length a = length t -> startsWithCI t (a ++ o) = true ->
  wrapFrom t (a ++ o) 0 = markOpen ++ a ++ markClose ++ wrapFrom t o 0.
Proof.
  intros Ht Hlen Hs. destruct a as [|c a]; [destruct t; [contradiction|discriminate]|].
  cbn [app wrapFrom]. change (c :: a ++ o) with ((c :: a) ++ o) in *. rewrite Hs.
  rewrite <- Hlen, take_app_length. cbn [length].
  replace (S (length a) - 1) with (length a) by lia. rewrite wrapFrom_skip. reflexivity.
Qed.

Lemma marked_hit t a p o :
  marked p (wrapFrom t o 0) ->
  marked (a ++ p) (markOpen ++ a ++ markClose ++ wrapFrom t o 0).
Proof. intros H. apply marked_open, marked_app, marked_close, H. Qed.

(** One term wrapped in a plain text. *)
Lemma marked_wrapFrom_plain t : t <> [] -> forall n s,
  length s <= n -> marked s (wrapFrom t s 0).
Proof.
  intros Ht. induction n as [|n IH]; intros s Hn.
  - destruct s; [constructor|cbn in Hn; lia].
  - destruct s as [|c s]; [constructor|].
    destruct (startsWithCI t (c :: s)) eqn:Hs.
    + pose proof (startsWithCI_length _ _ Hs) as Hlen.
      rewrite <- (take_drop (length t) (c :: s)) in Hs |- * at 2.
      rewrite wrapFrom_hit; [|exact Ht|rewrite length_take; lia|exact Hs].
      rewrite <- (take_drop (length t) (c :: s)) at 1.
      apply marked_hit, IH. rewrite length_drop. cbn [length] in *.
      destruct t; [contradiction|cbn [length]; lia].
    + cbn [wrapFrom]. rewrite Hs. constructor. apply IH. cbn in Hn. lia.
Qed.

(** An occurrence of a term without [<] that starts on a character of
    the text lies within the text. *)
Lemma startsWithCI_marked t : forall p o,
  hasChar "<" t = false -> marked p o -> startsWithCI t o = true ->
  exists a p2 o2, length a = length t /\ o = a ++ o2 /\ p = a ++ p2 /\ marked p2 o2.
Proof.
  induction t as [|x t IH]; intros p o Ht Hm Hs.
  - exists [], p, o. repeat split. exact Hm.
  - cbn [hasChar existsb] in Ht. apply orb_false_elim in Ht as [Hx Ht].
    inversion Hm as [|c p' o' Hm' Ep Eo|p' o' Hm' Ep Eo|p' o' Hm' Ep Eo]; subst.
    + discriminate.
    + cbn [startsWithCI] in Hs. apply andb_prop in Hs as [_ Hs].
      destruct (IH p' o' Ht Hm' Hs) as (a & p2 & o2 & Hlen & -> & -> & Hm2).
      exists (c :: a), p2, o2. cbn [length]. rewrite Hlen. repeat split. exact Hm2.
    + exfalso. change (markOpen ++ o') with ("<"%char :: (List.tl markOpen ++ o')) in Hs.
      cbn [startsWithCI] in Hs. apply andb_prop in Hs as [Ha _].
      apply upperChar_lt in Ha. subst x. discriminate Hx.
    + exfalso. change (markClose ++ o') with ("<"%char :: (List.tl markClose ++ o')) in Hs.
      cbn [startsWithCI] in Hs. apply andb_prop in Hs as [Ha _].
      apply upperChar_lt in Ha. subst x. discriminate Hx.
Qed.

Lemma includesCI_app pre suf t :
  startsWithCI t suf = true -> includesCI (pre ++ suf) t = true.
Proof.
  intros H. induction pre as [|c pre IH].
  - destruct suf; cbn [app includesCI]; rewrite H; reflexivity.
  - cbn [app includesCI]. rewrite IH. apply orb_true_r.
Qed.

(** An occurrence that starts within a string ending in [>] ends within
    it or runs over the [>]. *)
Lemma startsWithCI_within suf o : forall t,
  last suf = Some ">"%char -> startsWithCI t (suf ++ o) = true ->
  startsWithCI t suf = true \/ hasChar ">" t = true.
Proof.
  induction suf as [|x suf IH]; intros t Hlast Hs; [discriminate|].
  destruct t as [|a t]; [left; reflexivity|].
  cbn [app startsWithCI] in *. apply andb_prop in Hs as [Ha Hs].
  destruct suf as [|y suf].
  - injection Hlast as ->. apply upperChar_gt in Ha. subst a. right. reflexivity.
  - destruct (IH t Hlast Hs) as [Hin|Hgt].
    + left. rewrite Ha, Hin. reflexivity.
    + right. unfold hasChar in *. cbn [existsb]. rewrite Hgt. apply orb_true_r.
Qed.

(** A safe term has no occurrence that starts within a tag. *)
Lemma wrapFrom_tag t T o :
  last T = Some ">"%char -> hasChar ">" t = false -> includesCI T t = false -> t <> [] ->
  wrapFrom t (T ++ o) 0 = T ++ wrapFrom t o 0.
Proof.
  intros Hlast Hgt Hin Ht.
  assert (Hsuf : forall suf pre, T = pre ++ suf ->
            wrapFrom t (suf ++ o) 0 = suf ++ wrapFrom t o 0).
  { induction suf as [|c suf IH]; intros pre HT; [reflexivity|].
    cbn [app wrapFrom]. change (c :: suf ++ o) with ((c :: suf) ++ o).
    assert (Hs : startsWithCI t ((c :: suf) ++ o) = false).
    { destruct (startsWithCI t ((c :: suf) ++ o)) eqn:Hs; [exfalso|reflexivity].
      assert (Hl : last (c :: suf) = Some ">"%char).
      { rewrite HT in Hlast. rewrite last_app in Hlast.
        destruct (last (c :: suf)) eqn:E; [exact Hlast|].
        apply last_None in E. discriminate. }
      destruct (startsWithCI_within _ _ _ Hl Hs) as [Hw|Hw]; [|congruence].
      rewrite HT, (includesCI_app pre _ t Hw) in Hin. discriminate. }
    rewrite Hs. f_equal. apply (IH (pre ++ [c])). rewrite <- app_assoc. exact HT. }
  apply (Hsuf T []). reflexivity.
Qed.

Lemma safeTerm_inv t :
  safeTerm t = true ->
  hasChar "<" t = false /\ hasChar ">" t = false
  /\ includesCI markOpen t = false /\ includesCI markClose t = false.
Proof.
  unfold safeTerm. intros H.
  apply andb_prop in H as [H H4]. apply andb_prop in H as [H H3].
  apply andb_prop in H as [H1 H2].
  repeat split; apply negb_true_iff; assumption.
Qed.

(** One safe term wrapped in a marked text: every occurrence lies within
    the text, so the tags stay whole. *)
Lemma marked_wrapFrom t : t <> [] -> safeTerm t = true -> forall n p o,
  length o <= n -> marked p o -> marked p (wrapFrom t o 0).
Proof.
  intros Ht Hsafe. destruct (safeTerm_inv t Hsafe) as (Hlt & Hgt & Hopen & Hclose).
  induction n as [|n IH]; intros p o Hn Hm.
  - destruct o; [|cbn in Hn; lia]. inversion Hm. constructor.
  - inversion Hm as [|c p' o' Hm' Ep Eo|p' o' Hm' Ep Eo|p' o' Hm' Ep Eo]; subst.
    + constructor.
    + destruct (startsWithCI t (c :: o')) eqn:Hs.
      * destruct (startsWithCI_marked t _ _ Hlt Hm Hs) as (a & p2 & o2 & Hlen & Eo & Ep & Hm2).
        rewrite Eo, Ep. rewrite Eo in Hs.
        rewrite (wrapFrom_hit t a o2 Ht Hlen Hs). apply marked_hit, IH; [|exact Hm2].
        assert (length (c :: o') = length (a ++ o2)) as Hl by (rewrite Eo; reflexivity).
        rewrite length_app in Hl. cbn [length] in *.
        destruct t; [contradiction|cbn [length] in *; lia].
      * cbn [wrapFrom]. rewrite Hs. constructor. apply IH; [cbn in Hn; lia|exact Hm'].
    + rewrite (wrapFrom_tag t markOpen o' eq_refl Hgt Hopen Ht).
      apply marked_open, IH; [|exact Hm']. rewrite length_app in Hn.
      change (length markOpen) with 31 in Hn. lia.
    + rewrite (wrapFrom_tag t markClose o' eq_refl Hgt Hclose Ht).
      apply marked_close, IH; [|exact Hm']. rewrite length_app in Hn.
      change (length markClose) with 7 in Hn. lia.
Qed.

Lemma marked_highlighted terms : forall p o,
  Forall (fun t => t <> []) terms -> Forall (fun t => safeTerm t = true) terms ->
  marked p o -> marked p (highlighted o terms).
Proof.
  induction terms as [|t terms IH]; intros p o Hne Hsafe Hm; [exact Hm|].
  apply Forall_cons in Hne as [Ht Hne]. apply Forall_cons in Hsafe as [Hs Hsafe].
  cbn [highlighted foldl]. apply IH; [exact Hne|exact Hsafe|].
  apply (marked_wrapFrom t Ht Hs (length o)); [lia|exact Hm].
Qed.

(** Whatever the terms, every step of [highlightText] only puts tags into
    the string it is given; it is the tags of the steps before that a
    step may break. *)
Lemma highlighted_inserts_tags terms : forall text,
  Forall (fun t => t <> []) terms -> rtc marked text (highlighted text terms).
Proof.
  induction terms as [|t terms IH]; intros text Hne; [reflexivity|].
  apply Forall_cons in Hne as [Ht Hne]. cbn [highlighted foldl].
  eapply rtc_l; [|apply IH, Hne].
  apply (marked_wrapFrom_plain t Ht (length text)). lia.
Qed.

(** X30: on a text that holds no tag, and for a query whose terms after
    the first are safe (they hold neither angle bracket and occur in
    neither tag, case ignored), [highlightText] returns the text with tags
    put in, and stripping the tags gives the text back. *)
Theorem highlight_strip (text query : jsstring) :
  tagFree text = true ->
  forallb safeTerm (List.tl (termsOf query)) = true ->
  exists out,
    Readable.highlightText text query = Normal out /\ stripMarks out = text.
Proof.
  intros Hfree Hsafe. rewrite highlightText_highlighted.
  assert (Hall : Forall (fun t => safeTerm t = true) (List.tl (termsOf query)))
    by (apply List.Forall_forall, forallb_forall, Hsafe).
  clear Hsafe. rename Hall into Hsafe. eexists. split; [reflexivity|].
  unfold stripMarks. apply stripFrom_marked; [|exact Hfree].
  destruct query as [|c query]; [apply marked_refl|].
  pose proof (termsOf_nonempty (c :: query)) as Hne.
  destruct (termsOf (c :: query)) as [|t terms]; [apply marked_refl|].
  apply Forall_cons in Hne as [Ht Hne]. cbn [List.tl] in Hsafe.
  cbn [highlighted foldl]. apply marked_highlighted; [exact Hne|exact Hsafe|].
  apply (marked_wrapFrom_plain t Ht (length text)). lia.
Qed.

Lemma highlight_strip_witness :
  exists out,
    Readable.highlightText (lit "A Magik user (x), marked.") (lit "mark (X) magik user")
      = Normal out
    /\ stripMarks out = lit "A Magik user (x), marked.".
Proof.
  apply (highlight_strip (lit "A Magik user (x), marked.") (lit "mark (X) magik user")).
  - vm_compute. reflexivity.
  - vm_compute. reflexivity.
Defined.

(** C5 fails of the code: [highlightText] replaces term after term in the
    string it has already put tags into, so a later term is matched
    against the tags of the earlier ones too.  The text [x] has no tag and
    the term [a] does not occur in it; for the query [x a] the first term
    gives [x] between the two tags, and the second is then wrapped four
    times inside these tags, in [mark], [class], [search] and [/mark].
    What is left after stripping the tags is [x] between two tags, not
    [x]. *)
Theorem highlightText_rescans_its_tags :
  tagFree (lit "x") = true
  /\ termsOf (lit "x a") = [lit "x"; lit "a"]
  /\ includesCI (lit "x") (lit "a") = false
  /\ Readable.highlightText (lit "x") (lit "x") = Normal (markOpen ++ lit "x" ++ markClose)
  /\ Readable.highlightText (lit "x") (lit "x a")
     = Normal (lit "<m" ++ markOpen ++ lit "a" ++ markClose ++ lit "rk cl"
               ++ markOpen ++ lit "a" ++ markClose ++ lit "ss=" ++ [quote] ++ lit "se"
               ++ markOpen ++ lit "a" ++ markClose ++ lit "rch-highlight" ++ [quote]
               ++ lit ">x</m" ++ markOpen ++ lit "a" ++ markClose ++ lit "rk>")
  /\ exists out,
       Readable.highlightText (lit "x") (lit "x a") = Normal out
       /\ stripMarks out = markOpen ++ lit "x" ++ markClose
       /\ stripMarks out <> lit "x".
Proof.
  split; [reflexivity|]. split; [vm_compute; reflexivity|].
  split; [vm_compute; reflexivity|]. split; [vm_compute; reflexivity|].
  split; [vm_compute; reflexivity|].
  eexists. split; [vm_compute; reflexivity|].
  split; [vm_compute; reflexivity|]. vm_compute. discriminate.
Qed.

End Highlighter.

(** ** The terms of a query *)

Section Tokenizer.

Local Open Scope nat_scope.

Lemma inSet_space c : inSet false spaceRanges c = isWhiteSpace c.
Proof. destruct c as [[] [] [] [] [] [] [] []]; reflexivity. Qed.

(** The greedy star of [\s] consumes the white space in front. *)
Lemma repeatMatcher_blanks : forall s fuel i cs,
  length s < fuel ->
  repeatMatcher (charMatcher (fun ch => xorb false (inSet false spaceRanges ch))) [] true
    fuel 0 None (mkState i s cs) (fun y => Some y)
  = Some (mkState (i + (length s - length (trimStart s))) (trimStart s) cs).
Proof.
  induction s as [|c tl IH]; intros fuel i cs Hf.
  - destruct fuel; [lia|]. cbn. f_equal. f_equal. lia.
  - destruct fuel as [|fuel]; [cbn in Hf; lia|].
    cbn [repeatMatcher Nat.ltb Nat.leb]. unfold clearCaptures. cbn [foldr pos rest caps].
    unfold charMatcher at 1. cbn [rest pos caps].
    rewrite inSet_space. cbn [xorb trimStart].
    destruct (isWhiteSpace c) eqn:Hc.
    + replace (S i =? i) with false by (symmetry; apply Nat.eqb_neq; lia).
      rewrite andb_false_r. cbn [fmap option_fmap option_map Nat.pred].
      rewrite IH by (cbn in Hf; lia).
      f_equal. f_equal. cbn [length].
      assert (length (trimStart tl) <= length tl).
      { clear. induction tl as [|a tl IH]; cbn; [lia|]. destruct (isWhiteSpace a); cbn; lia. }
      lia.
    + f_equal. f_equal. cbn [length]. lia.
Qed.

Lemma trimStart_length s : length (trimStart s) <= length s.
Proof. induction s as [|a tl IH]; cbn; [lia|]. destruct (isWhiteSpace a); cbn; lia. Qed.

Lemma repeatMatcher_blanks1 s fuel i cs :
  length s < fuel ->
  repeatMatcher (charMatcher (fun ch => xorb false (inSet false spaceRanges ch))) [] true
    (S fuel) 1 None (mkState i s cs) (fun y => Some y)
  = match s with
    | c :: tl =>
      if isWhiteSpace c
      then Some (mkState (S i + (length tl - length (trimStart tl))) (trimStart tl) cs)
      else None
    | [] => None
    end.
Proof.
  intros Hf. cbn [repeatMatcher Nat.ltb Nat.leb]. unfold clearCaptures. cbn [foldr pos rest caps].
  unfold charMatcher at 1. cbn [rest pos caps].
  destruct s as [|c tl]; [reflexivity|].
  rewrite inSet_space. cbn [xorb]. destruct (isWhiteSpace c); [|reflexivity].
  cbn [Nat.eqb andb fmap option_fmap option_map Nat.pred].
  apply repeatMatcher_blanks. cbn in Hf. lia.
Qed.

Lemma matchAt_whitespaceRun i s :
  matchAt whitespaceRun i s =
  match s with
  | c :: tl =>
    if isWhiteSpace c
    then Some (mkState (S i + (length tl - length (trimStart tl))) (trimStart tl) [])
    else None
  | [] => None
  end.
Proof.
  unfold matchAt, whitespaceRun. cbn [pattern ignoreCase ngroups replicate matcher groupsOf rest].
  apply repeatMatcher_blanks1. cbn. lia.
Qed.

Lemma splitLoop_skip rx : forall s i skip field,
  splitLoop rx i s skip field = splitLoop rx (i + skip) (drop skip s) 0 field.
Proof.
  induction s as [|c tl IH]; intros i skip field.
  - destruct skip; reflexivity.
  - destruct skip as [|skip].
    + rewrite Nat.add_0_r. reflexivity.
    + cbn [splitLoop drop]. rewrite IH. f_equal. lia.
Qed.

Lemma drop_trimStart s : drop (length s - length (trimStart s)) s = trimStart s.
Proof.
  induction s as [|c tl IH]; [reflexivity|]. cbn [trimStart].
  destruct (isWhiteSpace c).
  - pose proof (trimStart_length tl).
    replace (length (c :: tl) - length (trimStart tl)) with (S (length tl - length (trimStart tl)))
      by (cbn [length]; lia).
    exact IH.
  - rewrite Nat.sub_diag. reflexivity.
Qed.

Lemma wordsFrom_trimStart s : wordsFrom s [] = wordsFrom (trimStart s) [].
Proof.
  induction s as [|c tl IH]; [reflexivity|]. cbn [trimStart wordsFrom].
  destruct (isWhiteSpace c) eqn:Hc; [exact IH|]. cbn [wordsFrom]. rewrite Hc. reflexivity.
Qed.

Lemma splitLoop_words : forall n s i field,
  length s <= n ->
  List.filter (fun term => 0 <? length term) (splitLoop whitespaceRun i s 0 field)
    = wordsFrom s field.
Proof.
  induction n as [|n IH]; intros s i field Hn.
  - destruct s; [|cbn in Hn; lia]. cbn. destruct field as [|a field]; [reflexivity|].
    cbn [rev]. rewrite length_app. cbn [length]. rewrite Nat.add_1_r. reflexivity.
  - destruct s as [|c tl].
    + cbn. destruct field as [|a field]; [reflexivity|].
      cbn [rev]. rewrite length_app. cbn [length]. rewrite Nat.add_1_r. reflexivity.
    + cbn [splitLoop wordsFrom]. rewrite matchAt_whitespaceRun.
      destruct (isWhiteSpace c).
      * cbn [pos]. replace (_ =? i) with false by (symmetry; apply Nat.eqb_neq; lia).
        rewrite splitLoop_skip.
        replace (S i + (length tl - length (trimStart tl)) - i - 1)
          with (length tl - length (trimStart tl)) by lia.
        rewrite drop_trimStart. cbn [List.filter].
        rewrite IH by (pose proof (trimStart_length tl); cbn in Hn; lia).
        rewrite <- wordsFrom_trimStart.
        destruct field as [|a field]; [reflexivity|].
        cbn [rev]. rewrite length_app. cbn [length]. rewrite Nat.add_1_r. reflexivity.
      * apply IH. cbn in Hn. lia.
Qed.

Lemma termsOf_words query : termsOf query = words (toLowerCase query).
Proof.
  unfold termsOf, words, split.
  destruct (toLowerCase query) as [|c tl] eqn:E; [reflexivity|].
  apply (splitLoop_words (length (c :: tl))). lia.
Qed.

Lemma wordsFrom_Forall (P : ascii -> Prop) : forall s word,
  Forall P s -> Forall P word -> Forall (Forall P) (wordsFrom s word).
Proof.
  induction s as [|c tl IH]; intros word Hs Hw.
  - cbn. destruct word; constructor; [|constructor]. apply Forall_rev in Hw. exact Hw.
  - inversion Hs as [|? ? Hc Htl]; subst. cbn [wordsFrom].
    destruct (isWhiteSpace c).
    + destruct word as [|a word]; [apply IH; auto|].
      constructor; [apply Forall_rev in Hw; exact Hw|apply IH; auto].
    + apply IH; auto.
Qed.

Lemma wordsFrom_nonblank : forall s word,
  forallb (fun c => negb (isWhiteSpace c)) word = true ->
  Forall (fun term => term <> [] /\ forallb (fun c => negb (isWhiteSpace c)) term = true)
    (wordsFrom s word).
Proof.
  assert (Hrev : forall word : jsstring, word <> [] ->
            forallb (fun c => negb (isWhiteSpace c)) word = true ->
            rev word <> [] /\ forallb (fun c => negb (isWhiteSpace c)) (rev word) = true).
  { intros word Hne Hw. split.
    - intros E. apply (f_equal (@rev ascii)) in E. rewrite rev_involutive in E. auto.
    - rewrite forallb_forall in *. intros c Hc. apply Hw. apply in_rev. exact Hc. }
  induction s as [|c tl IH]; intros word Hw.
  - cbn. destruct word as [|a word]; constructor; [|constructor].
    apply Hrev; [discriminate|exact Hw].
  - cbn [wordsFrom]. destruct (isWhiteSpace c) eqn:Hc.
    + destruct word as [|a word]; [apply IH; reflexivity|].
      constructor; [apply Hrev; [discriminate|exact Hw]|apply IH; reflexivity].
    + apply IH. cbn [forallb]. rewrite Hc, Hw. reflexivity.
Qed.

Lemma concat_wordsFrom : forall s word,
  concat (wordsFrom s word) = rev word ++ List.filter (fun c => negb (isWhiteSpace c)) s.
Proof.
  induction s as [|c tl IH]; intros word.
  - cbn. destruct word; cbn; rewrite ?app_nil_r; reflexivity.
  - cbn [wordsFrom List.filter]. destruct (isWhiteSpace c); cbn [negb].
    + destruct word as [|a word]; [exact (IH [])|].
      cbn [concat]. rewrite (IH []). reflexivity.
    + rewrite IH. cbn [rev]. rewrite <- app_assoc. reflexivity.
Qed.

Lemma wordsFrom_nil : forall s word,
  wordsFrom s word = [] <-> word = [] /\ forallb isWhiteSpace s = true.
Proof.
  induction s as [|c tl IH]; intros word.
  - cbn. destruct word; split; try discriminate; auto. intros [E _]. discriminate.
  - cbn [wordsFrom forallb]. destruct (isWhiteSpace c); cbn [andb].
    + destruct word as [|a word]; [apply IH|].
      split; [discriminate|]. intros [E _]. discriminate.
    + rewrite IH. split; [intros [E _]; discriminate|intros [_ E]; discriminate].
Qed.

Lemma lowerChar_idem c : lowerChar (lowerChar c) = lowerChar c.
Proof. destruct c as [[] [] [] [] [] [] [] []]; reflexivity. Qed.

Lemma isWhiteSpace_lowerChar c : isWhiteSpace (lowerChar c) = isWhiteSpace c.
Proof. destruct c as [[] [] [] [] [] [] [] []]; reflexivity. Qed.

Lemma forallb_isWhiteSpace_toLowerCase s :
  forallb isWhiteSpace (toLowerCase s) = forallb isWhiteSpace s.
Proof.
  unfold toLowerCase. induction s as [|c tl IH]; [reflexivity|].
  cbn [map forallb]. rewrite isWhiteSpace_lowerChar, IH. reflexivity.
Qed.

Lemma trimStart_nil s : trimStart s = [] <-> forallb isWhiteSpace s = true.
Proof.
  induction s as [|c tl IH]; [cbn; tauto|]. cbn. destruct (isWhiteSpace c); cbn; [exact IH|].
  split; discriminate.
Qed.

Lemma trimStart_head s c tl : trimStart s = c :: tl -> isWhiteSpace c = false.
Proof.
  induction s as [|a s IH]; [discriminate|]. cbn. destruct (isWhiteSpace a) eqn:Ha; [exact IH|].
  intros [= <- _]. exact Ha.
Qed.

Lemma trim_nil s : trim s = [] <-> forallb isWhiteSpace s = true.
Proof.
  split; [|apply trim_blank]. unfold trim, trimEnd. intros E.
  apply (f_equal (@rev ascii)) in E. rewrite rev_involutive in E. cbn in E.
  apply trimStart_nil in E. rewrite forallb_forall in E.
  destruct (trimStart s) as [|c tl] eqn:Hs; [apply trimStart_nil, Hs|].
  apply trimStart_head in Hs. rewrite (E c) in Hs; [discriminate|].
  apply in_rev. rewrite rev_involutive. left. reflexivity.
Qed.

(** X1: the terms of a query are the maximal runs of characters of the
    lower-cased query that are not white space: no term is empty, holds
    white space or changes under [toLowerCase]; put together they are
    the lower-cased query without its white space; and there is no term
    exactly when [trim] leaves nothing of the query. *)
Theorem terms_are_lowercase_words (query : jsstring) :
  termsOf query = words (toLowerCase query)
  /\ Forall (fun term => term <> []
                         /\ forallb (fun c => negb (isWhiteSpace c)) term = true
                         /\ toLowerCase term = term) (termsOf query)
  /\ concat (termsOf query)
     = List.filter (fun c => negb (isWhiteSpace c)) (toLowerCase query)
  /\ (termsOf query = [] <-> trim query = []).
Proof.
  split; [apply termsOf_words|]. split; [|split].
  - rewrite termsOf_words.
    pose proof (wordsFrom_nonblank (toLowerCase query) [] eq_refl) as Hw.
    assert (Hl : Forall (Forall (fun c => lowerChar c = c)) (wordsFrom (toLowerCase query) [])).
    { apply wordsFrom_Forall; [|constructor]. unfold toLowerCase. apply Forall_map.
      apply List.Forall_forall. intros c _. apply lowerChar_idem. }
    unfold words. induction Hw as [|term terms [Hne Hb] Hw IH]; [constructor|].
    inversion Hl as [|? ? Hlt Hls]; subst. constructor; [|apply IH, Hls].
    split; [exact Hne|]. split; [exact Hb|].
    unfold toLowerCase. clear -Hlt. induction Hlt as [|c t Hc Ht IH]; [reflexivity|].
    cbn [map]. rewrite Hc, IH. reflexivity.
  - rewrite termsOf_words. unfold words. rewrite concat_wordsFrom. reflexivity.
  - rewrite termsOf_words. unfold words. rewrite wordsFrom_nil, trim_nil.
    rewrite forallb_isWhiteSpace_toLowerCase. tauto.
Qed.

End Tokenizer.

(** ** The ranking *)

Section Ranking.

Lemma search_unfold index query limit :
  Readable.search (Some index) query limit =
  if (length (trim query) <? 2)%nat then Normal []
  else
    scored ← mapArray (Readable.scoreItem (termsOf query)) index;
    Normal (slice0 (ranking scored) (default 10 limit)).
Proof.
  unfold Readable.search. fold (termsOf query). destruct query; reflexivity.
Qed.

Lemma forEach_app {A S} (f : S -> A -> completion S) l1 l2 s :
  forEach f (l1 ++ l2) s = (s' ← forEach f l1 s; forEach f l2 s').
Proof.
  revert s. induction l1 as [|a l1 IH]; intros s; [reflexivity|].
  cbn [forEach app]. destruct (f s a); cbn; [apply IH|reflexivity|reflexivity].
Qed.

Lemma scoreTerm_shift titleLower contentLower sc term :
  Readable.scoreTerm titleLower contentLower sc term =
  (d ← Readable.scoreTerm titleLower contentLower 0 term; Normal (sc + d)).
Proof.
  unfold Readable.scoreTerm.
  destruct (RegExp_new term false); cbn; [|reflexivity|reflexivity].
  f_equal. destruct (includes titleLower term); [destruct (strictEq titleLower term)|]; lia.
Qed.

Lemma forEach_scoreTerm_shift titleLower contentLower terms : forall sc,
  forEach (Readable.scoreTerm titleLower contentLower) terms sc =
  (d ← forEach (Readable.scoreTerm titleLower contentLower) terms 0; Normal (sc + d)).
Proof.
  induction terms as [|term terms IH]; intros sc.
  - cbn. f_equal. lia.
  - cbn [forEach]. rewrite (scoreTerm_shift _ _ sc).
    destruct (Readable.scoreTerm titleLower contentLower 0 term) as [d| |]; cbn;
      [|reflexivity|reflexivity].
    rewrite (IH (sc + d)), (IH d).
    destruct (forEach _ terms 0); cbn; [|reflexivity|reflexivity]. f_equal. lia.
Qed.

Lemma scoreItem_app terms1 terms2 item r1 r2 :
  Readable.scoreItem terms1 item = Normal r1 ->
  Readable.scoreItem terms2 item = Normal r2 ->
  Readable.scoreItem (terms1 ++ terms2) item = Normal (spread item (score r1 + score r2)).
Proof.
  unfold Readable.scoreItem. intros H1 H2. rewrite forEach_app.
  destruct (forEach _ terms1 0) as [s1| |]; try discriminate. cbn in H1 |- *.
  injection H1 as <-. rewrite forEach_scoreTerm_shift.
  destruct (forEach _ terms2 0) as [s2| |]; try discriminate. cbn in H2 |- *.
  injection H2 as <-. reflexivity.
Qed.

Lemma wordsFrom_blank_app : forall s1 c s2 word,
  isWhiteSpace c = true ->
  wordsFrom (s1 ++ c :: s2) word = wordsFrom s1 word ++ wordsFrom s2 [].
Proof.
  induction s1 as [|a s1 IH]; intros c s2 word Hc.
  - cbn [app wordsFrom]. rewrite Hc. destruct word; reflexivity.
  - cbn [app wordsFrom]. destruct (isWhiteSpace a).
    + destruct word; rewrite (IH _ _ _ Hc); reflexivity.
    + apply IH, Hc.
Qed.

Lemma termsOf_join query1 query2 :
  termsOf (query1 ++ lit " " ++ query2) = termsOf query1 ++ termsOf query2.
Proof.
  rewrite !termsOf_words. unfold words, toLowerCase. rewrite map_app.
  cbn [lit list_ascii_of_string app map].
  apply wordsFrom_blank_app. reflexivity.
Qed.

Lemma isSyntax_lowerChar c : isSyntax (lowerChar c) = isSyntax c.
Proof. destruct c as [[] [] [] [] [] [] [] []]; reflexivity. Qed.

Lemma termsOf_plain query :
  isPlain query = true ->
  Forall (fun term => term <> [] /\ isPlain term = true) (termsOf query).
Proof.
  intros Hq. pose proof (termsOf_nonempty query) as Hne.
  assert (Hp : Forall (Forall (fun c => isSyntax c = false)) (termsOf query)).
  { rewrite termsOf_words. apply wordsFrom_Forall; [|constructor].
    unfold toLowerCase. apply Forall_map. unfold isPlain in Hq.
    rewrite forallb_forall in Hq. apply List.Forall_forall. intros c Hc.
    change (isSyntax (lowerChar c) = false). rewrite isSyntax_lowerChar.
    apply negb_true_iff, Hq, Hc. }
  induction Hne as [|term terms Hterm Hne IH]; [constructor|].
  inversion Hp as [|? ? Hpt Hps]; subst. constructor; [|apply IH, Hps].
  split; [exact Hterm|]. unfold isPlain. apply forallb_forall. intros c Hc.
  rewrite List.Forall_forall in Hpt. apply negb_true_iff, Hpt, Hc.
Qed.

Lemma forEach_scoreTerm_plain titleLower contentLower terms : forall sc,
  Forall (fun term => term <> [] /\ isPlain term = true) terms ->
  forEach (Readable.scoreTerm titleLower contentLower) terms sc =
  Normal (sc + foldr (fun term total =>
                 literalTermScore titleLower contentLower term + total) 0 terms).
Proof.
  induction terms as [|term terms IH]; intros sc Hterms.
  - cbn. f_equal. lia.
  - inversion Hterms as [|? ? [Hne Hp] Hrest]; subst. cbn [forEach foldr].
    rewrite (scoreTerm_plain _ _ _ _ Hne Hp). cbn. rewrite (IH _ Hrest). f_equal.
    unfold literalTermScore.
    destruct (includes titleLower term); [destruct (strictEq titleLower term)|]; lia.
Qed.

Lemma mapArray_map {A B} (f : A -> completion B) (g : A -> B) l :
  (forall a, f a = Normal (g a)) -> mapArray f l = Normal (map g l).
Proof.
  intros H. induction l as [|a l IH]; [reflexivity|]. cbn. rewrite H. cbn. rewrite IH. reflexivity.
Qed.

Lemma entryOf_spread item sc : entryOf (spread item sc) = item.
Proof. destruct item. reflexivity. Qed.

Lemma mapArray_scoreItem_entries terms : forall index scored,
  mapArray (Readable.scoreItem terms) index = Normal scored ->
  map entryOf scored = index.
Proof.
  induction index as [|item index IH]; intros scored H.
  - injection H as <-. reflexivity.
  - cbn [mapArray] in H.
    destruct (Readable.scoreItem terms item) as [r| |] eqn:Hr; try discriminate. cbn in H.
    destruct (mapArray _ index) as [rs| |]; try discriminate. cbn in H.
    injection H as <-. cbn [map]. rewrite (IH rs eq_refl). f_equal.
    unfold Readable.scoreItem in Hr.
    destruct (forEach _ terms 0) as [sc| |]; try discriminate. cbn in Hr.
    injection Hr as <-. apply entryOf_spread.
Qed.

Lemma insertBy_filter {A} (key : A -> Z) k x l :
  List.filter (fun a => key a =? k) (insertBy (fun a b => key b - key a) x l)
    = List.filter (fun a => key a =? k) (x :: l).
Proof.
  induction l as [|y l IH]; [reflexivity|]. cbn [insertBy].
  destruct (Z.leb_spec (key y - key x) 0) as [Hle|Hgt]; [reflexivity|].
  cbn [List.filter] in *. rewrite IH.
  destruct (Z.eqb_spec (key x) k) as [Hx|Hx]; [|reflexivity].
  destruct (Z.eqb_spec (key y) k) as [Hy|Hy]; [lia|reflexivity].
Qed.

Lemma sortBy_filter {A} (key : A -> Z) k l :
  List.filter (fun a => key a =? k) (sortBy (fun a b => key b - key a) l)
    = List.filter (fun a => key a =? k) l.
Proof.
  induction l as [|x l IH]; [reflexivity|]. unfold sortBy in *. cbn [foldr].
  rewrite insertBy_filter. cbn [List.filter]. rewrite IH. reflexivity.
Qed.

Lemma filter_sublist {A} (f : A -> bool) l : sublist (List.filter f l) l.
Proof.
  induction l as [|x l IH]; [constructor|]. cbn. destruct (f x); constructor; exact IH.
Qed.

Lemma filter_take_sublist {A} (f : A -> bool) n l :
  sublist (List.filter f (take n l)) (List.filter f l).
Proof.
  revert n. induction l as [|x l IH]; intros n; [destruct n; constructor|].
  destruct n as [|n]; [apply sublist_nil_l|]. cbn. destruct (f x); [constructor|]; apply IH.
Qed.

Lemma slice0_full {A} (l : list A) (n : nat) :
  (length l <= n)%nat -> slice0 l (Z.of_nat n) = l.
Proof.
  intros H. unfold slice0. replace (Z.of_nat n <? 0) with false by (symmetry; apply Z.ltb_ge; lia).
  rewrite Z.min_r by lia. rewrite Nat2Z.id. apply firstn_all.
Qed.

Lemma slice0_slice0 {A} (l : list A) limit :
  slice0 (slice0 l (Z.of_nat (length l))) limit = slice0 l limit.
Proof. rewrite slice0_full by lia. reflexivity. Qed.

Lemma mapArray_length {A B} (f : A -> completion B) : forall l bs,
  mapArray f l = Normal bs -> length bs = length l.
Proof.
  induction l as [|a l IH]; intros bs H.
  - injection H as <-. reflexivity.
  - cbn in H. destruct (f a); try discriminate. cbn in H.
    destruct (mapArray f l) as [bs'| |]; try discriminate. cbn in H.
    injection H as <-. cbn. rewrite (IH bs' eq_refl). reflexivity.
Qed.

Lemma ranking_length scored : (length (ranking scored) <= length scored)%nat.
Proof.
  unfold ranking. rewrite (Permutation_length (sortBy_Permutation score _)).
  apply sublist_length, filter_sublist.
Qed.

Lemma trimStart_toLowerCase s : trimStart (toLowerCase s) = toLowerCase (trimStart s).
Proof.
  unfold toLowerCase. induction s as [|c tl IH]; [reflexivity|]. cbn [map trimStart].
  rewrite isWhiteSpace_lowerChar. destruct (isWhiteSpace c); [exact IH|reflexivity].
Qed.

Lemma trim_toLowerCase s : trim (toLowerCase s) = toLowerCase (trim s).
Proof.
  unfold trim, trimEnd. rewrite trimStart_toLowerCase.
  unfold toLowerCase at 1. rewrite <- map_rev. fold (toLowerCase (rev (trimStart s))).
  rewrite trimStart_toLowerCase. unfold toLowerCase. rewrite map_rev. reflexivity.
Qed.

Lemma trim_length_toLowerCase s : length (trim (toLowerCase s)) = length (trim s).
Proof. rewrite trim_toLowerCase. unfold toLowerCase. apply length_map. Qed.

Lemma forEach_scoreTerm_compiles titleLower contentLower terms : forall sc,
  match mapArray (fun term => RegExp_new term false) terms with
  | Normal _ =>
    exists sc', forEach (Readable.scoreTerm titleLower contentLower) terms sc = Normal sc'
  | ThrowSyntaxError =>
    forEach (Readable.scoreTerm titleLower contentLower) terms sc = ThrowSyntaxError
  | Unmodelled => forEach (Readable.scoreTerm titleLower contentLower) terms sc = Unmodelled
  end.
Proof.
  induction terms as [|term terms IH]; intros sc; [eexists; reflexivity|].
  cbn [mapArray forEach].
  assert (Hterm : Readable.scoreTerm titleLower contentLower sc term =
            (rx ← RegExp_new term false;
             Normal ((if includes titleLower term
                      then if strictEq titleLower term then sc + 10 + 20 else sc + 10
                      else sc) + Z.of_nat (length (matchGlobal contentLower rx)))))
    by reflexivity.
  rewrite Hterm. clear Hterm.
  generalize (RegExp_new term false). intros [rx| |]; [|reflexivity|reflexivity].
  change (Normal rx ≫= ?f) with (f rx). cbv beta.
  change (Normal ?a ≫= ?f) with (f a). cbv beta.
  match goal with |- context [forEach _ terms ?s] => specialize (IH s) end.
  destruct (mapArray _ terms); exact IH.
Qed.

Lemma mapArray_scoreItem_compiles terms item index :
  match mapArray (fun term => RegExp_new term false) terms with
  | Normal _ => exists scored, mapArray (Readable.scoreItem terms) (item :: index) = Normal scored
  | ThrowSyntaxError => mapArray (Readable.scoreItem terms) (item :: index) = ThrowSyntaxError
  | Unmodelled => mapArray (Readable.scoreItem terms) (item :: index) = Unmodelled
  end.
Proof.
  pose proof (fun it => forEach_scoreTerm_compiles
                (toLowerCase (title it)) (toLowerCase (content it)) terms 0) as H.
  destruct (mapArray _ terms) as [rxs| |].
  - apply mapArray_Normal. intros it. unfold Readable.scoreItem.
    destruct (H it) as [sc ->]. eexists. reflexivity.
  - cbn [mapArray]. replace (Readable.scoreItem terms item) with (@ThrowSyntaxError ScoredResult);
      [reflexivity|]. unfold Readable.scoreItem. rewrite H. reflexivity.
  - cbn [mapArray]. replace (Readable.scoreItem terms item) with (@Unmodelled ScoredResult);
      [reflexivity|]. unfold Readable.scoreItem. rewrite H. reflexivity.
Qed.

(** X2: the score of an entry adds up over the terms: for the query
    made of two queries with a blank between them the entry gets the sum
    of what it gets for each, so a term that is repeated counts again. *)
Theorem score_adds_over_terms (query1 query2 : jsstring) (item : IndexEntry)
    (r1 r2 : ScoredResult) :
  Readable.scoreItem (termsOf query1) item = Normal r1 ->
  Readable.scoreItem (termsOf query2) item = Normal r2 ->
  Readable.scoreItem (termsOf (query1 ++ lit " " ++ query2)) item
    = Normal (spread item (score r1 + score r2)).
Proof. intros H1 H2. rewrite termsOf_join. apply scoreItem_app; assumption. Qed.

Lemma score_adds_over_terms_witness :
  Readable.scoreItem (termsOf (lit "magik" ++ lit " " ++ lit "Magik")) magikEntry
    = Normal (spread magikEntry (32 + 32)).
Proof.
  apply (score_adds_over_terms (lit "magik") (lit "Magik") magikEntry
           (spread magikEntry 32) (spread magikEntry 32)); vm_compute; reflexivity.
Defined.

(** X3: for a query that passes the guard and holds none of the
    fourteen syntax characters, [search] returns, and what it returns is
    the ranking by the literal score: per term 10 for a title that holds
    it, 20 more for a title equal to it, and the number of its
    non-overlapping occurrences in the content. *)
Theorem search_scores_plain_queries_literally (index : list IndexEntry)
    (query : jsstring) (limit : option Z) :
  isPlain query = true -> (2 <= length (trim query))%nat ->
  Readable.search (Some index) query limit =
  Normal (slice0
            (ranking (map (fun item => spread item (literalScore (termsOf query) item)) index))
            (default 10 limit)).
Proof.
  intros Hplain Hlong. rewrite search_unfold.
  replace (length (trim query) <? 2)%nat with false by (symmetry; apply Nat.ltb_ge; lia).
  rewrite (mapArray_map _ (fun item => spread item (literalScore (termsOf query) item)));
    [reflexivity|].
  intros item. unfold Readable.scoreItem.
  rewrite (forEach_scoreTerm_plain _ _ _ 0 (termsOf_plain _ Hplain)). reflexivity.
Qed.

Lemma search_scores_plain_queries_literally_witness :
  Readable.search (Some scenarioIndex) (lit "Magik user") (Some 10) =
  Normal (slice0
            (ranking (map (fun item => spread item (literalScore (termsOf (lit "Magik user")) item))
                        scenarioIndex))
            10).
Proof.
  apply (search_scores_plain_queries_literally scenarioIndex (lit "Magik user") (Some 10)).
  - reflexivity.
  - vm_compute. lia.
Defined.

(** X4: results of equal score come in the order of the index: for
    every score, the entries of the results with that score are a
    subsequence of the index. *)
Theorem search_breaks_ties_by_index_order (index : list IndexEntry) (query : jsstring)
    (limit : option Z) (results : list ScoredResult) (k : Z) :
  Readable.search (Some index) query limit = Normal results ->
  sublist (map entryOf (List.filter (fun r => score r =? k) results)) index.
Proof.
  rewrite search_unfold. destruct (length (trim query) <? 2)%nat.
  - intros [= <-]. apply sublist_nil_l.
  - destruct (mapArray _ index) as [scored| |] eqn:Hscored; try discriminate.
    intros [= <-]. rewrite <- (mapArray_scoreItem_entries _ _ _ Hscored).
    apply fmap_sublist.
    destruct (slice0_take (ranking scored) (default 10 limit)) as [n ->].
    etrans; [apply filter_take_sublist|]. unfold ranking.
    rewrite (sortBy_filter score). etrans; apply filter_sublist.
Qed.

Lemma search_breaks_ties_by_index_order_witness :
  sublist
    (map entryOf
       (List.filter (fun r => score r =? 1)
          [spread magikEntry 1; spread settlementEntry 1]))
    scenarioIndex.
Proof.
  apply (search_breaks_ties_by_index_order scenarioIndex (lit "st") None
           [spread magikEntry 1; spread settlementEntry 1] 1).
  vm_compute. reflexivity.
Defined.

(** X5: [search] returns entries of the index with their fields as they
    are, and none more often than the index holds it. *)
Theorem search_returns_index_entries (index : list IndexEntry) (query : jsstring)
    (limit : option Z) (results : list ScoredResult) :
  Readable.search (Some index) query limit = Normal results ->
  map entryOf results ⊆+ index.
Proof.
  rewrite search_unfold. destruct (length (trim query) <? 2)%nat.
  - intros [= <-]. apply submseteq_nil_l.
  - destruct (mapArray _ index) as [scored| |] eqn:Hscored; try discriminate.
    intros [= <-]. rewrite <- (mapArray_scoreItem_entries _ _ _ Hscored).
    apply fmap_submseteq.
    destruct (slice0_take (ranking scored) (default 10 limit)) as [n ->].
    etrans; [apply sublist_submseteq, sublist_take|]. unfold ranking.
    rewrite (sortBy_Permutation score). apply sublist_submseteq, filter_sublist.
Qed.

Lemma search_returns_index_entries_witness :
  map entryOf [spread magikEntry 32] ⊆+ scenarioIndex.
Proof.
  apply (search_returns_index_entries scenarioIndex (lit "magik") (Some 10)).
  vm_compute. reflexivity.
Defined.

(** X6: the limit only cuts: the results for any limit are
    [slice(0, limit)] of the results for a limit as large as the index,
    the first [limit] of them when the limit is not negative, and all
    but the last [-limit] when it is. *)
Theorem search_limit_cuts_the_ranking (index : list IndexEntry) (query : jsstring)
    (limit : Z) :
  Readable.search (Some index) query (Some limit) =
  (full ← Readable.search (Some index) query (Some (Z.of_nat (length index)));
   Normal (if limit <? 0
           then take (length full - Z.to_nat (- limit)) full
           else take (Z.to_nat limit) full)).
Proof.
  assert (Hslice : forall l : list ScoredResult,
            slice0 l limit =
            if limit <? 0 then take (length l - Z.to_nat (- limit)) l
            else take (Z.to_nat limit) l).
  { intros l. unfold slice0. destruct (Z.ltb_spec limit 0) as [Hneg|Hpos].
    - f_equal. lia.
    - destruct (Z.le_ge_cases limit (Z.of_nat (length l))) as [Hle|Hge].
      + rewrite Z.min_l by lia. reflexivity.
      + rewrite Z.min_r by lia. rewrite Nat2Z.id.
        rewrite !take_ge by lia. reflexivity. }
  rewrite !search_unfold. destruct (length (trim query) <? 2)%nat.
  - cbn. destruct (limit <? 0); rewrite take_nil; reflexivity.
  - destruct (mapArray _ index) as [scored| |] eqn:Hscored; [|reflexivity|reflexivity].
    cbn [default]. unfold id. change (Normal ?a ≫= ?f) with (f a). cbv beta.
    rewrite slice0_full.
    + rewrite Hslice. reflexivity.
    + pose proof (ranking_length scored). rewrite (mapArray_length _ _ _ Hscored) in *. lia.
Qed.

(** X7: [search] and [highlightText] read the terms of the query and
    nothing else of it, the guard apart: two queries with the same terms,
    which is two queries with the same words up to the case of the letters
    and to the white space around the words, give the same results when
    both pass the guard or both fail it, and the same highlighting. *)
Theorem search_reads_only_the_terms (index : option (list IndexEntry))
    (query query' text : jsstring) (limit : option Z) :
  termsOf query = termsOf query' ->
  (length (trim query) <? 2)%nat = (length (trim query') <? 2)%nat ->
  Readable.search index query limit = Readable.search index query' limit
  /\ Readable.highlightText text query = Readable.highlightText text query'.
Proof.
  intros Hterms Hguard. split.
  - destruct index as [index|]; [|reflexivity]. rewrite !search_unfold.
    rewrite Hguard, Hterms. reflexivity.
  - rewrite !highlightText_highlighted.
    destruct query as [|c query], query' as [|c' query']; [reflexivity| | |].
    + rewrite <- Hterms. reflexivity.
    + rewrite Hterms. reflexivity.
    + rewrite Hterms. reflexivity.
Qed.

Lemma search_reads_only_the_terms_witness :
  Readable.search (Some scenarioIndex) (lit "MAGIK User") None
    = Readable.search (Some scenarioIndex) (lit "  magik   uSER ") None
  /\ Readable.highlightText (lit "A Magik user") (lit "MAGIK User")
     = Readable.highlightText (lit "A Magik user") (lit "  magik   uSER ").
Proof.
  apply (search_reads_only_the_terms (Some scenarioIndex) (lit "MAGIK User")
           (lit "  magik   uSER ")).
  - reflexivity.
  - reflexivity.
Defined.

(** X8: when [search] fails.  On an empty index it returns the empty
    array for every query.  On any other index and a query that passes
    the guard, the terms are compiled in their order for the first entry.
    Of the patterns modelled here: [search] returns when every term is one
    that compiles, and it throws the SyntaxError of the first term that
    does not compile when the terms before it are ones that compile.  A
    query in which a term outside the modelled patterns comes before any
    term that fails is left open: the model answers [Unmodelled], which
    says nothing of the code. *)
Theorem search_fails_on_first_bad_term (item : IndexEntry) (index : list IndexEntry)
    (query : jsstring) (limit : option Z) :
  Readable.search (Some []) query limit = Normal []
  /\ ((2 <= length (trim query))%nat ->
      match mapArray (fun term => RegExp_new term false) (termsOf query) with
      | Normal _ =>
        exists results, Readable.search (Some (item :: index)) query limit = Normal results
      | ThrowSyntaxError =>
        Readable.search (Some (item :: index)) query limit = ThrowSyntaxError
      | Unmodelled => Readable.search (Some (item :: index)) query limit = Unmodelled
      end).
Proof.
  split.
  - rewrite search_unfold. destruct (length (trim query) <? 2)%nat; [reflexivity|].
    cbn [mapArray]. change (Normal ?a ≫= ?f) with (f a). cbv beta. f_equal.
    unfold slice0. apply take_nil.
  - intros Hlong. rewrite search_unfold.
    replace (length (trim query) <? 2)%nat with false by (symmetry; apply Nat.ltb_ge; lia).
    pose proof (mapArray_scoreItem_compiles (termsOf query) item index) as H.
    destruct (mapArray (fun term => RegExp_new term false) (termsOf query)).
    + destruct H as [scored ->]. eexists. reflexivity.
    + rewrite H. reflexivity.
    + rewrite H. reflexivity.
Qed.

Lemma search_fails_on_first_bad_term_witness :
  Readable.search (Some []) (lit "ok (") None = Normal []
  /\ Readable.search (Some (magikEntry :: [settlementEntry])) (lit "ok (") None
     = ThrowSyntaxError.
Proof.
  destruct (search_fails_on_first_bad_term magikEntry [settlementEntry] (lit "ok (") None)
    as [Hempty Hfail].
  split; [exact Hempty|]. apply Hfail. vm_compute. lia.
Defined.

End Ranking.

(** ** The heap run and the results *)

(** X9: run on a heap that holds the index, [search] computes what the
    pure [search] computes: when that returns results, the heap run
    returns a reference to an array that was not in the heap before and
    whose elements hold exactly those results, in their order; when that
    throws, the heap run throws. *)
Theorem heap_search_computes_search (h : gmap Heap.loc Heap.object) (index : Heap.loc)
    (entries : list IndexEntry) (query : jsstring) (limit : option Z) :
  Heap.entriesAt h index = Some entries ->
  match Readable.search (Some entries) query limit with
  | Normal results =>
    exists l h',
      Heap.search (Some index) query limit h = (Normal l, h')
      /\ Heap.resultsAt h' l = Some results
      /\ h !! l = None
  | ThrowSyntaxError =>
    exists h', Heap.search (Some index) query limit h = (ThrowSyntaxError, h')
  | Unmodelled => exists h', Heap.search (Some index) query limit h = (Unmodelled, h')
  end.
Proof.
  intros Hentries. pose proof (heap_search_refines h index entries query limit Hentries) as H.
  destruct (Readable.search (Some entries) query limit) as [results| |]; [|exact H|exact H].
  destruct H as (l & h' & Hrun & Hresults). exists l, h'. split; [exact Hrun|].
  split; [exact Hresults|].
  apply (keeps_search h (Some index) query limit h); [reflexivity|]. rewrite Hrun. reflexivity.
Qed.

Lemma heap_search_computes_search_witness :
  exists l h',
    Heap.search (Some 3%positive) (lit "magik") (Some 10) scenarioHeap = (Normal l, h')
    /\ Heap.resultsAt h' l = Some [spread magikEntry 32]
    /\ scenarioHeap !! l = None.
Proof.
  assert (E : Readable.search (Some scenarioIndex) (lit "magik") (Some 10)
              = Normal [spread magikEntry 32]) by (vm_compute; reflexivity).
  generalize (heap_search_computes_search scenarioHeap 3%positive scenarioIndex (lit "magik")
                (Some 10)).
  rewrite E. intros H. apply H. vm_compute. reflexivity.
Defined.

(** ** The marks of the highlighter *)

Section Marking.

Local Open Scope nat_scope.

Lemma marked_sublist p o : marked p o -> sublist p o.
Proof.
  induction 1 as [|c p o _ IH|p o _ IH|p o _ IH].
  - constructor.
  - constructor. exact IH.
  - etrans; [exact IH|]. apply sublist_inserts_l. reflexivity.
  - etrans; [exact IH|]. apply sublist_inserts_l. reflexivity.
Qed.

Lemma rtc_marked_sublist p o : rtc marked p o -> sublist p o.
Proof.
  induction 1 as [|p q o Hpq _ IH]; [reflexivity|].
  etrans; [apply marked_sublist, Hpq|exact IH].
Qed.

Lemma wrapFrom_absent t : forall s, includesCI s t = false -> wrapFrom t s 0 = s.
Proof.
  induction s as [|c tl IH]; intros H; [reflexivity|].
  cbn [includesCI] in H. apply orb_false_iff in H as [Hhere Hlater].
  cbn [wrapFrom]. rewrite Hhere, (IH Hlater). reflexivity.
Qed.

Lemma highlighted_absent text : forall terms,
  forallb (fun term => negb (includesCI text term)) terms = true ->
  highlighted text terms = text.
Proof.
  unfold highlighted. induction terms as [|t terms IH]; intros H; [reflexivity|].
  cbn [forallb] in H. apply andb_true_iff in H as [Ht Hterms].
  cbn [foldl]. rewrite wrapFrom_absent by (apply negb_true_iff, Ht). apply IH, Hterms.
Qed.

Lemma highlightText_terms text query :
  Readable.highlightText text query = Normal (highlighted text (termsOf query)).
Proof. rewrite highlightText_highlighted. destruct query; reflexivity. Qed.

Lemma escapeChar_length c : 1 <= length (escapeChar c) <= 2.
Proof. unfold escapeChar. destruct (isSyntax c); cbn; lia. Qed.

Lemma escaped_app a b : escaped (a ++ b) = escaped a ++ escaped b.
Proof. unfold escaped. rewrite map_app, concat_app. reflexivity. Qed.

Lemma escaped_length s : length s <= length (escaped s) <= 2 * length s.
Proof.
  induction s as [|c s IH]; [cbn; lia|].
  change (escaped (c :: s)) with (escapeChar c ++ escaped s).
  rewrite length_app. pose proof (escapeChar_length c). cbn [length]. lia.
Qed.

Lemma escaped_fixed s : escaped s = s <-> isPlain s = true.
Proof.
  unfold isPlain. induction s as [|c s IH]; [cbn; tauto|].
  change (escaped (c :: s)) with (escapeChar c ++ escaped s). cbn [forallb].
  unfold escapeChar. destruct (isSyntax c) eqn:Hc; cbn [negb andb app].
  - split; [|discriminate]. intros E. apply (f_equal (@length ascii)) in E.
    cbn [length] in E. pose proof (escaped_length s). lia.
  - rewrite <- IH. split; [intros [= E]; exact E|intros ->; reflexivity].
Qed.

(** X10: [highlightText] returns on every text and every query, whatever
    characters the query holds, and only puts characters in: the text is
    a subsequence of what it returns. *)
Theorem highlightText_keeps_the_text (text query : jsstring) :
  exists out, Readable.highlightText text query = Normal out /\ sublist text out.
Proof.
  eexists. split; [apply highlightText_terms|].
  apply rtc_marked_sublist, highlighted_inserts_tags, termsOf_nonempty.
Qed.

(** X11: what [highlightText] returns: the terms of the query are taken
    one after the other, and each wraps, in what the terms before it have
    made of the text, its occurrences as a literal string, case ignored,
    from the left and without overlap; the wrapped characters are those
    of the text, in their own case. *)
Theorem highlightText_wraps_term_by_term (text query : jsstring) :
  Readable.highlightText text query
    = Normal (foldl (fun h term => wrapFrom term h 0) text (termsOf query)).
Proof. apply highlightText_terms. Qed.

(** X12: when no term of the query occurs in the text, case ignored,
    [highlightText] returns the text as it is; so it does for a query of
    white space only, which has no term. *)
Theorem highlightText_without_occurrence (text query : jsstring) :
  forallb (fun term => negb (includesCI text term)) (termsOf query) = true ->
  Readable.highlightText text query = Normal text.
Proof. intros H. rewrite highlightText_terms, (highlighted_absent _ _ H). reflexivity. Qed.

Lemma highlightText_without_occurrence_witness :
  Readable.highlightText (lit "The world state.") (lit " Magik  (x ")
    = Normal (lit "The world state.").
Proof.
  apply (highlightText_without_occurrence (lit "The world state.") (lit " Magik  (x ")).
  vm_compute. reflexivity.
Defined.

(** X13: [escapeRegex] puts a backslash before each of the fourteen
    syntax characters and copies every other character: it distributes
    over concatenation, at most doubles the length, and returns its
    argument unchanged exactly when that holds no syntax character. *)
Theorem escapeRegex_escapes_each_syntax_character (str rest : jsstring) :
  Readable.escapeRegex str = concat (map escapeChar str)
  /\ Readable.escapeRegex (str ++ rest) = Readable.escapeRegex str ++ Readable.escapeRegex rest
  /\ length str <= length (Readable.escapeRegex str) <= 2 * length str
  /\ (Readable.escapeRegex str = str <-> isPlain str = true).
Proof.
  rewrite !escapeRegex_escaped. split; [reflexivity|]. split; [apply escaped_app|].
  split; [apply escaped_length|apply escaped_fixed].
Qed.

(** X14: the pattern [highlightText] builds from a term, the escaped term
    in a group, always compiles, and it matches at a position exactly
    when the term is there as a literal string, case ignored; the match
    and its capture are the characters the term covers. *)
Theorem escaped_term_matches_itself (term : jsstring) :
  exists rx,
    RegExp_new (lit "(" ++ Readable.escapeRegex term ++ lit ")") true = Normal rx
    /\ forall i s,
         matchAt rx i s =
         if startsWithCI term s
         then Some (mkState (i + length term) (drop (length term) s)
                      [Some (take (length term) s)])
         else None.
Proof.
  exists (termRegExp term). split; [apply RegExp_new_escaped|].
  intros i s. apply matchAt_termRegExp.
Qed.

End Marking.

(** ** Overlapping calls of the loader *)

Section OverlappingLoads.

Local Open Scope nat_scope.

Lemma loaderInvariant_step a e : loaderInvariant a -> loaderInvariant (asyncStep a e).
Proof.
  unfold loaderInvariant. destruct a as [[cache n errs] k].
  cbn [loader inFlight errorsLogged requests searchIndex].
  intros [Hle Hlt]. destruct e as [|net].
  - cbn. destruct cache as [index|]; cbn.
    + split; [exact Hle|exact Hlt].
    + split; [lia|]. intros [? [=]].
  - cbn [asyncStep inFlight]. destruct k as [|k]; [split; assumption|].
    destruct net as [| |index]; cbn.
    + split; [lia|]. intros H. specialize (Hlt H). lia.
    + split; [lia|]. intros H. specialize (Hlt H). lia.
    + split; [lia|]. intros _. lia.
Qed.

Lemma cache_kept_step a e :
  is_Some (searchIndex (loader a)) -> is_Some (searchIndex (loader (asyncStep a e))).
Proof.
  destruct a as [[cache n errs] k]. cbn [loader searchIndex]. intros [index ->].
  destruct e as [|[| |index']]; cbn; [eauto|destruct k; cbn; eauto..].
Qed.

Lemma asyncRun_snoc evs e : asyncRun (evs ++ [e]) = asyncStep (asyncRun evs) e.
Proof. unfold asyncRun. rewrite foldl_app. reflexivity. Qed.

Lemma loaderInvariant_run evs : loaderInvariant (asyncRun evs).
Proof.
  induction evs as [|e evs IH] using rev_ind.
  - split; cbn; [lia|]. intros [? [=]].
  - rewrite asyncRun_snoc. apply loaderInvariant_step, IH.
Qed.

Lemma cache_kept_foldl evs : forall a,
  is_Some (searchIndex (loader a)) -> is_Some (searchIndex (loader (foldl asyncStep a evs))).
Proof.
  induction evs as [|e evs IH]; intros a Ha; [exact Ha|].
  cbn [foldl]. apply IH, cache_kept_step, Ha.
Qed.

Lemma burst_of_calls n : forall r e k,
  foldl asyncStep (mkAsync (mkLoader None r e) k) (replicate n CallStarts)
    = mkAsync (mkLoader None (n + r) e) (n + k).
Proof.
  induction n as [|n IH]; intros r e k; [reflexivity|].
  cbn [replicate foldl]. cbn [asyncStep Readable.loadSearchIndex_call loader searchIndex
                              requests errorsLogged inFlight].
  rewrite IH. f_equal; [f_equal|]; lia.
Qed.

Lemma burst_of_answers indexes : forall cache r e k,
  length indexes <= k ->
  foldl asyncStep (mkAsync (mkLoader cache r e) k)
    (map (fun index => FetchSettles (Parsed index)) indexes)
    = mkAsync (mkLoader (from_option Some cache (last indexes)) r e) (k - length indexes).
Proof.
  induction indexes as [|index indexes IH]; intros cache r e k Hk.
  - cbn. rewrite Nat.sub_0_r. reflexivity.
  - destruct k as [|k]; [cbn in Hk; lia|].
    cbn [map foldl asyncStep inFlight Readable.loadSearchIndex_resume loader snd
         requests errorsLogged].
    rewrite IH by (cbn in Hk; lia). cbn [length Nat.sub]. f_equal. f_equal.
    destruct indexes as [|i2 indexes]; [reflexivity|].
    change (last (index :: i2 :: indexes)) with (last (i2 :: indexes)).
    destruct (last (i2 :: indexes)) eqn:E; [reflexivity|].
    apply last_None in E. discriminate.
Qed.

Lemma requests_kept_foldl evs : forall a,
  is_Some (searchIndex (loader a)) ->
  requests (loader (foldl asyncStep a evs)) = requests (loader a).
Proof.
  induction evs as [|e evs IH]; intros a Ha; [reflexivity|].
  cbn [foldl]. rewrite (IH _ (cache_kept_step a e Ha)).
  destruct a as [[cache n errs] k]. cbn [loader searchIndex] in Ha. destruct Ha as [index ->].
  destruct e as [|[| |index']]; cbn; [reflexivity|destruct k; reflexivity..].
Qed.

(** X15: under any interleaving of calls and settling fetches, every
    logged error and every awaiting call has a request of its own; and
    once the index is in [searchIndex] it stays there, whatever fails
    later, and no further request is issued. *)
Theorem loaded_index_stays (evs later : list LoaderEvent) :
  loaderInvariant (asyncRun evs)
  /\ (is_Some (searchIndex (loader (asyncRun evs))) ->
      is_Some (searchIndex (loader (asyncRun (evs ++ later))))
      /\ requests (loader (asyncRun (evs ++ later))) = requests (loader (asyncRun evs))).
Proof.
  split; [apply loaderInvariant_run|]. intros H. unfold asyncRun in *. rewrite foldl_app.
  split; [apply cache_kept_foldl, H|apply requests_kept_foldl, H].
Qed.

Lemma loaded_index_stays_witness :
  is_Some (searchIndex (loader (asyncRun
      ([CallStarts; CallStarts; FetchSettles (Parsed scenarioIndex)]
       ++ [FetchSettles JsonRejected; CallStarts]))))
  /\ requests (loader (asyncRun
      ([CallStarts; CallStarts; FetchSettles (Parsed scenarioIndex)]
       ++ [FetchSettles JsonRejected; CallStarts]))) = 2.
Proof.
  apply (loaded_index_stays [CallStarts; CallStarts; FetchSettles (Parsed scenarioIndex)]
           [FetchSettles JsonRejected; CallStarts]).
  eexists. reflexivity.
Defined.

(** X16: calls that start before any fetch has settled each fetch:
    [n + 1] calls in a row on the empty cache issue [n + 1] requests, and
    when their fetches succeed the index of the last answer is the one
    that stays in [searchIndex]. *)
Theorem overlapping_calls_each_fetch (indexes : list (list IndexEntry))
    (index : list IndexEntry) :
  asyncRun (replicate (S (length indexes)) CallStarts)
    = mkAsync (mkLoader None (S (length indexes)) 0) (S (length indexes))
  /\ asyncRun (replicate (S (length indexes)) CallStarts
               ++ map (fun i => FetchSettles (Parsed i)) (indexes ++ [index]))
     = mkAsync (mkLoader (Some index) (S (length indexes)) 0) 0.
Proof.
  assert (Hburst : asyncRun (replicate (S (length indexes)) CallStarts)
            = mkAsync (mkLoader None (S (length indexes)) 0) (S (length indexes))).
  { unfold asyncRun, initialLoader. rewrite burst_of_calls. f_equal; [f_equal|]; lia. }
  split; [exact Hburst|].
  unfold asyncRun in *. rewrite foldl_app, Hburst.
  rewrite burst_of_answers by (rewrite length_app; cbn; lia).
  rewrite last_snoc, length_app. cbn [from_option length]. f_equal. lia.
Qed.

End OverlappingLoads.

(** ** The debounce *)

Section Debounce.

Local Open Scope nat_scope.

Lemma atMostOnePending_onInput f v b :
  atMostOnePending b = true ->
  timers (onInput f v b) =
    (if length (trim v) <? 2 then [] else [(nextTimer b, (f, trim v))])
  /\ atMostOnePending (onInput f v b) = true
  /\ nextTimer (onInput f v b) = (if length (trim v) <? 2 then nextTimer b else S (nextTimer b)).
Proof.
  unfold atMostOnePending, onInput, clearSearchTimeout, setSearchTimeout.
  destruct b as [ls st tm nt lc]. cbn [timers searchTimeout nextTimer].
  destruct tm as [|[id q] [|t tm]]; [| |discriminate].
  - intros _. destruct st as [h|], (length (trim v) <? 2); cbn; rewrite ?Nat.eqb_refl; auto.
  - destruct st as [h|]; [|discriminate]. intros Hh. apply Nat.eqb_eq in Hh. subst h.
    destruct (length (trim v) <? 2); cbn; rewrite ?Nat.eqb_refl; cbn; rewrite ?Nat.eqb_refl; auto.
Qed.

Lemma atMostOnePending_runHandler h e b :
  atMostOnePending b = true -> atMostOnePending (runHandler h e b) = true.
Proof.
  intros Hb. destruct h as [f|f| |], e as [f'|f' v| |f'|id]; try exact Hb.
  apply atMostOnePending_onInput, Hb.
Qed.

Lemma atMostOnePending_dispatch e b :
  atMostOnePending b = true -> atMostOnePending (dispatch e b) = true.
Proof.
  intros Hb. unfold dispatch.
  set (b0 := mkBrowser _ _ _ _ _).
  assert (H0 : atMostOnePending b0 = true) by exact Hb. clearbody b0.
  revert b0 H0. induction (List.filter (listensTo e) (listeners b)) as [|l ls IH]; intros b0 H0.
  - exact H0.
  - cbn [foldl]. apply IH, atMostOnePending_runHandler, H0.
Qed.

Lemma atMostOnePending_step b e :
  atMostOnePending b = true -> atMostOnePending (step b e) = true.
Proof.
  intros Hb. destruct e as [f|f v| |f|id]; try (apply atMostOnePending_dispatch, Hb).
  unfold step. destruct (List.find _ (timers b)) as [[k [f q]]|] eqn:Hfind; [|exact Hb].
  unfold atMostOnePending, runSearchTask, callLoader in *.
  cbn [timers searchTimeout].
  destruct (timers b) as [|[id' q'] [|t tm]]; [discriminate| |discriminate].
  cbn in Hfind |- *. destruct (id' =? id); [reflexivity|discriminate].
Qed.

Lemma atMostOnePending_foldl evs : forall b,
  atMostOnePending b = true -> atMostOnePending (foldl step b evs) = true.
Proof.
  induction evs as [|e evs IH]; intros b Hb; [exact Hb|].
  cbn [foldl]. apply IH, atMostOnePending_step, Hb.
Qed.

Lemma step_Input p qa fa b f v :
  listeners b = minifiedListeners p qa fa ->
  step b (Input f v) = if hasInput p f then onInput f v b else b.
Proof.
  destruct b as [ls st tm nt lc]. cbn [listeners]. intros ->.
  destruct p as [[] []], qa, fa, f; reflexivity.
Qed.

Lemma step_listeners p qa fa b e :
  listeners b = minifiedListeners p qa fa ->
  listeners (step b e)
    = minifiedListeners p (qa && negb (isQuickFocus e)) (fa && negb (isFullFocus e)).
Proof.
  intros Hl. destruct e as [f|f v| |f|id].
  - destruct b as [ls st tm nt lc]. cbn [listeners] in Hl. subst ls.
    destruct p as [[] []], qa, fa, f; reflexivity.
  - rewrite (step_Input p qa fa _ _ _ Hl), !andb_true_r.
    destruct (hasInput p f); [rewrite listeners_onInput|]; exact Hl.
  - destruct b as [ls st tm nt lc]. cbn [listeners] in Hl. subst ls.
    destruct p as [[] []], qa, fa; reflexivity.
  - destruct b as [ls st tm nt lc]. cbn [listeners] in Hl. subst ls.
    destruct p as [[] []], qa, fa, f; reflexivity.
  - rewrite !andb_true_r. unfold step.
    destruct (List.find _ (timers b)) as [[k [f q]]|]; exact Hl.
Qed.

Lemma step_loaderCalls p qa fa b e :
  listeners b = minifiedListeners p qa fa ->
  loaderCalls (step b e) =
  loaderCalls b ++
  match e with
  | Focus f =>
    if hasInput p f && (match f with Quick => qa | Full => fa end) then [ByFocus f] else []
  | Timeout id =>
    match List.find (fun t => (fst t =? id)%nat) (timers b) with
    | Some (_, (f, _)) => [ByQuery f]
    | None => []
    end
  | _ => []
  end.
Proof.
  intros Hl. destruct e as [f|f v| |f|id].
  - destruct b as [ls st tm nt lc]. cbn [listeners] in Hl. subst ls.
    destruct p as [[] []], qa, fa, f; cbn; rewrite ?app_nil_r; reflexivity.
  - rewrite (step_Input p qa fa _ _ _ Hl), app_nil_r.
    destruct (hasInput p f); [apply loaderCalls_onInput|reflexivity].
  - destruct b as [ls st tm nt lc]. cbn [listeners] in Hl. subst ls.
    destruct p as [[] []], qa, fa; cbn; rewrite ?app_nil_r; reflexivity.
  - destruct b as [ls st tm nt lc]. cbn [listeners] in Hl. subst ls.
    destruct p as [[] []], qa, fa, f; cbn; rewrite ?app_nil_r; reflexivity.
  - unfold step. destruct (List.find _ (timers b)) as [[k [f q]]|];
      [reflexivity|rewrite app_nil_r; reflexivity].
Qed.

Lemma step_timers p qa fa b e :
  listeners b = minifiedListeners p qa fa ->
  match e with
  | Focus _ | Click | Keydown _ =>
    timers (step b e) = timers b /\ nextTimer (step b e) = nextTimer b
  | _ => True
  end.
Proof.
  intros Hl. destruct e as [f|f v| |f|id]; try exact I;
    destruct b as [ls st tm nt lc]; cbn [listeners] in Hl; subst ls.
  - destruct p as [[] []], qa, fa, f; split; reflexivity.
  - destruct p as [[] []], qa, fa; split; reflexivity.
  - destruct p as [[] []], qa, fa, f; split; reflexivity.
Qed.

Lemma Minified_init p :
  listeners (Minified.onDOMContentLoaded p initialBrowser) = minifiedListeners p true true.
Proof. destruct p as [[] []]; reflexivity. Qed.

Lemma Readable_init p :
  listeners (Readable.onDOMContentLoaded p initialBrowser) = minifiedListeners p false false.
Proof. destruct p as [[] []]; reflexivity. Qed.

(** The listeners after a run from a page set up with the focus
    listeners armed or not. *)
Lemma foldl_step_listeners p evs : forall qa fa b,
  listeners b = minifiedListeners p qa fa ->
  listeners (foldl step b evs)
    = minifiedListeners p (qa && negb (existsb isQuickFocus evs))
        (fa && negb (existsb isFullFocus evs)).
Proof.
  induction evs as [|e evs IH]; intros qa fa b Hl.
  - cbn. rewrite !andb_true_r. exact Hl.
  - cbn [foldl existsb]. rewrite (IH _ _ _ (step_listeners p qa fa b e Hl)).
    rewrite !negb_orb, !andb_assoc. reflexivity.
Qed.

Lemma Readable_run_snoc p evs e :
  Readable.run p (evs ++ [e]) = step (Readable.run p evs) e.
Proof. unfold Readable.run. rewrite foldl_app. reflexivity. Qed.

Lemma Readable_run_listeners p evs :
  listeners (Readable.run p evs) = minifiedListeners p false false.
Proof.
  unfold Readable.run.
  rewrite (foldl_step_listeners p evs false false _ (Readable_init p)). reflexivity.
Qed.

Lemma Minified_run_listeners p evs :
  listeners (Minified.run p evs)
    = minifiedListeners p (negb (existsb isQuickFocus evs)) (negb (existsb isFullFocus evs)).
Proof.
  unfold Minified.run.
  rewrite (foldl_step_listeners p evs true true _ (Minified_init p)). reflexivity.
Qed.

Lemma Readable_run_pending p evs : atMostOnePending (Readable.run p evs) = true.
Proof. apply atMostOnePending_foldl. destruct p as [[] []]; reflexivity. Qed.

Lemma Minified_run_pending p evs : atMostOnePending (Minified.run p evs) = true.
Proof. apply atMostOnePending_foldl. destruct p as [[] []]; reflexivity. Qed.

(** What an input event leaves pending. *)
Lemma timers_after_Input p qa fa b f v :
  listeners b = minifiedListeners p qa fa -> atMostOnePending b = true ->
  timers (step b (Input f v)) =
  if hasInput p f
  then if length (trim v) <? 2 then [] else [(nextTimer b, (f, trim v))]
  else timers b.
Proof.
  intros Hl Hb. rewrite (step_Input p qa fa b f v Hl).
  destruct (hasInput p f); [|reflexivity]. apply atMostOnePending_onInput, Hb.
Qed.

(** What the timeout [id] does after an input event of a field of the page. *)
Lemma timeout_after_Input p qa fa b f v id :
  listeners b = minifiedListeners p qa fa -> atMostOnePending b = true ->
  hasInput p f = true ->
  loaderCalls (step (step b (Input f v)) (Timeout id)) =
  loaderCalls b ++
    (if negb (length (trim v) <? 2) && (id =? nextTimer b) then [ByQuery f] else []).
Proof.
  intros Hl Hb Hf.
  pose proof (timers_after_Input p qa fa b f v Hl Hb) as Ht. rewrite Hf in Ht.
  assert (Hc : loaderCalls (step b (Input f v)) = loaderCalls b).
  { rewrite (step_Input p qa fa b f v Hl), Hf. apply loaderCalls_onInput. }
  unfold step at 1. rewrite Ht.
  destruct (length (trim v) <? 2); cbn [negb andb List.find].
  - rewrite Hc, app_nil_r. reflexivity.
  - cbn [fst]. rewrite (Nat.eqb_sym id). destruct (nextTimer b =? id).
    + unfold runSearchTask, callLoader. cbn [loaderCalls]. rewrite Hc. reflexivity.
    + rewrite Hc, app_nil_r. reflexivity.
Qed.

(** The searches run and the one pending are no more than the input
    events that schedule one. *)
Lemma queryLoads_foldl p evs : forall qa fa b,
  listeners b = minifiedListeners p qa fa -> atMostOnePending b = true ->
  queryLoads (foldl step b evs) + length (timers (foldl step b evs))
    <= queryLoads b + length (timers b) + length (List.filter (schedules p) evs).
Proof.
  induction evs as [|e evs IH]; intros qa fa b Hl Hb; [cbn; lia|].
  cbn [foldl].
  etrans; [apply (IH _ _ _ (step_listeners p qa fa b e Hl)), atMostOnePending_step, Hb|].
  assert (Hstep : queryLoads (step b e) + length (timers (step b e))
                  <= queryLoads b + length (timers b) + if schedules p e then 1 else 0).
  { unfold queryLoads. rewrite (step_loaderCalls p qa fa b e Hl), List.filter_app, length_app.
    destruct e as [f|f v| |f|id].
    - destruct (step_timers p qa fa b (Focus f) Hl) as [-> _].
      destruct (hasInput p f && _); cbn; lia.
    - rewrite (timers_after_Input p qa fa b f v Hl Hb). cbn [schedules].
      destruct (hasInput p f); cbn [andb]; [|cbn; lia].
      unfold atMostOnePending in Hb.
      destruct (length (trim v) <? 2); cbn; lia.
    - destruct (step_timers p qa fa b Click Hl) as [-> _]. cbn; lia.
    - destruct (step_timers p qa fa b (Keydown f) Hl) as [-> _]. cbn; lia.
    - unfold step. unfold atMostOnePending in Hb. destruct b as [ls st tm nt lc].
      cbn [timers loaderCalls] in *.
      destruct tm as [|[id' [f' q']] [|t tm]]; [cbn; lia| |discriminate].
      cbn [List.find fst]. destruct (id' =? id) eqn:E; cbn; rewrite ?E; cbn; lia. }
  cbn [List.filter]. destruct (schedules p e); cbn [length]; lia.
Qed.

Lemma fullFocusLoads_foldl p evs : forall qa fa b,
  listeners b = minifiedListeners p qa fa ->
  length (List.filter byFullFocus (loaderCalls (foldl step b evs)))
    = length (List.filter byFullFocus (loaderCalls b))
      + (if hasFullInput p && fa && existsb isFullFocus evs then 1 else 0).
Proof.
  induction evs as [|e evs IH]; intros qa fa b Hl.
  - cbn. rewrite andb_false_r. lia.
  - cbn [foldl existsb]. rewrite (IH _ _ _ (step_listeners p qa fa b e Hl)).
    rewrite (step_loaderCalls p qa fa b e Hl), List.filter_app, length_app.
    destruct e as [[]|f v| |f|id]; cbn [isFullFocus negb orb andb hasInput];
      rewrite ?andb_true_r, ?andb_false_r; cbn [length List.filter app];
      try (destruct (hasQuickInput p && qa); cbn; lia);
      try lia.
    + destruct (hasFullInput p), fa; cbn; lia.
    + destruct (List.find _ (timers b)) as [[k [f q]]|]; cbn; lia.
Qed.

Lemma quickFocusLoads_absent p evs : forall qa fa b,
  listeners b = minifiedListeners p qa fa -> hasQuickInput p = false ->
  focusLoads (foldl step b evs) = focusLoads b.
Proof.
  induction evs as [|e evs IH]; intros qa fa b Hl Hq; [reflexivity|].
  cbn [foldl]. rewrite (IH _ _ _ (step_listeners p qa fa b e Hl) Hq).
  unfold focusLoads. rewrite (step_loaderCalls p qa fa b e Hl), List.filter_app, length_app.
  destruct e as [[]|f v| |f|id]; cbn [hasInput]; rewrite ?Hq; cbn; try lia.
  - destruct (hasFullInput p && fa); cbn; lia.
  - destruct (List.find _ (timers b)) as [[k [f q]]|]; cbn; lia.
Qed.

Lemma preloads_foldl p evs : forall qa fa b,
  listeners b = minifiedListeners p qa fa ->
  List.filter byPreload (loaderCalls (foldl step b evs)) = List.filter byPreload (loaderCalls b).
Proof.
  induction evs as [|e evs IH]; intros qa fa b Hl; [reflexivity|].
  cbn [foldl]. rewrite (IH _ _ _ (step_listeners p qa fa b e Hl)).
  rewrite (step_loaderCalls p qa fa b e Hl), List.filter_app.
  destruct e as [f|f v| |f|id]; cbn; rewrite ?app_nil_r; try reflexivity.
  - destruct (hasInput p f && _); cbn; rewrite app_nil_r; reflexivity.
  - destruct (List.find _ (timers b)) as [[k [f q]]|]; cbn; rewrite app_nil_r; reflexivity.
Qed.

Lemma queries_foldl p evs : forall b,
  listeners b = minifiedListeners p false false ->
  exists fields, loaderCalls (foldl step b evs) = loaderCalls b ++ map ByQuery fields.
Proof.
  induction evs as [|e evs IH]; intros b Hl; [exists []; rewrite app_nil_r; reflexivity|].
  cbn [foldl]. destruct (IH _ (step_listeners p false false b e Hl)) as [fields ->].
  rewrite (step_loaderCalls p false false b e Hl).
  destruct e as [[]|f v| |f|id]; rewrite ?andb_false_r, ?app_nil_r;
    try (exists fields; reflexivity).
  destruct (List.find _ (timers b)) as [[k [f q]]|].
  - exists (f :: fields). rewrite <- app_assoc. reflexivity.
  - exists fields. rewrite app_nil_r. reflexivity.
Qed.

(** X17: in both variants, after DOMContentLoaded and any events, at
    most one scheduled search is pending, over both fields together, and
    [searchTimeout] is its handle. *)
Theorem one_search_pending_at_most (p : Page) (evs : list Event) :
  atMostOnePending (Readable.run p evs) = true
  /\ atMostOnePending (Minified.run p evs) = true.
Proof. split; [apply Readable_run_pending|apply Minified_run_pending]. Qed.

(** X18: an input event of a field of the page supersedes whatever was
    pending, of either field: after it the one pending search is the one
    for its trimmed value, and none is pending when that has fewer than
    two characters.  An input event of a field that is not on the page
    leaves what is pending as it is. *)
Theorem keystroke_supersedes_pending_search (p : Page) (evs : list Event) (f : Field)
    (value : jsstring) :
  timers (Readable.run p (evs ++ [Input f value])) =
    (if hasInput p f
     then if length (trim value) <? 2 then []
          else [(nextTimer (Readable.run p evs), (f, trim value))]
     else timers (Readable.run p evs))
  /\ timers (Minified.run p (evs ++ [Input f value])) =
    (if hasInput p f
     then if length (trim value) <? 2 then []
          else [(nextTimer (Minified.run p evs), (f, trim value))]
     else timers (Minified.run p evs)).
Proof.
  split.
  - rewrite Readable_run_snoc.
    apply (timers_after_Input p _ _ _ f value (Readable_run_listeners p evs)),
      Readable_run_pending.
  - rewrite run_snoc.
    apply (timers_after_Input p _ _ _ f value (Minified_run_listeners p evs)),
      Minified_run_pending.
Qed.

(** X19: after an input event of a field of the page, only the timeout
    that event has set runs a search, and it calls the loader for that
    field; the timeout of any keystroke before it runs nothing. *)
Theorem only_the_latest_timeout_searches (p : Page) (evs : list Event) (f : Field)
    (value : jsstring) (id : nat) :
  hasInput p f = true ->
  loaderCalls (Readable.run p (evs ++ [Input f value; Timeout id])) =
    loaderCalls (Readable.run p evs) ++
    (if negb (length (trim value) <? 2) && (id =? nextTimer (Readable.run p evs))
     then [ByQuery f] else [])
  /\ loaderCalls (Minified.run p (evs ++ [Input f value; Timeout id])) =
    loaderCalls (Minified.run p evs) ++
    (if negb (length (trim value) <? 2) && (id =? nextTimer (Minified.run p evs))
     then [ByQuery f] else []).
Proof.
  intros Hf. split.
  - unfold Readable.run at 1. rewrite foldl_app. cbn [foldl]. fold (Readable.run p evs).
    apply (timeout_after_Input p _ _ _ f value id (Readable_run_listeners p evs)
             (Readable_run_pending p evs) Hf).
  - unfold Minified.run at 1. rewrite foldl_app. cbn [foldl]. fold (Minified.run p evs).
    apply (timeout_after_Input p _ _ _ f value id (Minified_run_listeners p evs)
             (Minified_run_pending p evs) Hf).
Qed.

Lemma only_the_latest_timeout_searches_witness :
  loaderCalls (Readable.run fullPage
      ([Input Quick (lit "ma")] ++ [Input Full (lit " magik "); Timeout 1])) = [ByPreload]
  /\ loaderCalls (Minified.run fullPage
      ([Input Quick (lit "ma")] ++ [Input Full (lit " magik "); Timeout 2])) = [ByQuery Full].
Proof.
  split.
  - exact (proj1 (only_the_latest_timeout_searches fullPage [Input Quick (lit "ma")] Full
                    (lit " magik ") 1 eq_refl)).
  - exact (proj2 (only_the_latest_timeout_searches fullPage [Input Quick (lit "ma")] Full
                    (lit " magik ") 2 eq_refl)).
Defined.

(** X20: the searches that have run, and the one that is pending, are
    no more than the input events that schedule one: those of a field of
    the page with a trimmed value of two characters or more. *)
Theorem searches_need_keystrokes (p : Page) (evs : list Event) :
  queryLoads (Readable.run p evs) + length (timers (Readable.run p evs))
    <= length (List.filter (schedules p) evs)
  /\ queryLoads (Minified.run p evs) + length (timers (Minified.run p evs))
    <= length (List.filter (schedules p) evs).
Proof.
  split.
  - etrans; [apply (queryLoads_foldl p evs false false);
             [apply Readable_init|destruct p as [[] []]; reflexivity]|].
    destruct p as [[] []]; cbn; lia.
  - etrans; [apply (queryLoads_foldl p evs true true);
             [apply Minified_init|destruct p as [[] []]; reflexivity]|].
    destruct p as [[] []]; cbn; lia.
Qed.

(** X21: in the readable module the loader is called once by the
    DOMContentLoaded handler, before anything else, and after that by
    debounced queries only. *)
Theorem readable_loads_by_preload_and_queries (p : Page) (evs : list Event) :
  exists fields, loaderCalls (Readable.run p evs) = ByPreload :: map ByQuery fields.
Proof.
  destruct (queries_foldl p evs _ (Readable_init p)) as [fields H].
  exists fields. unfold Readable.run. rewrite H. destruct p as [[] []]; reflexivity.
Qed.

(** X22: the minified module never preloads; its full-search field
    has a one-shot focus listener of its own, which calls the loader at
    the first focus of that field and never again; and on a page without
    the quick-search field no focus of it calls the loader. *)
Theorem minified_focus_loads (p : Page) (evs : list Event) :
  List.filter byPreload (loaderCalls (Minified.run p evs)) = []
  /\ length (List.filter byFullFocus (loaderCalls (Minified.run p evs)))
     = (if hasFullInput p && existsb isFullFocus evs then 1 else 0)
  /\ (hasQuickInput p = false -> focusLoads (Minified.run p evs) = 0).
Proof.
  split; [|split].
  - unfold Minified.run. rewrite (preloads_foldl p evs true true _ (Minified_init p)).
    destruct p as [[] []]; reflexivity.
  - unfold Minified.run. rewrite (fullFocusLoads_foldl p evs true true _ (Minified_init p)).
    rewrite andb_true_r. destruct p as [[] []]; reflexivity.
  - intros Hq. unfold Minified.run.
    rewrite (quickFocusLoads_absent p evs true true _ (Minified_init p) Hq).
    destruct p as [[] []]; reflexivity.
Qed.

Lemma minified_focus_loads_witness :
  focusLoads (Minified.run (mkPage false true) [Focus Quick; Focus Full; Focus Quick]) = 0.
Proof.
  apply (minified_focus_loads (mkPage false true) [Focus Quick; Focus Full; Focus Quick]).
  reflexivity.
Defined.

End Debounce.

(** ** The renderers *)

Section Renderers.

Local Open Scope nat_scope.

Lemma quickItem_Normal query result :
  quickItem query result =
  Normal (quickTemplate result (highlighted (r_title result) (termsOf query))
            (highlighted (take 150 (r_content result)) (termsOf query))).
Proof. unfold quickItem. rewrite !highlightText_terms. reflexivity. Qed.

Lemma fullItem_Normal query result :
  fullItem query result =
  Normal (fullTemplate result (highlighted (r_title result) (termsOf query))
            (highlighted (take 300 (r_content result)) (termsOf query))).
Proof. unfold fullItem. rewrite !highlightText_terms. reflexivity. Qed.

Lemma renderQuickSearchResults_markup_eq container results query :
  renderQuickSearchResults container results query =
  Normal ((fun _ =>
      mkContainer
        (match results with
         | [] => quickPlaceholder
         | _ :: _ =>
           concat (map (fun result =>
               quickTemplate result (highlighted (r_title result) (termsOf query))
                 (highlighted (take 150 (r_content result)) (termsOf query))) results)
         end) true) <$> container).
Proof.
  destruct container as [c|]; [|reflexivity].
  destruct results as [|result results]; [reflexivity|].
  unfold renderQuickSearchResults.
  rewrite (mapArray_map _ _ _ (quickItem_Normal query)). reflexivity.
Qed.

Lemma renderFullSearchResults_markup_eq container results query :
  renderFullSearchResults container results query =
  Normal ((fun c =>
      mkContainer
        (match results with
         | [] => fullPlaceholder
         | _ :: _ =>
           concat (map (fun result =>
               fullTemplate result (highlighted (r_title result) (termsOf query))
                 (highlighted (take 300 (r_content result)) (termsOf query))) results)
         end) (active c)) <$> container).
Proof.
  destruct container as [c|]; [|reflexivity].
  destruct results as [|result results]; [reflexivity|].
  unfold renderFullSearchResults.
  rewrite (mapArray_map _ _ _ (fullItem_Normal query)). reflexivity.
Qed.

(** X25: what the task of a timeout shows.  When [search] returns no
    result, as it does while the index is not loaded, the container gets
    the placeholder; when it returns results, it gets markup that is not
    the placeholder; when it throws, the task throws and nothing is
    rendered. *)
Theorem search_task_shows_placeholder_iff_no_result (searchIndex : option (list IndexEntry))
    (query : jsstring) (c : Container) :
  quickSearchTask None query (Some c) = Normal (Some (mkContainer quickPlaceholder true))
  /\ fullSearchTask None query (Some c) = Normal (Some (mkContainer fullPlaceholder (active c)))
  /\ match Readable.search searchIndex query (Some 5%Z) with
     | Normal results =>
       exists markup,
         quickSearchTask searchIndex query (Some c) = Normal (Some (mkContainer markup true))
         /\ (markup = quickPlaceholder <-> results = [])
     | ThrowSyntaxError => quickSearchTask searchIndex query (Some c) = ThrowSyntaxError
     | Unmodelled => quickSearchTask searchIndex query (Some c) = Unmodelled
     end
  /\ match Readable.search searchIndex query (Some 20%Z) with
     | Normal results =>
       exists markup,
         fullSearchTask searchIndex query (Some c) = Normal (Some (mkContainer markup (active c)))
         /\ (markup = fullPlaceholder <-> results = [])
     | ThrowSyntaxError => fullSearchTask searchIndex query (Some c) = ThrowSyntaxError
     | Unmodelled => fullSearchTask searchIndex query (Some c) = Unmodelled
     end.
Proof.
  split; [reflexivity|]. split; [reflexivity|]. split.
  - unfold quickSearchTask.
    destruct (Readable.search searchIndex query (Some 5%Z)) as [results| |];
      [|reflexivity|reflexivity].
    change (Normal results ≫= ?f) with (f results). cbv beta.
    rewrite renderQuickSearchResults_markup_eq. eexists. split; [reflexivity|].
    destruct results as [|result results]; [tauto|]. split; discriminate.
  - unfold fullSearchTask.
    destruct (Readable.search searchIndex query (Some 20%Z)) as [results| |];
      [|reflexivity|reflexivity].
    change (Normal results ≫= ?f) with (f results). cbv beta.
    rewrite renderFullSearchResults_markup_eq. eexists. split; [reflexivity|].
    destruct results as [|result results]; [tauto|]. split; discriminate.
Qed.

End Renderers.

(** ** The page as a whole *)

Section Page.

Local Open Scope nat_scope.

Variable beyond : Beyond.

Lemma browser_searchTask f query u : browser (searchTask beyond f query u) = browser u.
Proof.
  unfold searchTask. destruct f.
  - destruct (searchOutcome _ _ _ _); [|reflexivity].
    destruct (renderQuickSearchResults _ _ _); reflexivity.
  - destruct (searchOutcome _ _ _ _); [|reflexivity].
    destruct (renderFullSearchResults _ _ _); reflexivity.
Qed.

(** Where [search] is within the modelled patterns, the task of the page
    is the task of the timeout. *)
Lemma searchTask_quickSearchTask query u :
  match quickSearchTask (searchIndex (loaderState u)) query (quickResults (containers u)) with
  | Normal c =>
    searchTask beyond Quick query u
    = mkUi (browser u) (loaderState u) (awaiting u) (mkContainers c (fullResults (containers u)))
  | ThrowSyntaxError => searchTask beyond Quick query u = u
  | Unmodelled => True
  end.
Proof.
  unfold quickSearchTask, searchTask, searchOutcome.
  destruct (Readable.search _ _ _) as [results| |]; [|reflexivity|exact I].
  change (Normal results ≫= ?f) with (f results). cbv beta.
  destruct (renderQuickSearchResults _ _ _); [reflexivity|reflexivity|exact I].
Qed.

Lemma searchTask_fullSearchTask query u :
  match fullSearchTask (searchIndex (loaderState u)) query (fullResults (containers u)) with
  | Normal c =>
    searchTask beyond Full query u
    = mkUi (browser u) (loaderState u) (awaiting u) (mkContainers (quickResults (containers u)) c)
  | ThrowSyntaxError => searchTask beyond Full query u = u
  | Unmodelled => True
  end.
Proof.
  unfold fullSearchTask, searchTask, searchOutcome.
  destruct (Readable.search _ _ _) as [results| |]; [|reflexivity|exact I].
  change (Normal results ≫= ?f) with (f results). cbv beta.
  destruct (renderFullSearchResults _ _ _); [reflexivity|reflexivity|exact I].
Qed.

Lemma browser_resume c u : browser (resume beyond c u) = browser u.
Proof. destruct c; [reflexivity|apply browser_searchTask]. Qed.

Lemma browser_startLoad c u : browser (startLoad beyond c u) = browser u.
Proof.
  unfold startLoad. destruct (Readable.loadSearchIndex_call _) as [[index|] st];
    [rewrite browser_resume|]; reflexivity.
Qed.

Lemma browser_uiHandler h e u : browser (uiHandler beyond h e u) = browser u.
Proof.
  destruct h as [f|f| |], e as [f'|f' v|outside|f'|id|k net]; try reflexivity;
    try apply browser_startLoad.
  - unfold uiHandler. destruct (length (trim v) <? 2); [destruct f|]; reflexivity.
  - unfold uiHandler. destruct outside; reflexivity.
Qed.

Lemma browser_foldl_uiHandler e ls : forall u,
  browser (foldl (fun u l => uiHandler beyond (handler l) e u) u ls) = browser u.
Proof.
  induction ls as [|l ls IH]; intros u; [reflexivity|].
  cbn [foldl]. rewrite IH. apply browser_uiHandler.
Qed.

(** The listeners, the timers and the log of loader calls of the page
    are those of [step]. *)
Lemma browser_uiStep u e :
  browser (uiStep beyond u e) =
  match eventOf e with
  | Some ev => step (browser u) ev
  | None => browser u
  end.
Proof.
  destruct e as [f|f v|outside|f|id|k net]; cbn [uiStep eventOf];
    try (rewrite browser_foldl_uiHandler; reflexivity).
  - destruct (List.find _ _) as [[i [f q]]|] eqn:E.
    + rewrite browser_startLoad. reflexivity.
    + reflexivity.
  - destruct (awaiting u !! k); [rewrite browser_resume|]; reflexivity.
Qed.

Lemma browser_foldl_uiStep evs : forall u,
  browser (foldl (uiStep beyond) u evs) = foldl step (browser u) (omap eventOf evs).
Proof.
  induction evs as [|e evs IH]; intros u; [reflexivity|].
  cbn [foldl]. rewrite IH, browser_uiStep.
  destruct e; reflexivity.
Qed.

Lemma sameContainers_refl d : sameContainers d d.
Proof. repeat split; auto. Qed.

Lemma sameContainers_trans d1 d2 d3 :
  sameContainers d1 d2 -> sameContainers d2 d3 -> sameContainers d1 d3.
Proof.
  unfold sameContainers. intros (Hq1 & Hf1 & Ha1) (Hq2 & Hf2 & Ha2).
  split; [tauto|]. split; [tauto|]. congruence.
Qed.

Lemma renderQuickSearchResults_Some container results query c' :
  renderQuickSearchResults container results query = Normal c' ->
  (is_Some c' <-> is_Some container) /\ (forall c, c' = Some c -> active c = true).
Proof.
  rewrite renderQuickSearchResults_markup_eq. intros [= <-].
  destruct container as [c0|]; cbn.
  - split; [split; eauto|]. intros c [= <-]. reflexivity.
  - split; [tauto|]. intros c [=].
Qed.

Lemma renderFullSearchResults_Some container results query c' :
  renderFullSearchResults container results query = Normal c' ->
  (is_Some c' <-> is_Some container) /\ active <$> c' = active <$> container.
Proof.
  rewrite renderFullSearchResults_markup_eq. intros [= <-].
  destruct container as [c0|]; cbn; [|split; [tauto|reflexivity]].
  split; [split; eauto|reflexivity].
Qed.

Lemma sameContainers_searchTask f query u :
  sameContainers (containers u) (containers (searchTask beyond f query u)).
Proof.
  unfold searchTask. destruct f.
  - destruct (searchOutcome _ _ _ _) as [results|]; [|apply sameContainers_refl].
    destruct (renderQuickSearchResults _ _ _) as [c'| |] eqn:E; try apply sameContainers_refl.
    apply renderQuickSearchResults_Some in E as [E _].
    split; [exact E|]. split; [tauto|reflexivity].
  - destruct (searchOutcome _ _ _ _) as [results|]; [|apply sameContainers_refl].
    destruct (renderFullSearchResults _ _ _) as [c'| |] eqn:E; try apply sameContainers_refl.
    apply renderFullSearchResults_Some in E as [E1 E2].
    split; [tauto|]. split; [exact E1|exact E2].
Qed.

Lemma sameContainers_resume c u : sameContainers (containers u) (containers (resume beyond c u)).
Proof. destruct c; [apply sameContainers_refl|apply sameContainers_searchTask]. Qed.

Lemma sameContainers_startLoad c u :
  sameContainers (containers u) (containers (startLoad beyond c u)).
Proof.
  unfold startLoad. destruct (Readable.loadSearchIndex_call _) as [[index|] st].
  - apply (sameContainers_resume c (mkUi _ _ _ _)).
  - apply sameContainers_refl.
Qed.

Lemma sameContainers_uiHandler h e u :
  sameContainers (containers u) (containers (uiHandler beyond h e u)).
Proof.
  destruct h as [f|f| |], e as [f'|f' v|outside|f'|id|k net];
    try apply sameContainers_refl; try apply sameContainers_startLoad.
  - unfold uiHandler. destruct (length (trim v) <? 2); [|apply sameContainers_refl].
    destruct f; cbn [containers]; unfold sameContainers; cbn [quickResults fullResults];
      destruct (quickResults (containers u)), (fullResults (containers u)); cbn;
      repeat split; auto; intros [? [=]].
  - unfold uiHandler. destruct outside; [|apply sameContainers_refl].
    unfold sameContainers; cbn [containers quickResults fullResults].
    destruct (quickResults (containers u)); cbn; repeat split; auto; intros [? [=]].
Qed.

Lemma sameContainers_uiStep u e :
  sameContainers (containers u) (containers (uiStep beyond u e)).
Proof.
  assert (Hfold : forall ev ls u0,
            sameContainers (containers u0)
              (containers (foldl (fun u l => uiHandler beyond (handler l) ev u) u0 ls))).
  { intros ev ls. induction ls as [|l ls IH]; intros u0; [apply sameContainers_refl|].
    cbn [foldl]. eapply sameContainers_trans; [apply (sameContainers_uiHandler (handler l) ev)|].
    apply IH. }
  destruct e as [f|f v|outside|f|id|k net]; cbn [uiStep eventOf];
    try apply (Hfold _ _ (mkUi _ _ _ _)).
  - destruct (List.find _ _) as [[i [f q]]|]; [|apply sameContainers_refl].
    apply (sameContainers_startLoad _ (mkUi _ _ _ _)).
  - destruct (awaiting u !! k); [|apply sameContainers_refl].
    apply (sameContainers_resume _ (mkUi _ _ _ _)).
Qed.

Lemma loaderCalls_runHandler h e b c :
  In c (loaderCalls b) -> In c (loaderCalls (runHandler h e b)).
Proof.
  intros Hc. destruct h as [f|f| |], e as [f'|f' v| |f'|id]; try exact Hc;
    try (unfold runHandler, callLoader; cbn [loaderCalls]; apply in_or_app; left; exact Hc).
  unfold runHandler. rewrite loaderCalls_onInput. exact Hc.
Qed.

Lemma loaderCalls_step b e c : In c (loaderCalls b) -> In c (loaderCalls (step b e)).
Proof.
  intros Hc.
  assert (Hd : forall ev, In c (loaderCalls (dispatch ev b))).
  { intros ev. unfold dispatch. set (b0 := mkBrowser _ _ _ _ _).
    assert (H0 : In c (loaderCalls b0)) by exact Hc. clearbody b0. revert b0 H0.
    induction (List.filter (listensTo ev) (listeners b)) as [|l ls IH]; intros b0 H0;
      [exact H0|]. cbn [foldl]. apply IH, loaderCalls_runHandler, H0. }
  destruct e as [f|f v| |f|id]; try apply Hd.
  unfold step. destruct (List.find _ (timers b)) as [[k [f q]]|]; [|exact Hc].
  unfold runSearchTask, callLoader. cbn [loaderCalls]. apply in_or_app. left. exact Hc.
Qed.

Lemma quickShown_searchTask_Full query u :
  quickShown (searchTask beyond Full query u) = quickShown u.
Proof.
  unfold searchTask. destruct (searchOutcome _ _ _ _); [|reflexivity].
  destruct (renderFullSearchResults _ _ _); reflexivity.
Qed.

Lemma awaiting_searchTask f query u : awaiting (searchTask beyond f query u) = awaiting u.
Proof.
  unfold searchTask. destruct f; (destruct (searchOutcome _ _ _ _); [|reflexivity]);
    [destruct (renderQuickSearchResults _ _ _)|destruct (renderFullSearchResults _ _ _)];
    reflexivity.
Qed.

Lemma shownBySearch_searchTask f query u :
  shownBySearch u ->
  (f = Quick -> In (ByQuery Quick) (loaderCalls (browser u))) ->
  shownBySearch (searchTask beyond f query u).
Proof.
  intros [Hshown Hwait] Hf. split.
  - rewrite browser_searchTask. destruct f; [intros _; auto|].
    rewrite quickShown_searchTask_Full. exact Hshown.
  - rewrite browser_searchTask, awaiting_searchTask. exact Hwait.
Qed.

Lemma shownBySearch_resume c u :
  shownBySearch u ->
  (forall query, c = ThenSearch Quick query -> In (ByQuery Quick) (loaderCalls (browser u))) ->
  shownBySearch (resume beyond c u).
Proof.
  intros Hu Hc. destruct c as [|f query]; [exact Hu|].
  apply shownBySearch_searchTask; [exact Hu|]. intros ->. apply (Hc query). reflexivity.
Qed.

Lemma shownBySearch_startLoad c u :
  shownBySearch u ->
  (forall query, c = ThenSearch Quick query -> In (ByQuery Quick) (loaderCalls (browser u))) ->
  shownBySearch (startLoad beyond c u).
Proof.
  intros Hu Hc. unfold startLoad.
  destruct (Readable.loadSearchIndex_call _) as [[index|] st].
  - apply shownBySearch_resume; [exact Hu|exact Hc].
  - destruct Hu as [Hshown Hwait]. split; [exact Hshown|].
    cbn [awaiting browser]. intros query Hin. apply in_app_or in Hin as [Hin|[Hin|[]]].
    + apply (Hwait query Hin).
    + apply (Hc query). exact Hin.
Qed.

Lemma quickShown_removeActive b st aw q fl :
  quickShown (mkUi b st aw (mkContainers (removeActive q) fl)) = false.
Proof. destruct q; reflexivity. Qed.

Lemma shownBySearch_uiHandler h e u : shownBySearch u -> shownBySearch (uiHandler beyond h e u).
Proof.
  intros Hu. destruct h as [f|f| |], e as [f'|f' v|outside|f'|id|k net]; try exact Hu;
    try (apply shownBySearch_startLoad; [exact Hu|discriminate]).
  - unfold uiHandler. destruct (length (trim v) <? 2); [|exact Hu].
    destruct Hu as [Hshown Hwait]. destruct f.
    + split; [rewrite quickShown_removeActive; discriminate|exact Hwait].
    + split; [exact Hshown|exact Hwait].
  - unfold uiHandler. destruct outside; [|exact Hu].
    destruct Hu as [Hshown Hwait].
    split; [rewrite quickShown_removeActive; discriminate|exact Hwait].
Qed.

Lemma shownBySearch_browser u b :
  shownBySearch u ->
  (forall c, In c (loaderCalls (browser u)) -> In c (loaderCalls b)) ->
  shownBySearch (mkUi b (loaderState u) (awaiting u) (containers u)).
Proof.
  intros [Hshown Hwait] Hb.
  split; [intros H; apply Hb, Hshown, H|intros q H; apply Hb, (Hwait q H)].
Qed.

Lemma shownBySearch_uiStep u e : shownBySearch u -> shownBySearch (uiStep beyond u e).
Proof.
  intros Hu.
  assert (Hfold : forall ev ls u0, shownBySearch u0 ->
            shownBySearch (foldl (fun u l => uiHandler beyond (handler l) ev u) u0 ls)).
  { intros ev ls. induction ls as [|l ls IH]; intros u0 H0; [exact H0|].
    cbn [foldl]. apply IH, shownBySearch_uiHandler, H0. }
  destruct e as [f|f v|outside|f|id|k net]; cbn [uiStep eventOf];
    try (apply Hfold, shownBySearch_browser; [exact Hu|intros c; apply loaderCalls_step]).
  - destruct (List.find _ _) as [[i [f q]]|] eqn:E.
    + apply shownBySearch_startLoad.
      * apply shownBySearch_browser; [exact Hu|intros c; apply loaderCalls_step].
      * intros query [= -> _]. cbn [browser]. unfold step. rewrite E.
        unfold runSearchTask, callLoader. cbn [loaderCalls]. apply in_or_app. right. left.
        reflexivity.
    + apply shownBySearch_browser; [exact Hu|intros c; apply loaderCalls_step].
  - destruct (awaiting u !! k) as [c|] eqn:E; [|exact Hu].
    destruct Hu as [Hshown Hwait]. apply shownBySearch_resume.
    + split; [exact Hshown|]. cbn [awaiting browser]. intros query Hin.
      apply (Hwait query). apply list_elem_of_In. apply list_elem_of_In in Hin.
      exact (list_elem_of_delete_inv _ _ _ Hin).
    + intros query ->. cbn [browser]. apply (Hwait query).
      apply list_elem_of_In. eapply list_elem_of_lookup_2. exact E.
Qed.

Lemma sameContainers_foldl evs : forall u,
  sameContainers (containers u) (containers (foldl (uiStep beyond) u evs)).
Proof.
  induction evs as [|e evs IH]; intros u; [apply sameContainers_refl|].
  cbn [foldl]. eapply sameContainers_trans; [apply sameContainers_uiStep|apply IH].
Qed.

Lemma shownBySearch_foldl evs : forall u,
  shownBySearch u -> shownBySearch (foldl (uiStep beyond) u evs).
Proof.
  induction evs as [|e evs IH]; intros u Hu; [exact Hu|].
  cbn [foldl]. apply IH, shownBySearch_uiStep, Hu.
Qed.

Lemma readablePage_eq p d :
  readablePage p d =
  mkUi (Readable.onDOMContentLoaded p initialBrowser) (mkLoader None 1 0) [JustLoad] d.
Proof. reflexivity. Qed.

Lemma listeners_page_run u evs p qa fa :
  listeners (browser u) = minifiedListeners p qa fa ->
  exists qa' fa', listeners (browser (foldl (uiStep beyond) u evs)) = minifiedListeners p qa' fa'.
Proof.
  intros Hl. rewrite browser_foldl_uiStep.
  rewrite (foldl_step_listeners p _ qa fa _ Hl). eauto.
Qed.

(** What an input event of the quick field and a click do to the quick
    results when the quick field is on the page. *)
Lemma quickShown_hidden u p qa fa :
  listeners (browser u) = minifiedListeners p qa fa -> hasQuickInput p = true ->
  (forall value, length (trim value) < 2 ->
     quickShown (uiStep beyond u (UInput Quick value)) = false)
  /\ quickShown (uiStep beyond u (UClick true)) = false.
Proof.
  intros Hl Hq. split.
  - intros value Hshort. apply Nat.ltb_lt in Hshort.
    cbn [uiStep eventOf]. rewrite Hl. destruct p as [hq hf]. cbn in Hq. subst hq.
    destruct hf, qa, fa; cbn [minifiedListeners hasQuickInput hasFullInput app List.filter
      listensTo eventType eventTarget type target EventType_eqb Target_eqb andb foldl handler];
      unfold uiHandler; rewrite Hshort; apply quickShown_removeActive.
  - cbn [uiStep eventOf]. rewrite Hl. destruct p as [hq hf]. cbn in Hq. subst hq.
    destruct hf, qa, fa; cbn [minifiedListeners hasQuickInput hasFullInput app List.filter
      listensTo eventType eventTarget type target EventType_eqb Target_eqb andb foldl handler];
      unfold uiHandler; apply quickShown_removeActive.
Qed.

(** X26: whatever happens on the page, the module neither adds nor
    removes a results container, and it never changes whether the
    container of the full results is active. *)
Theorem page_keeps_its_containers (u : Ui) (evs : list UiEvent) :
  sameContainers (containers u) (containers (foldl (uiStep beyond) u evs)).
Proof. apply sameContainers_foldl. Qed.

(** X27: in both variants the quick results, hidden when the page is
    loaded, are shown only once a debounced query of the quick field has
    called the loader. *)
Theorem dropdown_opens_only_after_a_search (p : Page) (d : Containers) (evs : list UiEvent) :
  shown (quickResults d) = false ->
  (quickShown (foldl (uiStep beyond) (readablePage p d) evs) = true ->
   In (ByQuery Quick) (loaderCalls (browser (foldl (uiStep beyond) (readablePage p d) evs))))
  /\ (quickShown (foldl (uiStep beyond) (minifiedPage p d) evs) = true ->
      In (ByQuery Quick) (loaderCalls (browser (foldl (uiStep beyond) (minifiedPage p d) evs)))).
Proof.
  intros Hd. split.
  - apply shownBySearch_foldl. rewrite readablePage_eq. split.
    + intros H. unfold quickShown in H. cbn [containers] in H. congruence.
    + intros query [[=]|[]].
  - apply shownBySearch_foldl. split.
    + intros H. unfold quickShown, minifiedPage in H. cbn [containers] in H. congruence.
    + intros query [].
Qed.

(** X28: on a page with the quick field, in both variants and after any
    events, an input event of the quick field whose trimmed value has
    fewer than two characters hides the quick results, and so does a
    click outside the results and the field. *)
Theorem short_input_and_outside_click_hide (p : Page) (d : Containers) (evs : list UiEvent)
    (value : jsstring) :
  hasQuickInput p = true -> length (trim value) < 2 ->
  quickShown (foldl (uiStep beyond) (readablePage p d) (evs ++ [UInput Quick value])) = false
  /\ quickShown (foldl (uiStep beyond) (readablePage p d) (evs ++ [UClick true])) = false
  /\ quickShown (foldl (uiStep beyond) (minifiedPage p d) (evs ++ [UInput Quick value])) = false
  /\ quickShown (foldl (uiStep beyond) (minifiedPage p d) (evs ++ [UClick true])) = false.
Proof.
  intros Hq Hshort. rewrite !foldl_app. cbn [foldl].
  destruct (listeners_page_run (readablePage p d) evs p false false) as (qa & fa & Hr).
  { rewrite readablePage_eq. apply Readable_init. }
  destruct (listeners_page_run (minifiedPage p d) evs p true true) as (qa' & fa' & Hm).
  { apply Minified_init. }
  destruct (quickShown_hidden _ p qa fa Hr Hq) as [Hr1 Hr2].
  destruct (quickShown_hidden _ p qa' fa' Hm Hq) as [Hm1 Hm2].
  auto.
Qed.

Lemma renderQuickSearchResults_removeActive container results query :
  renderQuickSearchResults (removeActive container) results query
    = renderQuickSearchResults container results query.
Proof. destruct container; reflexivity. Qed.

Lemma searchIndex_resume net :
  searchIndex (Readable.loadSearchIndex_resume net (mkLoader None 1 0)).2 = cacheOf net.
Proof. destruct net; reflexivity. Qed.

(** X29: a search that awaits the index is not called off by what is
    typed later.  On the minified page, after an input event of the quick
    field with a query of two characters or more, its timeout, another
    input event of the quick field and then the answer to the fetch, the
    quick results are what the renderer makes of the results of [search]
    for the first query over the index fetched: the items or the
    placeholder, shown, even when the later value was short and had hidden
    them.  Only when [search] throws on the first query are they left as
    the later input event left them.  For a query outside the pattern
    fragment this holds for whichever of the two [search] does. *)
Theorem awaited_search_renders_when_its_fetch_settles (p : Page) (d : Containers)
    (value later : jsstring) (net : FetchOutcome) :
  hasQuickInput p = true -> 2 <= length (trim value) ->
  let atLast := quickResults (containers (foldl (uiStep beyond) (minifiedPage p d)
      [UInput Quick value; UTimeout 1; UInput Quick later; USettle 0 net])) in
  match searchOutcome beyond (cacheOf net) (trim value) 5 with
  | Some results =>
    renderQuickSearchResults (quickResults d) results (trim value) = Normal atLast
  | None =>
    atLast = if length (trim later) <? 2 then removeActive (quickResults d) else quickResults d
  end.
Proof.
  intros Hq Hlong.
  assert (Hlong' : (length (trim value) <=? 1) = false) by (apply Nat.leb_gt; lia).
  apply Nat.ltb_ge in Hlong.
  destruct p as [hq hf]. cbn in Hq. subst hq.
  assert (H1 : uiStep beyond (minifiedPage (mkPage true hf) d) (UInput Quick value) =
               mkUi (onInput Quick value
                       (Minified.onDOMContentLoaded (mkPage true hf) initialBrowser))
                 initialLoader [] d).
  { destruct hf; cbn [uiStep eventOf minifiedPage browser loaderState awaiting containers];
      cbv [uiHandler]; cbn; rewrite ?Hlong, ?Hlong'; reflexivity. }
  cbn [foldl]. rewrite H1. clear H1.
  assert (H2 : onInput Quick value
                 (Minified.onDOMContentLoaded (mkPage true hf) initialBrowser)
               = mkBrowser (minifiedListeners (mkPage true hf) true true) (Some 1)
                   [(1, (Quick, trim value))] 2 []).
  { destruct hf; unfold onInput; rewrite Hlong; reflexivity. }
  rewrite H2. clear H2.
  assert (H3 : uiStep beyond
                 (mkUi (mkBrowser (minifiedListeners (mkPage true hf) true true) (Some 1)
                          [(1, (Quick, trim value))] 2 []) initialLoader [] d)
                 (UTimeout 1)
               = mkUi (mkBrowser (minifiedListeners (mkPage true hf) true true) (Some 1)
                          [] 2 [ByQuery Quick]) (mkLoader None 1 0)
                   [ThenSearch Quick (trim value)] d) by reflexivity.
  rewrite H3. clear H3.
  assert (H4 : uiStep beyond
                 (mkUi (mkBrowser (minifiedListeners (mkPage true hf) true true) (Some 1)
                          [] 2 [ByQuery Quick]) (mkLoader None 1 0)
                    [ThenSearch Quick (trim value)] d)
                 (UInput Quick later)
               = mkUi (onInput Quick later
                         (mkBrowser (minifiedListeners (mkPage true hf) true true) (Some 1)
                            [] 2 [ByQuery Quick]))
                   (mkLoader None 1 0) [ThenSearch Quick (trim value)]
                   (if length (trim later) <? 2
                    then mkContainers (removeActive (quickResults d)) (fullResults d)
                    else d)).
  { destruct hf; cbn [uiStep eventOf browser loaderState awaiting containers];
      unfold step, dispatch, uiHandler;
      cbn [minifiedListeners hasQuickInput hasFullInput app List.filter listeners
           listensTo eventType eventTarget type target EventType_eqb Target_eqb andb foldl
           handler once negb runHandler searchTimeout timers nextTimer loaderCalls
           browser loaderState awaiting containers];
      destruct (length (trim later) <? 2); reflexivity. }
  rewrite H4. clear H4.
  cbn [uiStep awaiting lookup list_lookup resume searchTask loaderState containers].
  rewrite searchIndex_resume.
  destruct (searchOutcome beyond (cacheOf net) (trim value) 5) as [results|].
  - destruct (length (trim later) <? 2); cbn [quickResults fullResults containers];
      rewrite ?renderQuickSearchResults_removeActive;
      rewrite renderQuickSearchResults_markup_eq; reflexivity.
  - destruct (length (trim later) <? 2); reflexivity.
Qed.

End Page.

Lemma dropdown_opens_only_after_a_search_witness :
  In (ByQuery Quick)
    (loaderCalls (browser (foldl (uiStep throwsBeyond)
       (minifiedPage fullPage (mkContainers (Some (mkContainer [] false)) None))
       [UInput Quick (lit "magik"); UTimeout 1; USettle 0 (Parsed scenarioIndex)]))).
Proof.
  apply (dropdown_opens_only_after_a_search throwsBeyond fullPage
           (mkContainers (Some (mkContainer [] false)) None)
           [UInput Quick (lit "magik"); UTimeout 1; USettle 0 (Parsed scenarioIndex)]).
  - reflexivity.
  - vm_compute. reflexivity.
Defined.

Lemma short_input_and_outside_click_hide_witness :
  quickShown (foldl (uiStep throwsBeyond)
      (readablePage fullPage (mkContainers (Some (mkContainer [] false)) None))
      ([UInput Quick (lit "magik"); UTimeout 1; USettle 0 (Parsed scenarioIndex)]
       ++ [UInput Quick (lit " m ")])) = false.
Proof.
  apply (short_input_and_outside_click_hide throwsBeyond fullPage
           (mkContainers (Some (mkContainer [] false)) None)
           [UInput Quick (lit "magik"); UTimeout 1; USettle 0 (Parsed scenarioIndex)]
           (lit " m ")).
  - reflexivity.
  - vm_compute. lia.
Defined.

Lemma awaited_search_renders_when_its_fetch_settles_witness :
  match searchOutcome throwsBeyond (Some scenarioIndex) (lit "magik") 5 with
  | Some results =>
    renderQuickSearchResults (Some (mkContainer [] false)) results (lit "magik")
    = Normal (quickResults (containers (foldl (uiStep throwsBeyond)
        (minifiedPage fullPage (mkContainers (Some (mkContainer [] false)) None))
        [UInput Quick (lit "magik"); UTimeout 1; UInput Quick [];
         USettle 0 (Parsed scenarioIndex)])))
  | None =>
    quickResults (containers (foldl (uiStep throwsBeyond)
        (minifiedPage fullPage (mkContainers (Some (mkContainer [] false)) None))
        [UInput Quick (lit "magik"); UTimeout 1; UInput Quick [];
         USettle 0 (Parsed scenarioIndex)]))
    = Some (mkContainer [] false)
  end.
Proof.
  apply (awaited_search_renders_when_its_fetch_settles throwsBeyond fullPage
           (mkContainers (Some (mkContainer [] false)) None) (lit "magik") []
           (Parsed scenarioIndex)).
  - reflexivity.
  - vm_compute. lia.
Defined.
